(** * cloudkeeper: the query parser and the query model

    A shallow embedding of [core/query/query_parser.py] (a parsy grammar) and
    of the query model it builds, with the properties of the query language
    stated over them.

    Conventions.
    - The query text is a [string]: one [ascii] per code point below 256.
    - A Python [str] held by a value of the model is a list of code points
      ([str]); a unicode escape in a quoted string makes code points above 255.
    - A parsy parser is a function from the text that is left to a [Result]:
      success with a value and the rest of the text, failure (which an
      alternative recovers from), a Python exception escaping the parser
      (which nothing in the grammar catches), or no return at all. The
      position and the expected tokens that parsy records in a failure only
      feed the text of the [ParseError] and are left out. *)

From Stdlib Require Import String Ascii List NArith Bool Arith Lia.
Import ListNotations.

Set Implicit Arguments.
Set Warnings "-register-all".

Open Scope string_scope.
Open Scope nat_scope.
Open Scope list_scope.

(* ------------------------------------------------------------------ *)
(** ** Python strings *)

Definition str := list N.

Definition codes (s : string) : str := map N_of_ascii (list_ascii_of_string s).
Coercion codes : string >-> str.

Fixpoint str_eqb (a b : str) : bool :=
  match a, b with
  | [], [] => true
  | x :: a', y :: b' => N.eqb x y && str_eqb a' b'
  | _, _ => false
  end.

Definition slen (s : string) : nat := String.length s.

Definition code (c : ascii) : nat := nat_of_ascii c.

Definition between (lo hi : nat) (c : ascii) : bool :=
  (lo <=? code c) && (code c <=? hi).

(** [str.isspace] / the regex class [\s] on code points below 256. *)
Definition isspace (c : ascii) : bool :=
  between 9 13 c || between 28 32 c || (code c =? 133) || (code c =? 160).

(** [str.isdigit] on code points below 256: the ten decimal digits and the
    superscripts one, two and three, which [int] and [float] reject. *)
Definition isdecimal (c : ascii) : bool := between 48 57 c.
Definition isdigit (c : ascii) : bool :=
  isdecimal c || (code c =? 178) || (code c =? 179) || (code c =? 185).

Definition isalpha_ascii (c : ascii) : bool := between 65 90 c || between 97 122 c.
Definition isalnum_ascii (c : ascii) : bool := isalpha_ascii c || isdecimal c.
Definition ishex (c : ascii) : bool :=
  isdecimal c || between 97 102 c || between 65 70 c.

(* ------------------------------------------------------------------ *)
(** ** parsy *)

(** The exceptions that the grammar raises. The [RecursionError] of an
    interpreter whose stack is full is not among them: see the limits of
    the interpreter below. *)
Inductive PyExn : Type :=
| ValueError (literal : str)
| AttributeError (message : str).

Inductive Result (A : Type) : Type :=
| Success (value : A) (rest : string)
| Failure
| Raise (e : PyExn)
| Hang.

Arguments Failure {A}.
Arguments Raise {A} e.
Arguments Hang {A}.

Definition Parser (A : Type) : Type := string -> Result A.

Definition success {A} (v : A) : Parser A := fun s => Success v s.

Definition bind {A B} (p : Parser A) (f : A -> Parser B) : Parser B :=
  fun s =>
    match p s with
    | Success v r => f v r
    | Failure => Failure
    | Raise e => Raise e
    | Hang => Hang
    end.

Definition pmap {A B} (f : A -> B) (p : Parser A) : Parser B :=
  bind p (fun v => success (f v)).

(** [p.map(f)] for an [f] that can raise. *)
Definition pmap_raising {A B} (f : A -> PyExn + B) (p : Parser A) : Parser B :=
  bind p (fun v r => match f v with inl e => Raise e | inr b => Success b r end).

Definition alt {A} (p q : Parser A) : Parser A :=
  fun s => match p s with Failure => q s | other => other end.

Definition then_ {A B} (p : Parser A) (q : Parser B) : Parser B :=
  bind p (fun _ => q).

Definition skip {A B} (p : Parser A) (q : Parser B) : Parser A :=
  bind p (fun v => bind q (fun _ => success v)).

Definition result {A B} (p : Parser A) (v : B) : Parser B := then_ p (success v).

Declare Scope parsy_scope.
Delimit Scope parsy_scope with parsy.
Notation "p <|> q" := (alt p q) (at level 62, left associativity) : parsy_scope.
Notation "p >> q" := (then_ p q) (at level 61, left associativity) : parsy_scope.
Notation "p << q" := (skip p q) (at level 61, left associativity) : parsy_scope.
Notation "x <- p ;; k" := (bind p (fun x => k))
  (at level 65, p at next level, right associativity) : parsy_scope.
Notation "'yield_' p ;; k" := (bind p (fun _ => k))
  (at level 65, p at next level, right associativity) : parsy_scope.
Open Scope parsy_scope.

(** [reduce(lambda x, y: x | y, ps)] *)
Definition alts {A} (ps : list (Parser A)) : Parser A :=
  match ps with
  | [] => fun _ => Failure
  | p :: ps' => fold_left alt ps' p
  end.

Fixpoint strip_prefix (lit s : string) : option string :=
  match lit with
  | EmptyString => Some s
  | String c lit' =>
      match s with
      | String d s' => if Ascii.eqb c d then strip_prefix lit' s' else None
      | EmptyString => None
      end
  end.

(** [string(lit)] *)
Definition pstring (lit : string) : Parser str :=
  fun s => match strip_prefix lit s with
           | Some r => Success (codes lit) r
           | None => Failure
           end.

(** [test_char(f)] *)
Definition test_char (f : ascii -> bool) : Parser str :=
  fun s => match s with
           | String c r => if f c then Success [N_of_ascii c] r else Failure
           | EmptyString => Failure
           end.

Definition digit : Parser str := test_char isdigit.

Fixpoint span (f : ascii -> bool) (s : string) : str * string :=
  match s with
  | String c r => if f c then let (m, r') := span f r in (N_of_ascii c :: m, r')
                  else ([], s)
  | EmptyString => ([], s)
  end.

(** [regex("[f]*")]: the longest run of characters in the class. *)
Definition regex_star (f : ascii -> bool) : Parser str :=
  fun s => let (m, r) := span f s in Success m r.

(** [regex("[f][g]*")] *)
Definition regex_one_star (f g : ascii -> bool) : Parser str :=
  fun s => match s with
           | String c r => if f c then let (m, r') := span g r in Success (N_of_ascii c :: m) r'
                           else Failure
           | EmptyString => Failure
           end.

(** [regex("[f]+")] *)
Definition regex_plus (f : ascii -> bool) : Parser str := regex_one_star f f.

(** [p.times(0, inf)].  parsy applies [p] until it fails and has no check
    that [p] moved on: a [p] that succeeds where it started is applied at
    the same place for ever. *)
Fixpoint many_from {A} (p : Parser A) (fuel : nat) (s : string) : Result (list A) :=
  match fuel with
  | 0 => Hang
  | S fuel' =>
      match p s with
      | Success v r =>
          if slen r <? slen s then
            match many_from p fuel' r with
            | Success vs r' => Success (v :: vs) r'
            | Failure => Failure
            | Raise e => Raise e
            | Hang => Hang
            end
          else Hang
      | Failure => Success [] s
      | Raise e => Raise e
      | Hang => Hang
      end
  end.

Definition many {A} (p : Parser A) : Parser (list A) :=
  fun s => many_from p (S (slen s)) s.

(** [p.times(1)] *)
Definition times1 {A} (p : Parser A) : Parser (list A) := pmap (fun v => [v]) p.

(** [p + q] on parsers of lists *)
Definition plus {A} (p q : Parser (list A)) : Parser (list A) :=
  bind p (fun a => bind q (fun b => success (a ++ b))).

Definition at_least1 {A} (p : Parser A) : Parser (list A) := plus (times1 p) (many p).

(** [p.times(0, 1).map(lambda v: v[0] if v else None)] *)
Definition optional {A} (p : Parser A) : Parser (option A) :=
  fun s => match p s with
           | Success v r => Success (Some v) r
           | Failure => Success None s
           | Raise e => Raise e
           | Hang => Hang
           end.

Definition sep_by {A B} (p : Parser A) (sep : Parser B) : Parser (list A) :=
  plus (times1 p) (many (sep >> p)) <|> success [].

(** [.concat()] *)
Definition concat_ (p : Parser (list str)) : Parser str := pmap (@List.concat N) p.

Definition eof : Parser unit :=
  fun s => match s with EmptyString => Success tt s | _ => Failure end.

(* ------------------------------------------------------------------ *)
(** ** The query model built by the parser

    [core/query/model.py] is not among the sources; the classes are the
    ones the parser and [model_test.py] construct, with the fields the
    specification lists for them. *)

(** Modelled from the spec: the values of the missing model: a string, a
    float, an integer of any size, an array, a boolean or null. *)
Inductive Value : Type :=
| VStr (s : str)
| VFloat (literal : str)        (* a float, kept as the literal it was read from *)
| VInt (n : N)
| VList (elements : list Value)
| VBool (b : bool)
| VNone.

(** Modelled from the spec: [Navigation] of the missing model, with the
    four arguments the parser passes. *)
Record Navigation : Type := mkNavigation {
  start : N;
  until : N;
  edge_type : option str;
  direction : str
}.

(** Modelled from the spec: the aggregation clause of the missing model:
    grouping keys and aggregate functions, both over property paths; a
    function can also be over a number, as [sum(1)] in [model_test.py]. *)
Record Aggregate : Type := mkAggregate {
  group_by : list str;
  group_func : list (str * (str + N))
}.

(** Modelled from the spec: the terms, merge queries, queries and parts of
    the missing model. A predicate has the fourth argument the parser
    passes, and a part has the limit that [test_combine] reads. The first
    part of a query is its current part, the one written last. *)
Inductive Term : Type :=
| AllTerm
| Predicate (name : str) (op : str) (value : Value) (args : list (str * Value))
| FunctionTerm (fn : str) (property_path : str) (args : list Value)
| IsTerm (kinds : list str)
| IdTerm (id : str)
| CombinedTerm (left : Term) (op : str) (right : Term)
| MergeTerm (pre_filter : Term) (merge : list MergeQuery) (post_filter : Term)
with MergeQuery : Type :=
| mkMergeQuery (name : str) (query : Query)
with Query : Type :=
| mkQuery (parts : list Part) (aggregate : option Aggregate)
with Part : Type :=
| mkPart (term : Term) (pinned : bool) (navigation : option Navigation) (limit : option N).

Definition parts (q : Query) : list Part := let (ps, _) := q in ps.
Definition aggregate (q : Query) : option Aggregate := let (_, a) := q in a.
Definition term (p : Part) : Term := let (t, _, _, _) := p in t.
Definition pinned (p : Part) : bool := let (_, b, _, _) := p in b.
Definition navigation (p : Part) : option Navigation := let (_, _, n, _) := p in n.
Definition limit (p : Part) : option N := let (_, _, _, l) := p in l.
Definition name (m : MergeQuery) : str := let (n, _) := m in n.
Definition query (m : MergeQuery) : Query := let (_, q) := m in q.

(** The constructor calls of the parser, [Part(term, pinned, nav)] and
    [Query(parts)], with the other fields at their defaults. *)
Definition Part_ (t : Term) (pin : bool) (nav : option Navigation) : Part :=
  mkPart t pin nav None.
Definition Query_ (ps : list Part) : Query := mkQuery ps None.

(** Modelled from the spec: the class [IsInstanceTerm] of the missing model,
    which the parser constructs; the kind test of the specification is
    [IsTerm] over a set of kinds, here the one kind given. *)
Definition IsInstanceTerm (kind : str) : Term := IsTerm [kind].

(* ------------------------------------------------------------------ *)
(** ** query_parser.py: lexical rules *)

Definition whitespace : Parser str := regex_star isspace.

Definition lexeme {A} (p : Parser A) : Parser A := whitespace >> p << whitespace.

Definition dquote : string := String "034"%char EmptyString.
Definition backslash : string := String "092"%char EmptyString.

Definition operationP : Parser str :=
  alts (map (fun a => lexeme (pstring a))
            ["<="; ">="; ">"; "<"; "=="; "!="; "=~"; "!~"; "in"; "not in"]).

Definition functionP : Parser str :=
  alts (map (fun a => lexeme (pstring a)) ["in_subnet"; "has_desired_change"]).

Definition preamblePropP : Parser str :=
  alts (map (fun a => lexeme (pstring a)) ["edge_type"]).

Definition lparenP := lexeme (pstring "(").
Definition rparenP := lexeme (pstring ")").
Definition lbrackP := lexeme (pstring "[").
Definition rbrackP := lexeme (pstring "]").
Definition gtP := lexeme (pstring ">").
Definition ltP := lexeme (pstring "<").
Definition colonP := lexeme (pstring ":").
Definition commaP := lexeme (pstring ",").
Definition dotdotP := lexeme (pstring "..").
Definition equalsP := lexeme (pstring "=").
Definition trueP : Parser Value := result (lexeme (pstring "true")) (VBool true).
Definition falseP : Parser Value := result (lexeme (pstring "false")) (VBool false).
Definition nullP : Parser Value := result (lexeme (pstring "null")) VNone.

Definition is_decimal_code (c : N) : bool := ((48 <=? c) && (c <=? 57))%N.

(** [int(s)] on a run of [isdigit] characters (without the bound that
    later versions of Python put on the number of digits). *)
Definition py_int (s : str) : PyExn + N :=
  if forallb is_decimal_code s
  then inr (fold_left (fun acc c => acc * 10 + (c - 48))%N s 0%N)
  else inl (ValueError s).

(** [float(s)] on digits, a dot, digits: Python needs a digit on one side
    at least and decimal digits only. *)
Definition py_float (s : str) : PyExn + Value :=
  if forallb (fun c => is_decimal_code c || N.eqb c 46) s && existsb is_decimal_code s
  then inr (VFloat s)
  else inl (ValueError s).

Definition integerP : Parser N := pmap_raising py_int (concat_ (at_least1 digit)).

Definition floatP : Parser Value :=
  pmap_raising py_float
    (concat_ (plus (plus (many digit) (result (pstring ".") [codes "."])) (many digit))).

Definition variableP : Parser str :=
  lexeme (regex_one_star isalpha_ascii
            (fun c => isalnum_ascii c || (code c =? 46) || (code c =? 42)
                      || (code c =? 91) || (code c =? 93))).

Definition literalP : Parser str := lexeme (regex_one_star isalpha_ascii isalnum_ascii).

Definition string_part : Parser str :=
  regex_plus (fun c => negb ((code c =? 34) || (code c =? 92))).

Definition hexval (c : ascii) : N :=
  if isdecimal c then N.of_nat (code c - 48)
  else if between 97 102 c then N.of_nat (code c - 87)
  else N.of_nat (code c - 55).

(** [regex("u[0-9a-fA-F]{4}").map(lambda s: chr(int(s[1:], 16)))] *)
Definition unicode_escape : Parser str :=
  fun s =>
    match s with
    | String u (String a (String b (String c (String d r)))) =>
        if (code u =? 117) && ishex a && ishex b && ishex c && ishex d
        then Success [(((hexval a * 16 + hexval b) * 16 + hexval c) * 16 + hexval d)%N] r
        else Failure
    | _ => Failure
    end.

Definition string_esc : Parser str :=
  pstring backslash >>
    (pstring backslash
     <|> pstring "/"
     <|> pstring dquote
     <|> result (pstring "b") [8%N]
     <|> result (pstring "f") [12%N]
     <|> result (pstring "n") [10%N]
     <|> result (pstring "r") [13%N]
     <|> result (pstring "t") [9%N]
     <|> unicode_escape).

Definition stringP : Parser str := concat_ (many (string_part <|> string_esc)).

Definition quotedStringP : Parser str :=
  lexeme (pstring dquote >> stringP << pstring dquote).

(** ** Values *)

Definition array_parser_of (valueP : Parser Value) : Parser (list Value) :=
  yield_ lbrackP ;;
  elements <- sep_by valueP commaP ;;
  yield_ rbrackP ;;
  success elements.

Definition valueP_of (array_parser : Parser (list Value)) : Parser Value :=
  pmap VStr quotedStringP <|> floatP <|> pmap VInt integerP <|> pmap VList array_parser
  <|> trueP <|> falseP <|> nullP.

(** [valueP] and [array_parser] refer to each other; an array is entered
    only past its bracket, so the nesting is bounded by the text. The stack
    of the interpreter, which bounds it earlier, is left out here. *)
Fixpoint valueP_upto (depth : nat) : Parser Value :=
  match depth with
  | 0 => fun _ => Hang
  | S d => valueP_of (array_parser_of (valueP_upto d))
  end.

Definition valueP : Parser Value := fun s => valueP_upto (S (slen s)) s.
Definition array_parser : Parser (list Value) := array_parser_of valueP.

(** ** Terms *)

Definition predicate_term : Parser Term :=
  name <- variableP ;;
  op <- operationP ;;
  value <- valueP ;;
  success (Predicate name op value []).

Definition function_term : Parser Term :=
  fn <- functionP ;;
  yield_ lparenP ;;
  name <- variableP ;;
  args <- many (commaP >> valueP) ;;
  yield_ rparenP ;;
  success (FunctionTerm fn name args).

Definition isinstance_term : Parser Term :=
  pmap IsInstanceTerm (lexeme (pstring "isinstance" >> lparenP >> quotedStringP << rparenP)).

Definition id_term : Parser Term :=
  pmap IdTerm (lexeme (pstring "id" >> lparenP >> quotedStringP << rparenP)).

Definition leafTermP : Parser Term :=
  isinstance_term <|> id_term <|> predicate_term <|> function_term.

Definition boolOpP : Parser str := lexeme (pstring "and" <|> pstring "or").

(** The [while True] loop of [combined_term]: [result] is the term folded so
    far. Every turn reads an operator, so the loop ends with the text. *)
Fixpoint combined_loop (simpleTermP : Parser Term) (turns : nat) (result : Term)
  : Parser Term :=
  match turns with
  | 0 => fun _ => Hang
  | S turns' =>
      op <- (pmap Some boolOpP <|> success None) ;;
      match op with
      | None => success result
      | Some op =>
          right <- simpleTermP ;;
          combined_loop simpleTermP turns' (CombinedTerm result op right)
      end
  end.

Definition combined_term_of (simpleTermP : Parser Term) : Parser Term :=
  left <- simpleTermP ;;
  (fun s => combined_loop simpleTermP (S (slen s)) left s).

Definition simpleTermP_of (combined_term : Parser Term) : Parser Term :=
  (lparenP >> combined_term << rparenP) <|> leafTermP.

(** [combined_term] and [simpleTermP] refer to each other through the
    parenthesis, so the nesting is bounded by the text; the stack of the
    interpreter is left out here as well. *)
Fixpoint combined_term_upto (depth : nat) : Parser Term :=
  match depth with
  | 0 => fun _ => Hang
  | S d => combined_term_of (simpleTermP_of (combined_term_upto d))
  end.

Definition combined_term : Parser Term := fun s => combined_term_upto (S (slen s)) s.
Definition simpleTermP : Parser Term := simpleTermP_of combined_term.

(** This can parse a complete term *)
Definition term_parser : Parser Term := combined_term <|> simpleTermP.

(* ------------------------------------------------------------------ *)
(** ** Navigation, parts and the query *)

Section Grammar.

(** [Navigation.Max], [EdgeType.default] and [EdgeType.allowed_edge_types]
    come from modules that are not among the sources, and so does the text
    Python prints for the allowed edge types. *)
Variable Navigation_Max : N.
Variable EdgeType_default : str.
Variable EdgeType_allowed_edge_types : list str.
Variable allowed_edge_types_text : str.

Definition range_parser : Parser (N * N) :=
  yield_ lbrackP ;;
  start <- integerP ;;
  has_end <- optional (colonP <|> commaP <|> dotdotP) ;;
  maybe_end <- optional integerP ;;
  yield_ rbrackP ;;
  let end_ := match has_end with
              | None => start
              | Some _ => match maybe_end with
                          | Some e => e
                          | None => Navigation_Max
                          end
              end in
  success (start, end_).

Definition edge_definition : Parser (N * N * option str) :=
  maybe_edge_type <- optional literalP ;;
  maybe_range <- optional range_parser ;;
  let parsed_range := match maybe_range with
                      | Some r => r
                      | None => (1%N, 1%N)
                      end in
  success (fst parsed_range, snd parsed_range, maybe_edge_type).

Definition to_navigation (dir : string) (nav : N * N * option str) : Navigation :=
  let '(s, u, e) := nav in mkNavigation s u e (codes dir).

Definition outP : Parser Navigation :=
  pmap (to_navigation "out") (lexeme (pstring "-" >> edge_definition << pstring "->")).
Definition inP : Parser Navigation :=
  pmap (to_navigation "in") (lexeme (pstring "<-" >> edge_definition << pstring "-")).
Definition inOutP : Parser Navigation :=
  pmap (to_navigation "inout") (lexeme (pstring "-" >> edge_definition << pstring "-")).

Definition navigation_parser : Parser Navigation := outP <|> inP <|> inOutP.

Definition pin_parser : Parser bool :=
  pmap (fun x : option str => match x with Some _ => true | None => false end)
       (optional (lexeme (pstring "+"))).

Definition part_parser : Parser Part :=
  term <- term_parser ;;
  yield_ whitespace ;;
  nav <- (pmap Some navigation_parser <|> success None) ;;
  pinned <- pin_parser ;;
  success (Part_ term pinned nav).

Definition preamble_value_parser : Parser (str * str) :=
  key <- preamblePropP ;;
  yield_ equalsP ;;
  value <- (quotedStringP <|> literalP) ;;
  success (key, value).

(** [.map(dict)]: the list of pairs, where a later entry for a key
    replaces an earlier one. *)
Definition preambleP : Parser (list (str * str)) :=
  sep_by preamble_value_parser commaP << colonP.

(** [d.get(key, default)] on the dictionary made from the pairs. *)
Fixpoint dict_get (d : list (str * str)) (key : str) (default : str) : str :=
  match d with
  | [] => default
  | (k, v) :: d' => if str_eqb k key then dict_get d' key v else dict_get d' key default
  end.

Definition edge_type_message (edge_type : str) : str :=
  codes "Given edge_type " ++ edge_type ++ codes " is not available. Use one of "
    ++ allowed_edge_types_text.

(** [if part.navigation and not part.navigation.edge_type:
       part.navigation.edge_type = edge_type] *)
Definition fill_edge_type (edge_type : str) (part : Part) : Part :=
  match part with
  | mkPart t pin (Some (mkNavigation s u (None | Some []) d)) lim =>
      mkPart t pin (Some (mkNavigation s u (Some edge_type) d)) lim
  | _ => part
  end.

Definition query_parser : Parser Query :=
  maybe_preamble <- optional preambleP ;;
  let preamble := match maybe_preamble with Some d => d | None => [] end in
  parts <- many part_parser ;;
  let edge_type := dict_get preamble (codes "edge_type") EdgeType_default in
  if negb (existsb (str_eqb edge_type) EdgeType_allowed_edge_types)
  then (fun _ => Raise (AttributeError (edge_type_message edge_type)))
  else success (Query_ (rev (map (fill_edge_type edge_type) parts))).

(** What a call returns or raises. *)
Inductive Outcome (A : Type) : Type :=
| Returns (v : A)
| ParseError
| Raises (e : PyExn)
| NoReturn.

(** [query_parser.parse(query)]: the whole text has to be read. *)
Definition parse {A} (p : Parser A) (text : string) : Outcome A :=
  match (p << eof) text with
  | Success v _ => Returns v
  | Failure => ParseError A
  | Raise e => Raises A e
  | Hang => NoReturn A
  end.

Definition parse_query (query : string) : Outcome Query := parse query_parser query.

(** The edge type the preamble settles on. *)
Definition resolved_edge_type (maybe_preamble : option (list (str * str))) : str :=
  dict_get (match maybe_preamble with Some d => d | None => [] end)
           (codes "edge_type") EdgeType_default.

Definition allowed (edge_type : str) : bool :=
  existsb (str_eqb edge_type) EdgeType_allowed_edge_types.

End Grammar.

Arguments ParseError {A}.
Arguments NoReturn {A}.
Arguments Raises {A} e.

(** The loop of [combined_term] from where it stands. *)
Definition combined_rest (result : Term) : Parser Term :=
  fun s => combined_loop simpleTermP (S (slen s)) result s.

(* ------------------------------------------------------------------ *)
(** ** Reading a chain of simple terms *)

(** [chain s ops rest]: from [s] the text goes on with the operators and
    simple terms [ops], in this order, and no operator follows at [rest]. *)
Inductive chain : string -> list (str * Term) -> string -> Prop :=
| chain_end s :
    boolOpP s = Failure -> chain s [] s
| chain_step s op r t r' ops rest :
    boolOpP s = Success op r ->
    simpleTermP r = Success t r' ->
    chain r' ops rest ->
    chain s ((op, t) :: ops) rest.

Definition join (acc : Term) (x : str * Term) : Term := CombinedTerm acc (fst x) (snd x).

Definition is_combined (t : Term) : bool :=
  match t with CombinedTerm _ _ _ => true | _ => false end.

Definition pred_ (name op : string) (n : N) : Term := Predicate name op (VInt n) [].

(* ------------------------------------------------------------------ *)
(** ** Reading the parts of a query *)

(** [reads p s vs r]: [p], applied again and again from [s], yields [vs] in
    this order and fails at [r]. *)
Inductive reads {A} (p : Parser A) : string -> list A -> string -> Prop :=
| reads_end s :
    p s = Failure -> reads p s [] s
| reads_next s v r vs r' :
    p s = Success v r -> reads p r vs r' -> reads p s (v :: vs) r'.

(** A configuration to run the parser and the model on: the edge types and
    the resolved ancestor property that the texts of [model_test.py] show,
    and some bound for [Navigation.Max]. *)
Module Sample.
Definition Navigation_Max : N := 250.
Definition EdgeType_default : str := codes "default".
Definition EdgeType_allowed_edge_types : list str := [codes "default"; codes "delete"].
Definition allowed_edge_types_text : str := codes "{'default', 'delete'}".
Definition is_resolved (path : str) : bool :=
  existsb (str_eqb path) [codes "ancestors.cloud.reported.name"].
Definition parse_query : string -> Outcome Query :=
  parse_query Navigation_Max EdgeType_default EdgeType_allowed_edge_types
              allowed_edge_types_text.
End Sample.

Definition two_part_query : string :=
  "cpu > 4 and (mem < 23 or mem < 59) --> some.int.value < 1".

(* ------------------------------------------------------------------ *)
(** ** The term algebra

    [core/query/model.py] is not among the sources: what follows is
    modelled from the specification, and from [model_test.py] where the
    tests settle what the specification leaves open. *)

Definition is_all (t : Term) : bool :=
  match t with AllTerm => true | _ => false end.

Definition op_and : str := codes "and".
Definition op_or : str := codes "or".

(** Modelled from the spec: the laws that [combine] of the missing model
    applies, on terms that are already simplified: [AllTerm] is the
    identity of [and] and absorbs under [or], and any other combination is
    constructed as it is. *)
Definition laws (left : Term) (op : str) (right : Term) : Term :=
  if str_eqb op op_and then
    if is_all left then right
    else if is_all right then left
    else CombinedTerm left op right
  else if str_eqb op op_or then
    if is_all left || is_all right then AllTerm
    else CombinedTerm left op right
  else CombinedTerm left op right.

(** Modelled from the spec: [simplify] of the missing model. Children are
    normalised first, at every depth of the tree of terms, the filters of a
    merge term and the terms of its sub-queries included. *)
Fixpoint simplify (t : Term) : Term :=
  match t with
  | CombinedTerm l op r => laws (simplify l) op (simplify r)
  | MergeTerm pre ms post =>
      MergeTerm (simplify pre) (map simplify_merge ms) (simplify post)
  | _ => t
  end
with simplify_merge (m : MergeQuery) : MergeQuery :=
  match m with
  | mkMergeQuery n q => mkMergeQuery n (simplify_query q)
  end
with simplify_query (q : Query) : Query :=
  match q with
  | mkQuery ps a => mkQuery (map simplify_part ps) a
  end
with simplify_part (p : Part) : Part :=
  match p with
  | mkPart t pin nav lim => mkPart (simplify t) pin nav lim
  end.

(** Modelled from the spec: [combine(left, op, right)] of the missing model,
    which normalises the children and applies the laws before it constructs
    a [CombinedTerm]. *)
Definition combine (left : Term) (op : str) (right : Term) : Term :=
  laws (simplify left) op (simplify right).

(** Modelled from the spec: the operators [&] and [|] of the missing model,
    as [model_test.py] uses them. *)
Definition and_term (left right : Term) : Term := combine left op_and right.
Definition or_term (left right : Term) : Term := combine left op_or right.

(** *** Induction over terms, through the sub-queries of merge terms *)

Section TermInduction.

Variable P : Term -> Prop.
Variable PM : MergeQuery -> Prop.
Variable PQ : Query -> Prop.
Variable PP : Part -> Prop.

Hypothesis HAll : P AllTerm.
Hypothesis HPredicate : forall n op v args, P (Predicate n op v args).
Hypothesis HFunction : forall fn p args, P (FunctionTerm fn p args).
Hypothesis HIs : forall kinds, P (IsTerm kinds).
Hypothesis HId : forall id, P (IdTerm id).
Hypothesis HCombined : forall l op r, P l -> P r -> P (CombinedTerm l op r).
Hypothesis HMerge :
  forall pre ms post, P pre -> Forall PM ms -> P post -> P (MergeTerm pre ms post).
Hypothesis HMergeQuery : forall n q, PQ q -> PM (mkMergeQuery n q).
Hypothesis HQuery : forall ps a, Forall PP ps -> PQ (mkQuery ps a).
Hypothesis HPart : forall t pin nav lim, P t -> PP (mkPart t pin nav lim).

Fixpoint term_induction (t : Term) : P t :=
  match t with
  | AllTerm => HAll
  | Predicate n op v args => HPredicate n op v args
  | FunctionTerm fn p args => HFunction fn p args
  | IsTerm kinds => HIs kinds
  | IdTerm id => HId id
  | CombinedTerm l op r => HCombined op (term_induction l) (term_induction r)
  | MergeTerm pre ms post =>
      HMerge (term_induction pre)
             ((fix all (ms : list MergeQuery) : Forall PM ms :=
                 match ms with
                 | [] => Forall_nil PM
                 | m :: ms' => Forall_cons m (merge_induction m) (all ms')
                 end) ms)
             (term_induction post)
  end
with merge_induction (m : MergeQuery) : PM m :=
  match m with
  | mkMergeQuery n q => HMergeQuery n (query_induction q)
  end
with query_induction (q : Query) : PQ q :=
  match q with
  | mkQuery ps a =>
      HQuery a ((fix all (ps : list Part) : Forall PP ps :=
                   match ps with
                   | [] => Forall_nil PP
                   | p :: ps' => Forall_cons p (part_induction p) (all ps')
                   end) ps)
  end
with part_induction (p : Part) : PP p :=
  match p with
  | mkPart t pin nav lim => HPart pin nav lim (term_induction t)
  end.

End TermInduction.

(** A place in a tree of terms: under a boolean operator on either side, or
    in a filter of a merge term, at any depth. *)
Inductive Place : Type :=
| Here
| LeftOf (c : Place) (op : str) (right : Term)
| RightOf (left : Term) (op : str) (c : Place)
| PreFilterOf (c : Place) (merge : list MergeQuery) (post_filter : Term)
| PostFilterOf (pre_filter : Term) (merge : list MergeQuery) (c : Place).

Fixpoint put (c : Place) (t : Term) : Term :=
  match c with
  | Here => t
  | LeftOf c' op r => CombinedTerm (put c' t) op r
  | RightOf l op c' => CombinedTerm l op (put c' t)
  | PreFilterOf c' ms post => MergeTerm (put c' t) ms post
  | PostFilterOf pre ms c' => MergeTerm pre ms (put c' t)
  end.

(** The kind test of [ec2], as the grammar writes it. *)
Definition kind_test_text : string := "isinstance(" ++ dquote ++ "ec2" ++ dquote ++ ")".

(* ------------------------------------------------------------------ *)
(** ** Sections and property paths *)

Fixpoint starts_with (prefix s : str) : bool :=
  match prefix, s with
  | [], _ => true
  | a :: prefix', b :: s' => N.eqb a b && starts_with prefix' s'
  | _ :: _, [] => false
  end.

(** The root section, which is also the marker that anchors a path at the
    root. *)
Definition PathRoot : str := codes "/".
Definition dot : str := codes ".".

Definition meta_rooted (path : str) : bool := starts_with PathRoot path.

(** Modelled from the spec: the path rewriting of the missing model. A path
    that is not meta-rooted gets the section and a dot in front; a
    meta-rooted path loses its marker. *)
Definition variable_to_absolute (section path : str) : str :=
  if meta_rooted path then skipn 1 path else section ++ dot ++ path.

(** Modelled from the spec: the inverse direction. A path that starts with
    the section and a dot loses them; any other path gets the marker. *)
Definition variable_to_relative (section path : str) : str :=
  if starts_with (section ++ dot) path then skipn (length (section ++ dot)) path
  else PathRoot ++ path.

Definition map_aggregate (f : str -> str) (a : Aggregate) : Aggregate :=
  mkAggregate (map f a.(group_by))
              (map (fun x => (fst x, match snd x with
                                     | inl path => inl (f path)
                                     | inr n => inr n
                                     end)) a.(group_func)).

(** Modelled from the spec: the change of every property path of every
    term of the missing model, the terms of sub-queries included. *)
Fixpoint map_term (f : str -> str) (t : Term) : Term :=
  match t with
  | Predicate n op v args => Predicate (f n) op v args
  | FunctionTerm fn p args => FunctionTerm fn (f p) args
  | CombinedTerm l op r => CombinedTerm (map_term f l) op (map_term f r)
  | MergeTerm pre ms post =>
      MergeTerm (map_term f pre) (map (map_merge f) ms) (map_term f post)
  | _ => t
  end
with map_merge (f : str -> str) (m : MergeQuery) : MergeQuery :=
  match m with
  | mkMergeQuery n q => mkMergeQuery n (map_query f q)
  end
with map_query (f : str -> str) (q : Query) : Query :=
  match q with
  | mkQuery ps a => mkQuery (map (map_part f) ps) (option_map (map_aggregate f) a)
  end
with map_part (f : str -> str) (p : Part) : Part :=
  match p with
  | mkPart t pin nav lim => mkPart (map_term f t) pin nav lim
  end.

Definition aggregate_paths (a : option Aggregate) : list str :=
  match a with
  | Some a =>
      a.(group_by)
        ++ flat_map (fun x => match snd x with inl path => [path] | inr _ => [] end)
                    a.(group_func)
  | None => []
  end.

Fixpoint all_paths (t : Term) : list str :=
  match t with
  | Predicate n _ _ _ => [n]
  | FunctionTerm _ p _ => [p]
  | CombinedTerm l _ r => all_paths l ++ all_paths r
  | MergeTerm pre ms post =>
      all_paths pre ++ flat_map all_paths_merge ms ++ all_paths post
  | _ => []
  end
with all_paths_merge (m : MergeQuery) : list str :=
  match m with
  | mkMergeQuery _ q => all_paths_query q
  end
with all_paths_query (q : Query) : list str :=
  match q with
  | mkQuery ps a => flat_map all_paths_part ps ++ aggregate_paths a
  end
with all_paths_part (p : Part) : list str :=
  match p with
  | mkPart t _ _ _ => all_paths t
  end.

(** Modelled from the spec: the property paths of a term of the missing
    model, those that a filter term tests on the entity itself: the
    fold over the property paths of the term. *)
Fixpoint term_paths (t : Term) : list str :=
  match t with
  | Predicate n _ _ _ => [n]
  | FunctionTerm _ p _ => [p]
  | CombinedTerm l _ r => term_paths l ++ term_paths r
  | MergeTerm pre _ post => term_paths pre ++ term_paths post
  | _ => []
  end.

(* ------------------------------------------------------------------ *)
(** ** The ancestor and descendant merge rewrite *)

Inductive Conflict : Type :=
| TwoAggregations
| TwoMergeClauses.

(** Modelled from the spec: the errors of the missing model that the
    rewrite and the combination of queries raise. *)
Inductive QueryError : Type :=
| InvalidMergePath (path : str)
| IncompatibleQuery (what : Conflict).

Fixpoint split_on (sep : N) (s : str) : list str :=
  match s with
  | [] => [[]]
  | c :: s' =>
      if N.eqb c sep then [] :: split_on sep s'
      else match split_on sep s' with
           | seg :: segs => (c :: seg) :: segs
           | [] => [[c]]
           end
  end.

Definition ancestors : str := codes "ancestors".
Definition descendants : str := codes "descendants".

Definition is_ancestor_descendant (path : str) : bool :=
  starts_with (ancestors ++ dot) path || starts_with (descendants ++ dot) path.

(** The namespace, the kind and the name of the merge a path asks for, when
    the path has the namespace, the kind and a property after them. *)
Definition merge_target (path : str) : option (str * str * str) :=
  match split_on 46 path with
  | ns :: kind :: _ :: _ =>
      if str_eqb ns ancestors || str_eqb ns descendants
      then Some (ns, kind, ns ++ dot ++ kind)
      else None
  | _ => None
  end.

Definition names (ms : list MergeQuery) : list str := map name ms.

Definition has_name (n : str) (ms : list MergeQuery) : bool :=
  existsb (str_eqb n) (names ms).

Definition find_merge (n : str) (ms : list MergeQuery) : option MergeQuery :=
  find (fun m => str_eqb n (name m)) ms.

Definition references_merge (t : Term) : bool :=
  existsb is_ancestor_descendant (term_paths t).

Definition is_or_term (t : Term) : bool :=
  match t with CombinedTerm _ op _ => str_eqb op op_or | _ => false end.

(** Modelled from the spec: the conjuncts of a term, which the missing
    model splits a filter by: what the [and]s at its top join. [AllTerm] is
    the conjunction of nothing. *)
Fixpoint conjuncts (t : Term) : list Term :=
  match t with
  | AllTerm => []
  | CombinedTerm l op r =>
      if str_eqb op op_and then conjuncts l ++ conjuncts r else [t]
  | _ => [t]
  end.

(** Modelled from the spec: how the missing model lifts the conjuncts of a
    filter. A term that is no [and] goes before the merge when it
    references no ancestor or descendant path and after it otherwise; the
    two sides of an [and] are split one by one and what goes before, and
    what goes after, is joined by [and] again, [AllTerm] being its
    identity. *)
Fixpoint split_conjuncts (t : Term) : Term * Term :=
  match t with
  | AllTerm => (AllTerm, AllTerm)
  | CombinedTerm l op r =>
      if str_eqb op op_and then
        let (l_before, l_after) := split_conjuncts l in
        let (r_before, r_after) := split_conjuncts r in
        (laws l_before op_and r_before, laws l_after op_and r_after)
      else if references_merge t then (AllTerm, t) else (t, AllTerm)
  | _ => if references_merge t then (AllTerm, t) else (t, AllTerm)
  end.

(** Modelled from the spec: the split of a filter term into the filter
    before and the filter after the merge. Under a top-level [or] nothing
    is lifted; otherwise the conjuncts with no ancestor or descendant path
    are lifted and the others stay behind. *)
Definition split_filter (t : Term) : Term * Term :=
  if is_or_term t then (AllTerm, t) else split_conjuncts t.

Section MergeRewrite.

(** [is_resolved] stands for the table of the ancestor properties that
    every node holds resolved, such as [ancestors.cloud.reported.name] in
    [test_rewrite_ancestors_descendants]; the table is made by a module that
    is not among the sources. *)
Variable Navigation_Max : N.
Variable EdgeType_default : str.
Variable is_resolved : str -> bool.

(** Modelled from the spec: the merge query made for a kind. The two
    parts are the ones of [test_merge_query_creation]: every ancestor (or
    descendant) at any depth, then the test on the kind. *)
Definition merge_query_for_kind (ns kind : str) : MergeQuery :=
  let dir := if str_eqb ns ancestors then codes "in" else codes "out" in
  mkMergeQuery (ns ++ dot ++ kind)
    (Query_ [Part_ (IsTerm [kind]) false None;
             Part_ AllTerm false
                   (Some (mkNavigation 1 Navigation_Max (Some EdgeType_default) dir))]).

(** Modelled from the spec: [merge_queries_for] of the missing model. One
    merge query per name, in the order in which the names are first met;
    a merge query that the part already has under a name is taken as it
    is. *)
Fixpoint merge_queries_from (existing acc : list MergeQuery) (paths : list str)
  : QueryError + list MergeQuery :=
  match paths with
  | [] => inr acc
  | path :: paths' =>
      match merge_target path with
      | None => inl (InvalidMergePath path)
      | Some (ns, kind, n) =>
          if has_name n acc then merge_queries_from existing acc paths'
          else
            let m := match find_merge n existing with
                     | Some m => m
                     | None => merge_query_for_kind ns kind
                     end in
            merge_queries_from existing (acc ++ [m]) paths'
      end
  end.

Definition existing_merges (t : Term) : list MergeQuery :=
  match t with MergeTerm _ ms _ => ms | _ => [] end.

Definition merge_queries_for (part : Part) (paths : list str)
  : QueryError + list MergeQuery :=
  merge_queries_from (existing_merges (term part)) [] paths.

(** The filter of a part: the term, or both filters of its merge term. *)
Definition filter_term (t : Term) : Term :=
  match t with
  | MergeTerm pre _ post => laws pre op_and post
  | _ => t
  end.

Definition merge_paths (part : Part) (additional : list str) : list str :=
  filter (fun path => is_ancestor_descendant path && negb (is_resolved path))
         (term_paths (filter_term (term part)) ++ additional).

(** Modelled from the spec: [rewrite_for_ancestors_descendants] on the
    current part. The merge queries that the paths ask for come first, in
    the order of the paths, and the merge queries the part had under other
    names follow, as [model_test.py] shows; with no ancestor or
    descendant path that is left to resolve the part is left as it is. *)
Definition rewrite_part (additional : list str) (part : Part) : QueryError + Part :=
  match merge_paths part additional with
  | [] => inr part
  | paths =>
      match merge_queries_for part paths with
      | inl e => inl e
      | inr created =>
          let kept := filter (fun m => negb (has_name (name m) created))
                             (existing_merges (term part)) in
          let (pre, post) := split_filter (filter_term (term part)) in
          inr (mkPart (MergeTerm pre (created ++ kept) post)
                      (pinned part) (navigation part) (limit part))
      end
  end.

Definition rewrite_for_ancestors_descendants (additional : list str) (q : Query)
  : QueryError + Query :=
  match parts q with
  | [] => inr q
  | current :: earlier =>
      match rewrite_part (additional ++ aggregate_paths (aggregate q)) current with
      | inl e => inl e
      | inr current' => inr (mkQuery (current' :: earlier) (aggregate q))
      end
  end.

(** A meta-rooted path without its marker; any other path as it is. *)
Definition strip_marker (path : str) : str :=
  if meta_rooted path then skipn 1 path else path.

(** Modelled from the spec: the rewriting of a path by [on_section] and by
    [relative_to_section] of the missing model. The root section is no
    name to put in front of a path or to take from it: towards the root a
    meta-rooted path loses its marker, as in every section, and any other
    path stays as it is; back from the root every path stays as it is. *)
Definition absolute_path (section : str) : str -> str :=
  if str_eqb section PathRoot then strip_marker else variable_to_absolute section.

Definition relative_path (section : str) : str -> str :=
  if str_eqb section PathRoot then (fun path => path) else variable_to_relative section.

(** Modelled from the spec: [on_section] of the missing model: every path
    is rewritten and the ancestor and descendant rewrite is applied to what
    comes of it. On a query with no meta-rooted path and no ancestor or
    descendant path to merge the root section changes nothing, which is
    what the specification and [test_on_section] say of it. *)
Definition on_section (section : str) (q : Query) : QueryError + Query :=
  rewrite_for_ancestors_descendants [] (map_query (absolute_path section) q).

(** Modelled from the spec: [relative_to_section] of the missing model. *)
Definition relative_to_section (section : str) (q : Query) : Query :=
  map_query (relative_path section) q.

(** Modelled from the spec: [on_section()] called with no section, as in
    the scenarios of the specification and in
    [test_rewrite_ancestors_descendants]: no path gets a section in front,
    a meta-rooted path loses its marker, and the ancestor and descendant
    rewrite is applied. It is [on_section] with the root section. *)
Definition on_section_default (q : Query) : QueryError + Query :=
  rewrite_for_ancestors_descendants [] (map_query strip_marker q).

(** Modelled from the spec: [Query.by(term)] and
    [merge_with(name, navigation, term)] of the missing model, as
    [test_merge_query_creation] uses them. *)
Definition by_ (t : Term) : Query := Query_ [Part_ t false None].

Definition merge_with (n : str) (nav : Navigation) (t : Term) (q : Query) : Query :=
  let m := mkMergeQuery n (Query_ [Part_ t false None; Part_ AllTerm false (Some nav)]) in
  match q with
  | mkQuery (mkPart (MergeTerm pre ms post) pin nav' lim :: earlier) a =>
      mkQuery (mkPart (MergeTerm pre (ms ++ [m]) post) pin nav' lim :: earlier) a
  | mkQuery (mkPart t0 pin nav' lim :: earlier) a =>
      mkQuery (mkPart (MergeTerm t0 [m] AllTerm) pin nav' lim :: earlier) a
  | _ => q
  end.

Definition NavigateUntilRoot : Navigation :=
  mkNavigation 1 Navigation_Max (Some EdgeType_default) (codes "in").

End MergeRewrite.

(** A merge query of [ms] is the one that [existing] has under its name,
    if it has one. *)
Definition reuses (existing ms : list MergeQuery) : Prop :=
  forall x, In x ms -> forall m, In m existing -> name m = name x -> m = x.

Section MergeScenario.

Variable Navigation_Max : N.
Variable EdgeType_default : str.

Definition sample_paths : list str :=
  [codes "ancestors.kind.reported.prop"; codes "test"; codes "a"].

Definition cloud_merge : MergeQuery :=
  mkMergeQuery (codes "ancestors.cloud")
    (Query_ [Part_ (IsTerm [codes "cloud"]) false None;
             Part_ AllTerm false
                   (Some (NavigateUntilRoot Navigation_Max EdgeType_default))]).

(** [Query.by(test).merge_with(ancestors.cloud, NavigateUntilRoot, IsTerm([cloud]))] *)
Definition query_with_cloud : Query :=
  merge_with (codes "ancestors.cloud")
             (NavigateUntilRoot Navigation_Max EdgeType_default)
             (IsTerm [codes "cloud"]) (by_ (IsTerm [codes "test"])).

End MergeScenario.

(** A path comes back from [f] through [g]. *)
Definition comes_back (f g : str -> str) (path : str) : Prop := g (f path) = path.

(** [on_section] leaves the current part as the rewriting of the paths
    made it: no ancestor or descendant path stands in it or in the
    aggregation. *)
Definition no_merge_rewrite (is_resolved : str -> bool) (section : str) (q : Query)
  : Prop :=
  let q1 := map_query (absolute_path section) q in
  match parts q1 with
  | [] => True
  | current :: _ => merge_paths is_resolved current (aggregate_paths (aggregate q1)) = []
  end.

(* ------------------------------------------------------------------ *)
(** ** Combining queries *)

(** Modelled from the spec: a part carries an explicit merge clause when
    its term is a merge term. *)
Definition carries_merge (p : Part) : bool :=
  match term p with MergeTerm _ _ _ => true | _ => false end.

(** Modelled from the spec: the limit of two parts joined into one, the
    minimum when both have one. *)
Definition min_limit (a b : option N) : option N :=
  match a, b with
  | Some x, Some y => Some (N.min x y)
  | Some x, None => Some x
  | None, _ => b
  end.

(** Modelled from the spec: the two parts that [combine] of the missing
    model joins into one: the current part of [a], unless it navigates on,
    and the part of [b] that its text starts with, which is the current
    part of a [b] of one part. *)
Definition combined_parts (a b : Query) : option (Part * Part) :=
  match parts a, rev (parts b) with
  | left_last :: _, right_first :: _ =>
      match navigation left_last with
      | None => Some (left_last, right_first)
      | Some _ => None
      end
  | _, _ => None
  end.

Definition is_some {A} (o : option A) : bool :=
  match o with Some _ => true | None => false end.

(** Modelled from the spec: [Query.combine] of the missing model. Two
    aggregations, or two merge terms on the parts that are joined, make the
    combination fail; otherwise the terms of the two parts are joined by
    [and], the smaller limit is kept, and the earlier parts of [a] stay in
    place. Where the current part of [a] navigates on, [test_combine] shows
    the parts of [b] appended instead. *)
Definition Query_combine (a b : Query) : QueryError + Query :=
  if is_some (aggregate a) && is_some (aggregate b)
  then inl (IncompatibleQuery TwoAggregations)
  else
    let agg := match aggregate a with Some x => Some x | None => aggregate b end in
    match combined_parts a b with
    | Some (left_last, right_first) =>
        if carries_merge left_last && carries_merge right_first
        then inl (IncompatibleQuery TwoMergeClauses)
        else
          let joined := mkPart (and_term (term left_last) (term right_first))
                               (pinned left_last || pinned right_first)
                               (navigation right_first)
                               (min_limit (limit left_last) (limit right_first)) in
          inr (mkQuery (removelast (parts b) ++ joined :: tl (parts a)) agg)
    | None => inr (mkQuery (parts b ++ parts a) agg)
    end.

(** Modelled from the spec: [with_limit], [traverse_out] and
    [current_part] of the missing model, as [test_combine] uses them. *)
Definition with_limit (n : N) (q : Query) : Query :=
  match q with
  | mkQuery (mkPart t pin nav _ :: earlier) a => mkQuery (mkPart t pin nav (Some n) :: earlier) a
  | _ => q
  end.

Definition traverse_out (edge_type : str) (q : Query) : Query :=
  match q with
  | mkQuery (mkPart t pin _ lim :: earlier) a =>
      mkQuery (mkPart t pin (Some (mkNavigation 1 1 (Some edge_type) (codes "out"))) lim
                 :: earlier) a
  | _ => q
  end.

Definition current_part (q : Query) : option Part := hd_error (parts q).

(* ------------------------------------------------------------------ *)
(** ** The scenarios of [model_test.py] *)

Module Scenario.

Definition rewrite_ :=
  rewrite_for_ancestors_descendants Sample.Navigation_Max Sample.EdgeType_default
                                    Sample.is_resolved.
Definition on_section_ :=
  on_section Sample.Navigation_Max Sample.EdgeType_default Sample.is_resolved.
Definition merge_for := merge_query_for_kind Sample.Navigation_Max Sample.EdgeType_default.

Definition lt (path : string) (n : N) : Term := pred_ path "<" n.
Definition gt (path : string) (n : N) : Term := pred_ path ">" n.

(** [ancestors.d.c<1 and (a<1 or b>1) and /ancestors.a.b>1], with the
    paths as [on_section] leaves them. *)
Definition special : Term :=
  CombinedTerm
    (CombinedTerm (lt "ancestors.d.c" 1) op_and
                  (CombinedTerm (lt "a" 1) op_or (gt "b" 1)))
    op_and (gt "ancestors.a.b" 1).

(** [(a<1 and b>1) or ancestors.d.c<1] *)
Definition horrible : Term :=
  CombinedTerm (CombinedTerm (lt "a" 1) op_and (gt "b" 1)) op_or (lt "ancestors.d.c" 1).

End Scenario.

Definition cpu_and_metadata : Query :=
  by_ (CombinedTerm (pred_ "cpu" ">" 4) op_and (pred_ "/metadata.b" "==" 23)).

(* ------------------------------------------------------------------ *)
(** ** Progress of parsers

    A result [shrinks] the text when it is not [Hang] and, on success, leaves
    no more than it was given; it [consumes] when it leaves less. A parser
    is [tame] (resp. [eager]) below [n] when it shrinks (resp. consumes)
    every text shorter than [n]. *)

Definition shrinks {A} (s : string) (r : Result A) : Prop :=
  match r with
  | Success _ r' => slen r' <= slen s
  | Hang => False
  | _ => True
  end.

Definition consumes {A} (s : string) (r : Result A) : Prop :=
  match r with
  | Success _ r' => slen r' < slen s
  | Hang => False
  | _ => True
  end.

Definition tame (n : nat) {A} (p : Parser A) : Prop :=
  forall s, slen s < n -> shrinks s (p s).

Definition eager (n : nat) {A} (p : Parser A) : Prop :=
  forall s, slen s < n -> consumes s (p s).

Definition same (n : nat) {A} (p q : Parser A) : Prop :=
  forall s, slen s < n -> p s = q s.

(* ------------------------------------------------------------------ *)
(** ** content_renderer.py: a result stream, rendered

    An asynchronous generator is taken as the list of what it yields when
    it is run to its end, and the way it ends: exhausted, or with an
    exception. The functions that make the text of an item ([json.dumps]
    after [to_json], [yaml.dump], [str]) come from libraries and are taken
    as they are. *)

Inductive Ending : Type :=
| Exhausted
| QueryTookToLongError
| OtherError.

Record Generator (A : Type) : Type := mkGenerator {
  yielded : list A;
  ending : Ending
}.

Definition newline : string := String "010"%char EmptyString.

(** What the client receives: the chunks, one after the other. *)
Definition body (chunks : list string) : string :=
  fold_right append EmptyString chunks.

Section Renderers.

Variable Json : Type.

(** [json.dumps(to_json(item))], with and without [check_circular], and
    [yaml.dump(to_json(item), default_flow_style=False, sort_keys=False)]. *)
Variable json_dumps : Json -> string.
Variable json_dumps_unchecked : Json -> string.
Variable yaml_dump : Json -> string.

(** The loop of [respond_json], with its flag [first]. *)
Fixpoint respond_json_items (first : bool) (gen : list Json) : list string :=
  match gen with
  | [] => []
  | item :: gen' =>
      let js := json_dumps item in
      (if negb first then [("," ++ newline)%string] else [])
        ++ [js] ++ respond_json_items false gen'
  end.

(** The closing bracket is yielded behind the loop: not when the stream
    raises. *)
Definition respond_json (gen : Generator Json) : Generator string :=
  mkGenerator
    ([("[" ++ newline)%string]
       ++ respond_json_items true (yielded gen)
       ++ match ending gen with
          | Exhausted => [(newline ++ "]")%string]
          | _ => []
          end)
    (ending gen).

Definition respond_ndjson (gen : Generator Json) : Generator string :=
  mkGenerator (map (fun item => (json_dumps_unchecked item ++ newline)%string) (yielded gen))
              (ending gen).

(** The loop of [respond_yaml], with its flag. *)
Fixpoint respond_yaml_items (flag : bool) (gen : list Json) : list string :=
  match gen with
  | [] => []
  | item :: gen' =>
      let yml := yaml_dump item in
      (if flag then [("---" ++ newline)%string] else [])
        ++ [yml] ++ respond_yaml_items true gen'
  end.

Definition respond_yaml (gen : Generator Json) : Generator string :=
  mkGenerator (respond_yaml_items false (yielded gen)) (ending gen).

(** [isinstance(to_json(item), (dict, list))], the text
    [yaml.dump(to_result(js), ...)] of such an item and [str(js)] of any
    other. *)
Variable is_dict_or_list : Json -> bool.
Variable yaml_dump_result : Json -> string.
Variable py_str_of : Json -> string.

Definition query_took_too_long : string :=
  (newline ++ newline
     ++ "---------------------------------------------------" ++ newline
     ++ "Query took too long." ++ newline
     ++ "Try one of the following:" ++ newline
     ++ "- refine your query" ++ newline
     ++ "- add a limit to your query" ++ newline
     ++ "- define a longer timeout via env var query_timeout" ++ newline
     ++ "  e.g. $> query_timeout=60s query all" ++ newline
     ++ "---------------------------------------------------" ++ newline
     ++ newline)%string.

(** The loop of [respond_text], with its flag. *)
Fixpoint respond_text_items (flag : bool) (gen : list Json) : list string :=
  match gen with
  | [] => []
  | item :: gen' =>
      (if is_dict_or_list item
       then (if flag then [("---" ++ newline)%string] else []) ++ [yaml_dump_result item]
       else (if flag then [newline] else []) ++ [py_str_of item])
        ++ respond_text_items true gen'
  end.

(** [try: ... except QueryTookToLongError: yield ...] *)
Definition respond_text (gen : Generator Json) : Generator string :=
  match ending gen with
  | QueryTookToLongError =>
      mkGenerator (respond_text_items false (yielded gen) ++ [query_took_too_long]) Exhausted
  | other => mkGenerator (respond_text_items false (yielded gen)) other
  end.

End Renderers.

(** The renderers that [result_string_gen] chooses from. *)
Inductive Renderer : Type :=
| Respond_ndjson
| Respond_json
| Respond_text
| Respond_yaml
| Respond_cytoscape
| Respond_graphml
| Respond_dot.

(** [accept in [...]] *)
Definition is_in (accept : string) (values : list string) : bool :=
  existsb (String.eqb accept) values.

(** [result_string_gen]: the content type and the renderer for the
    [accept] header of the request, if it has one. *)
Definition result_string_gen (accept_header : option string) : string * Renderer :=
  let accept := match accept_header with
                | Some value => value
                | None => "application/json"
                end in
  if is_in accept ["application/x-ndjson"; "application/ndjson"]
  then ("application/x-ndjson", Respond_ndjson)
  else if String.eqb accept "application/json"
  then ("application/json", Respond_json)
  else if is_in accept ["text/plain"]
  then ("text/plain", Respond_text)
  else if is_in accept ["application/yaml"; "text/yaml"]
  then ("text/yaml", Respond_yaml)
  else if String.eqb accept "application/vnd.cytoscape+json"
  then ("application/vnd.cytoscape+json", Respond_cytoscape)
  else if is_in accept ["application/graphml+xml"; "application/vnd.graphml+xml"]
  then ("application/graphml+xml", Respond_graphml)
  else if String.prefix "text/vnd.graphviz" accept
  then ("text/yaml", Respond_dot)
  else ("application/json", Respond_json).

(* ------------------------------------------------------------------ *)
(** ** What the parsers yield

    [yields P E p]: every value that [p] returns satisfies [P] and every
    exception that escapes from it satisfies [E]. *)

Definition yields {A} (P : A -> Prop) (E : PyExn -> Prop) (p : Parser A) : Prop :=
  forall s, match p s with
            | Success v _ => P v
            | Raise e => E e
            | _ => True
            end.

(** [raises_only E p]: every exception that escapes from [p] satisfies [E]. *)
Definition raises_only {A} (E : PyExn -> Prop) (p : Parser A) : Prop :=
  yields (fun _ => True) E p.

(** The operators, the function names and the directions that the grammar
    lists. *)
Definition operations : list string :=
  ["<="; ">="; ">"; "<"; "=="; "!="; "=~"; "!~"; "in"; "not in"].
Definition functions : list string := ["in_subnet"; "has_desired_change"].
Definition bool_operations : list string := ["and"; "or"].
Definition directions : list string := ["out"; "in"; "inout"].

Definition one_of (x : str) (l : list string) : bool :=
  existsb (fun a => str_eqb x (codes a)) l.

(** A code point in a character class of the text. *)
Definition in_class (f : ascii -> bool) (c : N) : bool :=
  (c <? 256)%N && f (ascii_of_N c).

(** A match of [regex("[f][g]*")]. *)
Definition one_star (f g : ascii -> bool) (s : str) : bool :=
  match s with
  | c :: r => in_class f c && forallb (in_class g) r
  | [] => false
  end.

Definition variable_char (c : ascii) : bool :=
  isalnum_ascii c || (code c =? 46) || (code c =? 42) || (code c =? 91) || (code c =? 93).

(** A match of [variableP] and of [literalP]. *)
Definition is_variable : str -> bool := one_star isalpha_ascii variable_char.
Definition is_literal : str -> bool := one_star isalpha_ascii isalnum_ascii.

(** The literals that [float] accepts among those [floatP] hands to it. *)
Definition is_float_literal (s : str) : bool :=
  forallb (fun c => is_decimal_code c || N.eqb c 46) s && existsb is_decimal_code s.

(** The values, terms, navigations and parts that the grammar can build. *)
Fixpoint parsed_value (v : Value) : bool :=
  match v with
  | VFloat literal => is_float_literal literal
  | VList elements => forallb parsed_value elements
  | _ => true
  end.

Fixpoint parsed_term (t : Term) : bool :=
  match t with
  | Predicate name op value args =>
      is_variable name && one_of op operations && parsed_value value
      && match args with [] => true | _ => false end
  | FunctionTerm fn property_path args =>
      one_of fn functions && is_variable property_path && forallb parsed_value args
  | IsTerm kinds => length kinds =? 1
  | IdTerm _ => true
  | CombinedTerm l op r =>
      parsed_term l && one_of op bool_operations && parsed_term r
  | AllTerm => false
  | MergeTerm _ _ _ => false
  end.

Definition parsed_navigation (nav : Navigation) : bool :=
  one_of (direction nav) directions
  && match edge_type nav with
     | Some e => is_literal e
     | None => true
     end.

Definition parsed_part (p : Part) : bool :=
  parsed_term (term p)
  && match navigation p with
     | Some nav => parsed_navigation nav
     | None => true
     end
  && match limit p with None => true | Some _ => false end.

(** The navigation of a part of a query that [query_parser] returns: of a
    direction of the grammar, and of the edge type written in it or of the
    one that the query settles on. *)
Definition filled_part (edge_type_of_query : str) (p : Part) : bool :=
  parsed_term (term p)
  && match navigation p with
     | Some nav =>
         one_of (direction nav) directions
         && match edge_type nav with
            | Some e => str_eqb e edge_type_of_query || is_literal e
            | None => false
            end
     | None => true
     end
  && match limit p with None => true | Some _ => false end.

(** The text that [int] or [float] rejected: digits and dots that are not
    all decimal digits. *)
Definition numeral_code (c : N) : bool := in_class isdigit c || N.eqb c 46.

Definition is_bad_numeral (e : PyExn) : bool :=
  match e with
  | ValueError literal => forallb numeral_code literal && negb (forallb is_decimal_code literal)
  | AttributeError _ => false
  end.

(** A text of whitespace only, and a parser that reads the same with and
    without such a text in front. *)
Fixpoint blank (ws : string) : bool :=
  match ws with
  | EmptyString => true
  | String c r => isspace c && blank r
  end.

Definition skips {A} (p : Parser A) : Prop :=
  forall ws s, blank ws = true -> p (ws ++ s)%string = p s.

(* ------------------------------------------------------------------ *)
(** ** Writing numbers and strings

    What Python prints for an integer that is not negative, and a quoted
    string of the query language for any text: the ways back for
    [integerP] and [quotedStringP]. *)

Fixpoint all_chars (f : ascii -> bool) (s : string) : bool :=
  match s with
  | EmptyString => true
  | String c r => f c && all_chars f r
  end.

Definition starts_with_char (f : ascii -> bool) (s : string) : bool :=
  match s with
  | String c _ => f c
  | EmptyString => false
  end.

(** The decimal digits of [n] in front of [acc]; an integer below
    [2 ^ fuel] has no more than [fuel] of them. *)
Fixpoint digits_from (fuel : nat) (n : N) (acc : string) : string :=
  match fuel with
  | 0 => acc
  | S fuel' =>
      let acc' := String (ascii_of_N (48 + n mod 10)) acc in
      if (n <? 10)%N then acc' else digits_from fuel' (n / 10) acc'
  end.

(** [str(n)] *)
Definition py_str (n : N) : string :=
  digits_from (S (N.to_nat (N.log2 n))) n EmptyString.

(** A hexadecimal digit, and a code point as it is written between the
    quotes: the quote and the backslash behind a backslash, any other
    character of the text as it is, a code point that the text cannot hold
    as [\uXXXX]. *)
Definition hex_digit (d : N) : ascii :=
  ascii_of_N (if (d <? 10)%N then 48 + d else 87 + d).

Definition escape_code (c : N) : string :=
  if (c =? 34)%N then (backslash ++ dquote)%string
  else if (c =? 92)%N then (backslash ++ backslash)%string
  else if (c <? 256)%N then String (ascii_of_N c) EmptyString
  else (backslash ++
        String "u" (String (hex_digit (c / 4096))
                      (String (hex_digit ((c / 256) mod 16))
                         (String (hex_digit ((c / 16) mod 16))
                            (String (hex_digit (c mod 16)) EmptyString)))))%string.

Fixpoint escape (s : str) : string :=
  match s with
  | [] => EmptyString
  | c :: r => (escape_code c ++ escape r)%string
  end.

Definition quoted_text (s : str) : string := (dquote ++ escape s ++ dquote)%string.

(** The characters that [string_part] reads: any but the quote and the
    backslash. *)
Definition plain_char (c : ascii) : bool := negb ((code c =? 34) || (code c =? 92)).

(* ------------------------------------------------------------------ *)
(** ** Writing values, terms and queries

    A text of the grammar for every value, term and query that the grammar
    can build, for the parser to read back. *)

(** The text of a Python string whose code points the text can hold. *)
Definition text_of (s : str) : string :=
  fold_right (fun c r => String (ascii_of_N c) r) EmptyString s.

(** The code points that a [\u] escape reaches. *)
Definition bmp (s : str) : bool := forallb (fun c => (c <? 65536)%N) s.

(** The run of decimal digits in front of a string, and the rest. *)
Fixpoint decimals (s : str) : str * str :=
  match s with
  | c :: r =>
      if is_decimal_code c then let (a, b) := decimals r in (c :: a, b) else ([], s)
  | [] => ([], [])
  end.

(** The literals that [floatP] reads and [float] accepts: decimal digits,
    a dot, decimal digits, with a digit on one side at least. *)
Definition is_float_text (s : str) : bool :=
  let (a, b) := decimals s in
  match b with
  | c :: b' =>
      N.eqb c 46 && forallb is_decimal_code b'
      && match a, b' with [], [] => false | _, _ => true end
  | [] => false
  end.

Fixpoint writable_value (v : Value) : bool :=
  match v with
  | VStr s => bmp s
  | VFloat literal => is_float_text literal
  | VList elements => forallb writable_value elements
  | _ => true
  end.

Fixpoint written_value (v : Value) : string :=
  match v with
  | VStr s => quoted_text s
  | VFloat literal => text_of literal
  | VInt n => py_str n
  | VList [] => "[]"
  | VList (x :: r) =>
      ("[" ++ written_value x
           ++ fold_right (fun e acc => "," ++ written_value e ++ acc) "]" r)%string
  | VBool true => "true"
  | VBool false => "false"
  | VNone => "null"
  end.

Fixpoint writable_term (t : Term) : bool :=
  match t with
  | Predicate name op value args =>
      is_variable name && one_of op operations && writable_value value
      && match args with [] => true | _ => false end
  | FunctionTerm fn property_path args =>
      one_of fn functions && is_variable property_path && forallb writable_value args
  | IsTerm [kind] => bmp kind
  | IsTerm _ => false
  | IdTerm id => bmp id
  | CombinedTerm l op r =>
      writable_term l && one_of op bool_operations && writable_term r
  | AllTerm => false
  | MergeTerm _ _ _ => false
  end.

Fixpoint written_term (t : Term) : string :=
  match t with
  | Predicate name op value _ =>
      (text_of name ++ " " ++ text_of op ++ " " ++ written_value value)%string
  | FunctionTerm fn property_path args =>
      (text_of fn ++ "(" ++ text_of property_path
         ++ fold_right (fun a acc => "," ++ written_value a ++ acc) ")" args)%string
  | IsTerm kinds => ("isinstance(" ++ quoted_text (concat kinds) ++ ")")%string
  | IdTerm id => ("id(" ++ quoted_text id ++ ")")%string
  | CombinedTerm l op r =>
      ("(" ++ written_term l ++ " " ++ text_of op ++ " " ++ written_term r ++ ")")%string
  | AllTerm => EmptyString
  | MergeTerm _ _ _ => EmptyString
  end.

Definition written_navigation (nav : Navigation) : string :=
  let edge := ((match edge_type nav with Some e => text_of e | None => EmptyString end)
               ++ "[" ++ py_str (start nav) ++ ":" ++ py_str (until nav) ++ "]")%string in
  if str_eqb (direction nav) (codes "out") then ("-" ++ edge ++ "->")%string
  else if str_eqb (direction nav) (codes "in") then ("<-" ++ edge ++ "-")%string
  else ("-" ++ edge ++ "-")%string.

Definition writable_part (p : Part) : bool :=
  writable_term (term p)
  && match navigation p with
     | Some nav => parsed_navigation nav
     | None => true
     end
  && match limit p with None => true | Some _ => false end.

Definition written_part (p : Part) : string :=
  (written_term (term p) ++ " "
     ++ (match navigation p with Some nav => written_navigation nav | None => EmptyString end)
     ++ (if pinned p then "+" else EmptyString) ++ " ")%string.

(** A part that navigates or is pinned: its text ends with an arrow or a
    plus sign. *)
Definition is_joined (p : Part) : bool :=
  pinned p || match navigation p with Some _ => true | None => false end.

(** The parts of a query are held last written first. *)
Definition written_query (q : Query) : string :=
  fold_right (fun p acc => (written_part p ++ acc)%string) EmptyString (rev (parts q)).

Definition writable_query (q : Query) : bool :=
  match aggregate q with None => true | Some _ => false end
  && forallb writable_part (parts q)
  && forallb is_joined (tl (parts q)).

(** What is left of [rest], with or without the whitespace in front. *)
Definition skipped (r rest : string) : Prop :=
  r = rest \/ r = snd (span isspace rest).

(** A text that no number runs into. *)
Definition follows (rest : string) : bool :=
  negb (starts_with_char (fun c => isdigit c || Ascii.eqb "." c) rest).

(* ------------------------------------------------------------------ *)
(** ** The limits of the interpreter

    The parsers of parsy are Python functions that call each other, and the
    parsers of a term in parentheses and of an array call themselves,
    through [simpleTermP] and [valueP]: every parenthesis and every bracket
    that is open while a text is read holds frames on the stack of the
    interpreter, which raises [RecursionError] when the stack is full, with
    the stack of 1000 frames that Python starts with at some fifty
    parentheses or some thirty-five brackets inside each other. The frames
    a parser takes and the size of the stack are not in the sources, and
    the parsers above have no stack: what is said below on what a nested
    text is read as, or on the exceptions of a text, is said of texts with
    no more than [nesting_limit] parentheses and brackets open at a time.
    In the same way [int] raises [ValueError], in later versions of Python,
    on a run of more than [digits_limit] digits, which [py_int] reads as a
    number. *)

Definition nesting_limit : nat := 16.
Definition digits_limit : nat := 4300.

(** The opening parentheses and brackets of a text: no more of them are
    open at a time than there are. *)
Fixpoint opened (text : string) : nat :=
  match text with
  | EmptyString => 0
  | String c r =>
      (if Ascii.eqb c "(" || Ascii.eqb c "[" then 1 else 0) + opened r
  end.

(** The brackets that are open around the innermost value of a value. *)
Fixpoint value_nesting (v : Value) : nat :=
  match v with
  | VList elements => S (fold_right (fun e n => Nat.max (value_nesting e) n) 0 elements)
  | _ => 0
  end.

(** The parentheses and brackets that are open around the innermost value
    of a term as [written_term] writes it: one parenthesis for every
    combination, and one for the arguments of a call or of a test. *)
Fixpoint term_nesting (t : Term) : nat :=
  match t with
  | Predicate _ _ value _ => value_nesting value
  | FunctionTerm _ _ args =>
      S (fold_right (fun a n => Nat.max (value_nesting a) n) 0 args)
  | IsTerm _ => 1
  | IdTerm _ => 1
  | CombinedTerm l _ r => S (Nat.max (term_nesting l) (term_nesting r))
  | AllTerm => 0
  | MergeTerm _ _ _ => 0
  end.

(** The edge type written in an arrow, if there is one. *)
Definition written_edge (edge : option str) : string :=
  match edge with Some e => text_of e | None => EmptyString end.

(** A text with no opening bracket: no range is written in it. *)
Definition unbracketed (s : string) : bool :=
  all_chars (fun c => negb (Ascii.eqb "[" c)) s.

Lemma consumes_shrinks {A} s (r : Result A) : consumes s r -> shrinks s r.
Proof. destruct r; simpl; auto with arith. Qed.

Lemma eager_tame n {A} (p : Parser A) : eager n p -> tame n p.
Proof. intros H s Hs. apply consumes_shrinks, H, Hs. Qed.

Lemma tame_le n m {A} (p : Parser A) : tame n p -> m <= n -> tame m p.
Proof. intros H Hm s Hs. apply H. lia. Qed.

Lemma eager_le n m {A} (p : Parser A) : eager n p -> m <= n -> eager m p.
Proof. intros H Hm s Hs. apply H. lia. Qed.

Lemma same_le n m {A} (p q : Parser A) : same n p q -> m <= n -> same m p q.
Proof. intros H Hm s Hs. apply H. lia. Qed.

Lemma same_refl n {A} (p : Parser A) : same n p p.
Proof. intros s _. reflexivity. Qed.

Lemma tame_success n {A} (v : A) : tame n (success v).
Proof. intros s _. simpl. lia. Qed.

Lemma tame_bind n {A B} (p : Parser A) (f : A -> Parser B) :
  tame n p -> (forall v, tame n (f v)) -> tame n (bind p f).
Proof.
  intros Hp Hf s Hs. unfold bind. specialize (Hp s Hs).
  destruct (p s) as [v r | | e |]; simpl in *; auto.
  assert (Hr : slen r < n) by lia. specialize (Hf v r Hr).
  destruct (f v r); simpl in *; auto. lia.
Qed.

Lemma eager_bind_l n {A B} (p : Parser A) (f : A -> Parser B) :
  eager n p -> (forall v, tame (pred n) (f v)) -> eager n (bind p f).
Proof.
  intros Hp Hf s Hs. unfold bind. specialize (Hp s Hs).
  destruct (p s) as [v r | | e |]; simpl in *; auto.
  assert (Hr : slen r < pred n) by lia. specialize (Hf v r Hr).
  destruct (f v r); simpl in *; auto. lia.
Qed.

Lemma eager_bind_r n {A B} (p : Parser A) (f : A -> Parser B) :
  tame n p -> (forall v, eager n (f v)) -> eager n (bind p f).
Proof.
  intros Hp Hf s Hs. unfold bind. specialize (Hp s Hs).
  destruct (p s) as [v r | | e |]; simpl in *; auto.
  assert (Hr : slen r < n) by lia. specialize (Hf v r Hr).
  destruct (f v r); simpl in *; auto. lia.
Qed.

Lemma tame_alt n {A} (p q : Parser A) : tame n p -> tame n q -> tame n (alt p q).
Proof.
  intros Hp Hq s Hs. unfold alt. specialize (Hp s Hs). specialize (Hq s Hs).
  destruct (p s); simpl in *; auto.
Qed.

Lemma eager_alt n {A} (p q : Parser A) : eager n p -> eager n q -> eager n (alt p q).
Proof.
  intros Hp Hq s Hs. unfold alt. specialize (Hp s Hs). specialize (Hq s Hs).
  destruct (p s); simpl in *; auto.
Qed.

Lemma tame_pmap n {A B} (f : A -> B) p : tame n p -> tame n (pmap f p).
Proof. intros. apply tame_bind; auto using tame_success. Qed.

Lemma eager_pmap n {A B} (f : A -> B) p : eager n p -> eager n (pmap f p).
Proof. intros. apply eager_bind_l; auto using tame_success. Qed.

Lemma tame_pmap_raising n {A B} (f : A -> PyExn + B) p :
  tame n p -> tame n (pmap_raising f p).
Proof.
  intros. apply tame_bind; auto. intros v s _. destruct (f v); simpl; auto.
Qed.

Lemma eager_pmap_raising n {A B} (f : A -> PyExn + B) p :
  eager n p -> eager n (pmap_raising f p).
Proof.
  intros. apply eager_bind_l; auto. intros v s _. destruct (f v); simpl; auto.
Qed.

Lemma tame_then n {A B} (p : Parser A) (q : Parser B) :
  tame n p -> tame n q -> tame n (p >> q).
Proof. intros. apply tame_bind; auto. Qed.

Lemma eager_then_l n {A B} (p : Parser A) (q : Parser B) :
  eager n p -> tame n q -> eager n (p >> q).
Proof. intros. apply eager_bind_l; auto. intro. eapply tame_le; eauto. lia. Qed.

Lemma eager_then_r n {A B} (p : Parser A) (q : Parser B) :
  tame n p -> eager n q -> eager n (p >> q).
Proof. intros. apply eager_bind_r; auto. Qed.

Lemma tame_skip n {A B} (p : Parser A) (q : Parser B) :
  tame n p -> tame n q -> tame n (p << q).
Proof. intros. apply tame_bind; auto. intro. apply tame_bind; auto using tame_success. Qed.

Lemma eager_skip_l n {A B} (p : Parser A) (q : Parser B) :
  eager n p -> tame n q -> eager n (p << q).
Proof.
  intros. apply eager_bind_l; auto. intro.
  apply tame_bind; auto using tame_success. eapply tame_le; eauto. lia.
Qed.

Lemma eager_skip_r n {A B} (p : Parser A) (q : Parser B) :
  tame n p -> eager n q -> eager n (p << q).
Proof.
  intros. apply eager_bind_r; auto. intro.
  apply eager_bind_l; auto using tame_success.
Qed.

Lemma eager_result n {A B} (p : Parser A) (v : B) : eager n p -> eager n (result p v).
Proof. intros. apply eager_then_l; auto using tame_success. Qed.

Lemma tame_optional n {A} (p : Parser A) : tame n p -> tame n (optional p).
Proof.
  intros Hp s Hs. unfold optional. specialize (Hp s Hs).
  destruct (p s); simpl in *; auto.
Qed.

Lemma many_from_shrinks {A} (p : Parser A) n :
  eager n p -> forall fuel s, slen s < fuel -> slen s < n ->
  shrinks s (many_from p fuel s).
Proof.
  intros Hp. induction fuel as [|fuel IH]; intros s Hf Hn; [lia|].
  simpl. specialize (Hp s Hn).
  destruct (p s) as [v r | | e |]; simpl in *; auto.
  destruct (Nat.ltb_spec (slen r) (slen s)); [|lia].
  assert (H1 : slen r < fuel) by lia. assert (H2 : slen r < n) by lia.
  specialize (IH r H1 H2).
  destruct (many_from p fuel r); simpl in *; auto. lia.
Qed.

Lemma tame_many n {A} (p : Parser A) : eager n p -> tame n (many p).
Proof. intros Hp s Hs. apply many_from_shrinks with (n := n); auto. Qed.

Lemma tame_plus n {A} (p q : Parser (list A)) : tame n p -> tame n q -> tame n (plus p q).
Proof. intros. apply tame_bind; auto. intro. apply tame_bind; auto using tame_success. Qed.

Lemma eager_plus_l n {A} (p q : Parser (list A)) :
  eager n p -> tame n q -> eager n (plus p q).
Proof.
  intros. apply eager_bind_l; auto. intro.
  apply tame_bind; auto using tame_success. eapply tame_le; eauto. lia.
Qed.

Lemma eager_plus_r n {A} (p q : Parser (list A)) :
  tame n p -> eager n q -> eager n (plus p q).
Proof.
  intros. apply eager_bind_r; auto. intro.
  apply eager_bind_l; auto using tame_success.
Qed.

Lemma eager_at_least1 n {A} (p : Parser A) : eager n p -> eager n (at_least1 p).
Proof.
  intros. apply eager_plus_l; [apply eager_pmap; auto | apply tame_many; auto].
Qed.

Lemma tame_sep_by n {A B} (p : Parser A) (sep : Parser B) :
  eager n p -> tame n sep -> tame n (sep_by p sep).
Proof.
  intros. apply tame_alt; [|apply tame_success].
  apply tame_plus; [apply tame_pmap, eager_tame; auto|].
  apply tame_many, eager_then_r; auto.
Qed.

Lemma tame_concat n p : tame n p -> tame n (concat_ p).
Proof. apply tame_pmap. Qed.

Lemma eager_concat n p : eager n p -> eager n (concat_ p).
Proof. apply eager_pmap. Qed.

Lemma strip_prefix_length lit : forall s r,
  strip_prefix lit s = Some r -> slen s = slen lit + slen r.
Proof.
  induction lit as [|c lit IH]; simpl; intros s r H.
  - inversion H; reflexivity.
  - destruct s as [|d s]; [discriminate|].
    destruct (Ascii.eqb c d); [|discriminate].
    simpl. f_equal. apply IH, H.
Qed.

Lemma tame_pstring n lit : tame n (pstring lit).
Proof.
  intros s _. unfold pstring. destruct (strip_prefix lit s) eqn:E; simpl; auto.
  apply strip_prefix_length in E. lia.
Qed.

Lemma eager_pstring n lit : 0 < slen lit -> eager n (pstring lit).
Proof.
  intros Hl s _. unfold pstring. destruct (strip_prefix lit s) eqn:E; simpl; auto.
  apply strip_prefix_length in E. lia.
Qed.

Lemma span_length f : forall s, slen (snd (span f s)) <= slen s.
Proof.
  induction s as [|c s IH]; simpl; auto.
  destruct (f c); simpl; auto.
  destruct (span f s); simpl in *. lia.
Qed.

Lemma tame_regex_star n f : tame n (regex_star f).
Proof.
  intros s _. unfold regex_star. pose proof (span_length f s).
  destruct (span f s); simpl in *; auto.
Qed.

Lemma eager_regex_one_star n f g : eager n (regex_one_star f g).
Proof.
  intros s _. unfold regex_one_star. destruct s as [|c s]; simpl; auto.
  destruct (f c); simpl; auto. pose proof (span_length g s).
  destruct (span g s); simpl in *. lia.
Qed.

Lemma eager_test_char n f : eager n (test_char f).
Proof.
  intros s _. unfold test_char. destruct s as [|c s]; simpl; auto.
  destruct (f c); simpl; auto.
Qed.

Lemma tame_whitespace n : tame n whitespace.
Proof. apply tame_regex_star. Qed.

Lemma tame_lexeme n {A} (p : Parser A) : tame n p -> tame n (lexeme p).
Proof. intros. apply tame_skip; [apply tame_then|]; auto using tame_whitespace. Qed.

Lemma eager_lexeme n {A} (p : Parser A) : eager n p -> eager n (lexeme p).
Proof.
  intros. apply eager_skip_l; [apply eager_then_r|]; auto using tame_whitespace.
Qed.

Lemma eager_alts n {A} (ps : list (Parser A)) :
  Forall (eager n) ps -> eager n (alts ps).
Proof.
  destruct ps as [|p ps]; simpl; intros H.
  - intros s _. exact I.
  - inversion H as [|? ? Hp Hps]; subst. clear H.
    revert p Hp. induction Hps as [|q ps Hq Hps IH]; simpl; intros p Hp; auto.
    apply IH. apply eager_alt; auto.
Qed.

Lemma eager_lexeme_strings n (lits : list string) :
  Forall (fun lit => 0 < slen lit) lits ->
  eager n (alts (map (fun a => lexeme (pstring a)) lits)).
Proof.
  intros H. apply eager_alts. induction H; simpl; constructor; auto.
  apply eager_lexeme, eager_pstring; auto.
Qed.

Create HintDb progress.
#[local] Hint Resolve tame_success tame_pstring tame_regex_star tame_whitespace
  eager_regex_one_star eager_test_char eager_tame : progress.
#[local] Hint Resolve tame_lexeme eager_lexeme tame_pmap eager_pmap tame_pmap_raising
  eager_pmap_raising tame_alt eager_alt tame_optional tame_many tame_sep_by
  tame_concat eager_concat eager_at_least1 eager_result : progress.
#[local] Hint Extern 1 (eager _ (pstring _)) => (apply eager_pstring; simpl; lia) : progress.
#[local] Hint Extern 2 (eager _ (_ >> _)) => (apply eager_then_l) : progress.
#[local] Hint Extern 3 (eager _ (_ >> _)) => (apply eager_then_r) : progress.
#[local] Hint Extern 2 (eager _ (_ << _)) => (apply eager_skip_l) : progress.
#[local] Hint Extern 3 (eager _ (_ << _)) => (apply eager_skip_r) : progress.
#[local] Hint Extern 2 (tame _ (_ >> _)) => (apply tame_then) : progress.
#[local] Hint Extern 2 (tame _ (_ << _)) => (apply tame_skip) : progress.
#[local] Hint Extern 2 (tame _ (plus _ _)) => (apply tame_plus) : progress.
#[local] Hint Extern 2 (eager _ (plus _ _)) => (apply eager_plus_l) : progress.
#[local] Hint Extern 3 (eager _ (plus _ _)) => (apply eager_plus_r) : progress.

Ltac progress_ := eauto 12 with progress.

(** *** The lexical rules *)

Lemma eager_operationP n : eager n operationP.
Proof. apply eager_lexeme_strings. repeat constructor. Qed.

Lemma eager_functionP n : eager n functionP.
Proof. apply eager_lexeme_strings. repeat constructor. Qed.

Lemma eager_preamblePropP n : eager n preamblePropP.
Proof. apply eager_lexeme_strings. repeat constructor. Qed.

Lemma eager_lparenP n : eager n lparenP.
Proof. unfold lparenP. progress_. Qed.
Lemma eager_rparenP n : eager n rparenP.
Proof. unfold rparenP. progress_. Qed.
Lemma eager_lbrackP n : eager n lbrackP.
Proof. unfold lbrackP. progress_. Qed.
Lemma eager_rbrackP n : eager n rbrackP.
Proof. unfold rbrackP. progress_. Qed.
Lemma eager_colonP n : eager n colonP.
Proof. unfold colonP. progress_. Qed.
Lemma eager_commaP n : eager n commaP.
Proof. unfold commaP. progress_. Qed.
Lemma eager_dotdotP n : eager n dotdotP.
Proof. unfold dotdotP. progress_. Qed.
Lemma eager_equalsP n : eager n equalsP.
Proof. unfold equalsP. progress_. Qed.
Lemma eager_trueP n : eager n trueP.
Proof. unfold trueP. progress_. Qed.
Lemma eager_falseP n : eager n falseP.
Proof. unfold falseP. progress_. Qed.
Lemma eager_nullP n : eager n nullP.
Proof. unfold nullP. progress_. Qed.

Lemma eager_digit n : eager n digit.
Proof. apply eager_test_char. Qed.

Lemma eager_integerP n : eager n integerP.
Proof. unfold integerP. auto using eager_digit with progress. Qed.

Lemma eager_floatP n : eager n floatP.
Proof.
  unfold floatP. apply eager_pmap_raising, eager_concat.
  apply eager_plus_l; [apply eager_plus_r|]; auto using eager_digit with progress.
Qed.

Lemma eager_variableP n : eager n variableP.
Proof. unfold variableP. progress_. Qed.

Lemma eager_literalP n : eager n literalP.
Proof. unfold literalP. progress_. Qed.

Lemma eager_unicode_escape n : eager n unicode_escape.
Proof.
  intros s _. unfold unicode_escape.
  destruct s as [|u [|a [|b [|c [|d r]]]]]; simpl; auto.
  destruct (_ && _); simpl; auto. lia.
Qed.

Lemma eager_string_esc n : eager n string_esc.
Proof.
  unfold string_esc. apply eager_then_l; [apply eager_pstring; simpl; lia|].
  repeat apply tame_alt; auto using eager_unicode_escape with progress;
    apply tame_then; auto with progress.
Qed.

Lemma tame_stringP n : tame n stringP.
Proof.
  unfold stringP. apply tame_concat, tame_many, eager_alt.
  - apply eager_regex_one_star.
  - apply eager_string_esc.
Qed.

Lemma eager_quotedStringP n : eager n quotedStringP.
Proof.
  unfold quotedStringP. apply eager_lexeme, eager_skip_l; auto with progress.
  apply eager_then_l; auto using tame_stringP. apply eager_pstring; simpl; lia.
Qed.

#[local] Hint Resolve eager_operationP eager_functionP eager_preamblePropP eager_lparenP
  eager_rparenP eager_lbrackP eager_rbrackP eager_colonP eager_commaP eager_dotdotP
  eager_equalsP eager_trueP eager_falseP eager_nullP eager_digit eager_integerP
  eager_floatP eager_variableP eager_literalP eager_quotedStringP tame_stringP : progress.

(** *** Agreement of parsers on short texts *)

Lemma same_bind n {A B} (p p' : Parser A) (f f' : A -> Parser B) :
  same n p p' -> tame n p -> (forall v, same n (f v) (f' v)) ->
  same n (bind p f) (bind p' f').
Proof.
  intros Hpp Hp Hf s Hs. unfold bind. rewrite <- (Hpp s Hs). specialize (Hp s Hs).
  destruct (p s) as [v r | | e |]; simpl in *; auto. apply Hf. lia.
Qed.

Lemma same_bind_l n {A B} (p p' : Parser A) (f f' : A -> Parser B) :
  same n p p' -> eager n p -> (forall v, same (pred n) (f v) (f' v)) ->
  same n (bind p f) (bind p' f').
Proof.
  intros Hpp Hp Hf s Hs. unfold bind. rewrite <- (Hpp s Hs). specialize (Hp s Hs).
  destruct (p s) as [v r | | e |]; simpl in *; auto. apply Hf. lia.
Qed.

Lemma same_alt n {A} (p p' q q' : Parser A) :
  same n p p' -> same n q q' -> same n (alt p q) (alt p' q').
Proof.
  intros Hp Hq s Hs. unfold alt. rewrite (Hp s Hs), (Hq s Hs). reflexivity.
Qed.

Lemma same_pmap n {A B} (f : A -> B) (p p' : Parser A) :
  same n p p' -> same n (pmap f p) (pmap f p').
Proof. intros H s Hs. unfold pmap, bind. rewrite (H s Hs). reflexivity. Qed.

Lemma many_from_same {A} (p p' : Parser A) n :
  same n p p' -> forall fuel fuel' s, slen s < fuel -> slen s < fuel' -> slen s < n ->
  many_from p fuel s = many_from p' fuel' s.
Proof.
  intros Hpp. induction fuel as [|fuel IH]; intros fuel' s Hf Hf' Hn; [lia|].
  destruct fuel' as [|fuel']; [lia|]. simpl. rewrite <- (Hpp s Hn).
  destruct (p s) as [v r | | e |]; auto.
  destruct (Nat.ltb_spec (slen r) (slen s)); auto.
  rewrite (IH fuel' r); auto; lia.
Qed.

Lemma same_many n {A} (p p' : Parser A) : same n p p' -> same n (many p) (many p').
Proof. intros H s Hs. apply many_from_same with (n := n); auto. Qed.

(** [many], one application at a time. *)
Lemma many_unfold {A} (p : Parser A) s :
  many p s =
  match p s with
  | Success v r =>
      if slen r <? slen s then
        match many p r with
        | Success vs r' => Success (v :: vs) r'
        | Failure => Failure
        | Raise e => Raise e
        | Hang => Hang
        end
      else Hang
  | Failure => Success [] s
  | Raise e => Raise e
  | Hang => Hang
  end.
Proof.
  unfold many at 1. simpl. destruct (p s) as [v r | | e |]; auto.
  destruct (Nat.ltb_spec (slen r) (slen s)); auto.
  unfold many.
  assert (E : many_from p (slen s) r = many_from p (S (slen r)) r)
    by (apply many_from_same with (n := S (slen r)); auto using same_refl).
  rewrite E. reflexivity.
Qed.

(** *** Values *)

Lemma eager_array_parser_of n valueP' :
  eager (pred n) valueP' -> eager n (array_parser_of valueP').
Proof.
  intros H. unfold array_parser_of.
  apply eager_bind_l; [apply eager_lbrackP|]. intros _.
  apply tame_bind; [apply tame_sep_by; auto with progress|]. intros v.
  apply tame_bind; auto with progress.
Qed.

Lemma eager_valueP_of n ap : eager n ap -> eager n (valueP_of ap).
Proof. intros. unfold valueP_of. repeat apply eager_alt; auto with progress. Qed.

Lemma eager_valueP_upto d : eager d (valueP_upto d).
Proof.
  induction d as [|d IH].
  - intros s Hs. inversion Hs.
  - simpl. apply eager_valueP_of, eager_array_parser_of. exact IH.
Qed.

Lemma same_sep_by n {A B} (p p' : Parser A) (sep : Parser B) :
  same n p p' -> eager n p -> tame n sep -> same n (sep_by p sep) (sep_by p' sep).
Proof.
  intros Hpp Hp Hsep. unfold sep_by. apply same_alt; [|apply same_refl].
  unfold plus. apply same_bind.
  - apply same_pmap, Hpp.
  - apply tame_pmap, eager_tame, Hp.
  - intros v. apply same_bind; [| |intro; apply same_refl].
    + apply same_many. unfold then_. apply same_bind; auto using same_refl.
    + apply tame_many, eager_then_r; auto.
Qed.

Lemma same_array_parser_of n v v' :
  same (pred n) v v' -> eager (pred n) v ->
  same n (array_parser_of v) (array_parser_of v').
Proof.
  intros Hvv Hv. unfold array_parser_of.
  apply same_bind_l; [apply same_refl | apply eager_lbrackP |]. intros _.
  apply same_bind; [| |intro; apply same_refl].
  - apply same_sep_by; auto with progress.
  - apply tame_sep_by; auto with progress.
Qed.

Lemma same_valueP_of n ap ap' : same n ap ap' -> same n (valueP_of ap) (valueP_of ap').
Proof.
  intros H. unfold valueP_of.
  repeat (apply same_alt; [|apply same_refl]).
  apply same_alt; [apply same_refl|]. apply same_pmap, H.
Qed.

Lemma valueP_upto_fuel : forall n d, n <= d -> same n (valueP_upto d) (valueP_upto n).
Proof.
  induction n as [|n IH]; intros d Hd.
  - intros s Hs. inversion Hs.
  - destruct d as [|d]; [lia|]. simpl.
    apply same_valueP_of, same_array_parser_of; simpl.
    + apply IH. lia.
    + eapply eager_le; [apply eager_valueP_upto | lia].
Qed.

Lemma eager_valueP n : eager n valueP.
Proof. intros s _. unfold valueP. apply eager_valueP_upto. lia. Qed.

Lemma valueP_unfold s : valueP s = valueP_of array_parser s.
Proof.
  unfold valueP at 1. simpl.
  apply (@same_valueP_of (S (slen s))); [|lia].
  apply same_array_parser_of; simpl.
  - intros s' Hs'. unfold valueP. apply valueP_upto_fuel; lia.
  - apply eager_valueP_upto.
Qed.

#[local] Hint Resolve eager_valueP : progress.

(** *** Terms *)

Lemma eager_predicate_term n : eager n predicate_term.
Proof.
  unfold predicate_term. apply eager_bind_l; auto with progress. intro.
  apply tame_bind; auto with progress. intro.
  apply tame_bind; auto with progress.
Qed.

Lemma eager_function_term n : eager n function_term.
Proof.
  unfold function_term. apply eager_bind_l; auto with progress. intro.
  repeat (apply tame_bind; auto 6 with progress; intro).
Qed.

Lemma eager_isinstance_term n : eager n isinstance_term.
Proof. unfold isinstance_term. progress_. Qed.

Lemma eager_id_term n : eager n id_term.
Proof. unfold id_term. progress_. Qed.

Lemma eager_leafTermP n : eager n leafTermP.
Proof.
  unfold leafTermP.
  auto using eager_predicate_term, eager_function_term, eager_isinstance_term,
    eager_id_term with progress.
Qed.

Lemma eager_boolOpP n : eager n boolOpP.
Proof. unfold boolOpP. progress_. Qed.

#[local] Hint Resolve eager_leafTermP eager_boolOpP : progress.

Lemma combined_loop_S P turns result s :
  combined_loop P (S turns) result s =
  match boolOpP s with
  | Success op r =>
      match P r with
      | Success t r' => combined_loop P turns (CombinedTerm result op t) r'
      | Failure => Failure
      | Raise e => Raise e
      | Hang => Hang
      end
  | Failure => Success result s
  | Raise e => Raise e
  | Hang => Hang
  end.
Proof.
  simpl. unfold bind, alt, pmap, bind, success. destruct (boolOpP s); reflexivity.
Qed.

Lemma combined_loop_shrinks n simple :
  eager n simple -> forall turns result s, slen s < turns -> slen s < n ->
  shrinks s (combined_loop simple turns result s).
Proof.
  intros Hp. induction turns as [|turns IH]; intros result s Ht Hn; [lia|].
  rewrite combined_loop_S.
  pose proof (@eager_boolOpP n s Hn) as Hop.
  destruct (boolOpP s) as [op r | | e |]; simpl in *; auto.
  assert (Hr : slen r < n) by lia. pose proof (Hp r Hr) as Hs.
  destruct (simple r) as [right r' | | e |]; simpl in *; auto.
  assert (H1 : slen r' < turns) by lia. assert (H2 : slen r' < n) by lia.
  specialize (IH (CombinedTerm result op right) r' H1 H2).
  destruct (combined_loop simple turns _ r'); simpl in *; auto. lia.
Qed.

Lemma combined_loop_same n P Q :
  same n P Q -> eager n P -> forall turns turns' result s,
  slen s < turns -> slen s < turns' -> slen s < n ->
  combined_loop P turns result s = combined_loop Q turns' result s.
Proof.
  intros HPQ HP. induction turns as [|turns IH]; intros turns' result s Ht Ht' Hn; [lia|].
  destruct turns' as [|turns']; [lia|].
  rewrite !combined_loop_S.
  pose proof (@eager_boolOpP n s Hn) as Hop.
  destruct (boolOpP s) as [op r | | e |]; simpl in *; auto.
  assert (Hr : slen r < n) by lia.
  rewrite <- (HPQ r Hr). pose proof (HP r Hr) as Hs.
  destruct (P r) as [right r' | | e |]; simpl in *; auto.
  apply IH; lia.
Qed.

Lemma eager_combined_term_of n P : eager n P -> eager n (combined_term_of P).
Proof.
  intros HP. unfold combined_term_of. apply eager_bind_l; auto. intros left s Hs.
  apply combined_loop_shrinks with (n := pred n); auto.
  eapply eager_le; eauto. lia.
Qed.

Lemma same_combined_term_of n P Q :
  same n P Q -> eager n P -> same n (combined_term_of P) (combined_term_of Q).
Proof.
  intros HPQ HP. unfold combined_term_of. apply same_bind; auto using eager_tame.
  intros left s Hs. apply combined_loop_same with (n := n); auto.
Qed.

Lemma eager_simpleTermP_of n ct : tame (pred n) ct -> eager n (simpleTermP_of ct).
Proof.
  intros H. unfold simpleTermP_of. apply eager_alt; auto with progress.
  unfold skip, then_. apply eager_bind_l.
  - apply eager_bind_l; auto with progress.
  - intro. eapply tame_le with (n := n); [|lia].
    apply tame_bind; auto with progress.
Qed.

Lemma same_simpleTermP_of n ct ct' :
  same (pred n) ct ct' -> tame (pred n) ct ->
  same n (simpleTermP_of ct) (simpleTermP_of ct').
Proof.
  intros Hcc Hc. unfold simpleTermP_of. apply same_alt; [|apply same_refl].
  unfold skip, then_. apply same_bind; [| |intro; apply same_refl].
  - apply same_bind_l; auto using same_refl with progress.
  - apply eager_tame, eager_bind_l; auto with progress.
Qed.

Lemma eager_combined_term_upto d : eager d (combined_term_upto d).
Proof.
  induction d as [|d IH].
  - intros s Hs. inversion Hs.
  - simpl. apply eager_combined_term_of, eager_simpleTermP_of. simpl.
    apply eager_tame, IH.
Qed.

Lemma combined_term_upto_fuel :
  forall n d, n <= d -> same n (combined_term_upto d) (combined_term_upto n).
Proof.
  induction n as [|n IH]; intros d Hd.
  - intros s Hs. inversion Hs.
  - destruct d as [|d]; [lia|]. simpl.
    assert (Hd' : tame n (combined_term_upto d)).
    { apply eager_tame. eapply eager_le; [apply eager_combined_term_upto | lia]. }
    apply same_combined_term_of.
    + apply same_simpleTermP_of; simpl; auto. apply IH. lia.
    + apply eager_simpleTermP_of; simpl; auto.
Qed.

Lemma eager_combined_term n : eager n combined_term.
Proof. intros s _. unfold combined_term. apply eager_combined_term_upto. lia. Qed.

Lemma eager_simpleTermP n : eager n simpleTermP.
Proof. apply eager_simpleTermP_of, eager_tame, eager_combined_term. Qed.

(** The recursive equation of the source: [combined_term] is the generator
    run over [simpleTermP], which is defined from [combined_term]. *)
Lemma combined_term_unfold s : combined_term s = combined_term_of simpleTermP s.
Proof.
  unfold combined_term at 1. simpl.
  assert (Ht : tame (slen s) (combined_term_upto (slen s))).
  { apply eager_tame, eager_combined_term_upto. }
  apply (@same_combined_term_of (S (slen s))); [| |lia].
  - apply same_simpleTermP_of; simpl; auto.
    intros s' Hs'. unfold combined_term. apply combined_term_upto_fuel; lia.
  - apply eager_simpleTermP_of; simpl; auto.
Qed.

Lemma combined_rest_unfold result s :
  combined_rest result s =
  (op <- (pmap Some boolOpP <|> success None) ;;
   match op with
   | None => success result
   | Some op => right <- simpleTermP ;; combined_rest (CombinedTerm result op right)
   end) s.
Proof.
  unfold combined_rest at 1. rewrite combined_loop_S.
  unfold bind at 1, alt, pmap, bind at 1.
  pose proof (@eager_boolOpP (S (slen s)) s (Nat.lt_succ_diag_r _)) as Hop.
  destruct (boolOpP s) as [op r | | e |]; simpl in *; auto.
  unfold bind. pose proof (@eager_simpleTermP (S (slen r)) r (Nat.lt_succ_diag_r _)) as Hs.
  destruct (simpleTermP r) as [right r' | | e |]; simpl in *; auto.
  unfold combined_rest.
  apply combined_loop_same with (n := S (slen r')); auto using same_refl; try lia.
  apply eager_simpleTermP.
Qed.

Lemma combined_term_rest s :
  combined_term s = (left <- simpleTermP ;; combined_rest left) s.
Proof. apply combined_term_unfold. Qed.

#[local] Hint Resolve eager_combined_term eager_simpleTermP : progress.

Lemma eager_term_parser n : eager n term_parser.
Proof. unfold term_parser. auto with progress. Qed.

(** *** Navigation, parts and the query *)

Section GrammarProgress.

Variable Navigation_Max : N.
Variable EdgeType_default : str.
Variable EdgeType_allowed_edge_types : list str.
Variable allowed_edge_types_text : str.

Lemma eager_range_parser n : eager n (range_parser Navigation_Max).
Proof.
  unfold range_parser. apply eager_bind_l; auto with progress. intro.
  repeat (apply tame_bind; auto 6 with progress; intro).
Qed.

Lemma tame_edge_definition n : tame n (edge_definition Navigation_Max).
Proof.
  unfold edge_definition. apply tame_bind; auto with progress. intro.
  apply tame_bind; auto using eager_range_parser with progress.
Qed.

Lemma eager_navigation_parser n : eager n (navigation_parser Navigation_Max).
Proof.
  unfold navigation_parser, outP, inP, inOutP.
  repeat apply eager_alt; apply eager_pmap, eager_lexeme, eager_skip_l;
    auto with progress; apply eager_then_l; auto using tame_edge_definition;
    apply eager_pstring; simpl; lia.
Qed.

Lemma tame_pin_parser n : tame n pin_parser.
Proof. unfold pin_parser. progress_. Qed.

Lemma eager_part_parser n : eager n (part_parser Navigation_Max).
Proof.
  unfold part_parser. apply eager_bind_l; [apply eager_term_parser|]. intro.
  apply tame_bind; auto with progress. intro.
  apply tame_bind; auto using eager_navigation_parser with progress. intro.
  apply tame_bind; auto using tame_pin_parser with progress.
Qed.

Lemma eager_preamble_value_parser n : eager n preamble_value_parser.
Proof.
  unfold preamble_value_parser. apply eager_bind_l; auto with progress. intro.
  repeat (apply tame_bind; auto 6 with progress; intro).
Qed.

Lemma eager_preambleP n : eager n preambleP.
Proof.
  unfold preambleP. apply eager_skip_r; auto with progress.
  apply tame_sep_by; auto using eager_preamble_value_parser with progress.
Qed.

Lemma tame_query_parser n :
  tame n (query_parser Navigation_Max EdgeType_default EdgeType_allowed_edge_types
                       allowed_edge_types_text).
Proof.
  unfold query_parser. apply tame_bind; auto using eager_preambleP with progress. intro.
  apply tame_bind; auto using eager_part_parser with progress. intros parts s _.
  destruct (negb _); simpl; auto.
Qed.

(** [parse_query] returns or raises on every text. *)
Lemma parse_query_total query :
  parse_query Navigation_Max EdgeType_default EdgeType_allowed_edge_types
              allowed_edge_types_text query <> NoReturn.
Proof.
  unfold parse_query, parse, skip, bind.
  pose proof (@tame_query_parser (S (slen query)) query (Nat.lt_succ_diag_r _)) as H.
  destruct (query_parser _ _ _ _ query) as [q r | | e |]; simpl in *;
    try discriminate; try contradiction.
  unfold eof. destruct r; simpl; discriminate.
Qed.

End GrammarProgress.

Lemma combined_rest_chain s ops rest :
  chain s ops rest -> forall acc, combined_rest acc s = Success (fold_left join ops acc) rest.
Proof.
  induction 1 as [s Hop | s op r t r' ops rest Hop Ht _ IH]; intros acc;
    rewrite combined_rest_unfold; unfold bind at 1, alt, pmap, bind at 1; rewrite Hop.
  - reflexivity.
  - simpl. unfold bind. rewrite Ht. apply IH.
Qed.

Lemma pstring_value lit s v r : pstring lit s = Success v r -> v = codes lit.
Proof. unfold pstring. destruct (strip_prefix lit s); congruence. Qed.

Lemma lexeme_value {A} (p : Parser A) s v r :
  lexeme p s = Success v r ->
  exists s1 s2, whitespace s = Success (fst (span isspace s)) s1 /\ p s1 = Success v s2.
Proof.
  unfold lexeme, skip, then_, bind, whitespace, regex_star.
  destruct (span isspace s) as [m s1]. simpl.
  destruct (p s1) as [v' s2 | | |] eqn:Ep; try discriminate.
  destruct (span isspace s2). unfold success. intros H. inversion H; subst. eauto.
Qed.

Lemma boolOpP_value s op r : boolOpP s = Success op r -> op = codes "and" \/ op = codes "or".
Proof.
  intros H. apply lexeme_value in H. destruct H as (s1 & s2 & _ & H).
  unfold alt in H. destruct (pstring "and" s1) eqn:E.
  - inversion H; subst. left. eapply pstring_value; eauto.
  - right. eapply pstring_value; eauto.
  - discriminate.
  - discriminate.
Qed.

Lemma chain_ops s ops rest :
  chain s ops rest -> Forall (fun x => fst x = codes "and" \/ fst x = codes "or") ops.
Proof.
  induction 1; constructor; auto. simpl. eapply boolOpP_value; eauto.
Qed.

Lemma pmap_value {A B} (f : A -> B) (p : Parser A) s w r :
  pmap f p s = Success w r -> exists v, w = f v /\ p s = Success v r.
Proof.
  unfold pmap, bind, success. destruct (p s); try discriminate.
  intros H; inversion H; subst; eauto.
Qed.

Lemma leafTermP_not_combined s t r : leafTermP s = Success t r -> is_combined t = false.
Proof.
  unfold leafTermP, alt.
  destruct (isinstance_term s) eqn:E1.
  { intros H; inversion H; subst. apply pmap_value in E1. destruct E1 as (v & -> & _).
    reflexivity. }
  2,3: discriminate.
  destruct (id_term s) eqn:E2.
  { intros H; inversion H; subst. apply pmap_value in E2. destruct E2 as (v & -> & _).
    reflexivity. }
  2,3: discriminate.
  destruct (predicate_term s) eqn:E3.
  { intros H; inversion H; subst. unfold predicate_term, bind, success in E3.
    destruct (variableP s); try discriminate.
    destruct (operationP _); try discriminate.
    destruct (valueP _); try discriminate. inversion E3; reflexivity. }
  2,3: discriminate.
  unfold function_term, bind, success.
  destruct (functionP s); try discriminate.
  destruct (lparenP _); try discriminate.
  destruct (variableP _); try discriminate.
  destruct (many _ _); try discriminate.
  destruct (rparenP _); try discriminate.
  intros H; inversion H; reflexivity.
Qed.

(** A simple term that is a [CombinedTerm] was written in parentheses. *)
Lemma simpleTermP_combined s t r :
  simpleTermP s = Success t r -> is_combined t = true ->
  exists s1 s2,
    lparenP s = Success (codes "(") s1 /\ combined_term s1 = Success t s2
    /\ rparenP s2 = Success (codes ")") r.
Proof.
  unfold simpleTermP, simpleTermP_of, alt. intros H Hc.
  destruct ((lparenP >> combined_term << rparenP) s) as [t' r' | | |] eqn:E;
    try discriminate.
  - inversion H; subst. unfold skip, then_, bind, success in E.
    destruct (lparenP s) as [v1 s1 | | |] eqn:E1; try discriminate.
    destruct (combined_term s1) as [v2 s2 | | |] eqn:E2; try discriminate.
    destruct (rparenP s2) as [v3 s3 | | |] eqn:E3; try discriminate.
    assert (V1 : v1 = codes "(").
    { pose proof (lexeme_value _ _ E1) as (a & b & _ & Hp).
      eapply pstring_value; eauto. }
    assert (V3 : v3 = codes ")").
    { pose proof (lexeme_value _ _ E3) as (a & b & _ & Hp).
      eapply pstring_value; eauto. }
    inversion E; subst. exists s1, s2. repeat split; auto.
  - apply leafTermP_not_combined in H. congruence.
Qed.

(** C4. The term parser folds a chain of simple terms joined by [and] and
    [or] strictly from the left, whichever of the two operators stands
    where: the text [a op1 b op2 c ...] parses to
    [CombinedTerm(CombinedTerm(a, op1, b), op2, c) ...]; the operators read
    are [and] and [or] only, and an operand of the chain is itself a
    [CombinedTerm] only where it was written in parentheses. *)
Theorem combined_term_folds_left s a s1 ops rest :
  simpleTermP s = Success a s1 ->
  chain s1 ops rest ->
  combined_term s = Success (fold_left join ops a) rest
  /\ term_parser s = Success (fold_left join ops a) rest
  /\ Forall (fun x => fst x = codes "and" \/ fst x = codes "or") ops
  /\ (forall u t u', simpleTermP u = Success t u' -> is_combined t = true ->
      exists u1 u2, lparenP u = Success (codes "(") u1
                    /\ combined_term u1 = Success t u2
                    /\ rparenP u2 = Success (codes ")") u').
Proof.
  intros Ha Hc.
  assert (E : combined_term s = Success (fold_left join ops a) rest).
  { rewrite combined_term_rest. unfold bind. rewrite Ha.
    apply combined_rest_chain, Hc. }
  repeat split.
  - exact E.
  - unfold term_parser, alt. rewrite E. reflexivity.
  - eapply chain_ops; eauto.
  - apply simpleTermP_combined.
Qed.

(** The text [a and b or c], with predicates for [a], [b] and [c]. *)
Lemma combined_term_folds_left_witness :
  simpleTermP "a<1 and b<2 or c<3" = Success (pred_ "a" "<" 1) " and b<2 or c<3"
  /\ chain " and b<2 or c<3"
           [(codes "and", pred_ "b" "<" 2); (codes "or", pred_ "c" "<" 3)] EmptyString
  /\ combined_term "a<1 and b<2 or c<3"
     = Success (CombinedTerm (CombinedTerm (pred_ "a" "<" 1) "and" (pred_ "b" "<" 2))
                             "or" (pred_ "c" "<" 3)) EmptyString.
Proof.
  assert (Ha : simpleTermP "a<1 and b<2 or c<3"
               = Success (pred_ "a" "<" 1) " and b<2 or c<3") by (vm_compute; reflexivity).
  assert (Hc : chain " and b<2 or c<3"
           [(codes "and", pred_ "b" "<" 2); (codes "or", pred_ "c" "<" 3)] EmptyString).
  { eapply chain_step with (r := "b<2 or c<3") (r' := " or c<3");
      [vm_compute; reflexivity | vm_compute; reflexivity |].
    eapply chain_step with (r := "c<3") (r' := EmptyString);
      [vm_compute; reflexivity | vm_compute; reflexivity |].
    apply chain_end. vm_compute; reflexivity. }
  split; [exact Ha|]. split; [exact Hc|].
  exact (proj1 (combined_term_folds_left _ Ha Hc)).
Defined.

Lemma many_from_reads {A} (p : Parser A) : forall fuel s vs r,
  many_from p fuel s = Success vs r -> reads p s vs r.
Proof.
  induction fuel as [|fuel IH]; intros s vs r H; [discriminate|].
  simpl in H. destruct (p s) as [v r0 | | e |] eqn:E; try discriminate.
  - destruct (slen r0 <? slen s); [|discriminate].
    destruct (many_from p fuel r0) as [vs0 r1 | | |] eqn:E'; try discriminate.
    inversion H; subst. eapply reads_next; eauto.
  - inversion H; subst. apply reads_end; auto.
Qed.

Lemma many_reads {A} (p : Parser A) s vs r : many p s = Success vs r -> reads p s vs r.
Proof. apply many_from_reads. Qed.

Lemma reads_many {A} (p : Parser A) s vs r :
  (forall n, eager n p) -> reads p s vs r -> many p s = Success vs r.
Proof.
  intros Hp. induction 1 as [s E | s v r vs r' E _ IH]; rewrite many_unfold, E; auto.
  pose proof (Hp (S (slen s)) s (Nat.lt_succ_diag_r _)) as Hc. rewrite E in Hc. simpl in Hc.
  destruct (Nat.ltb_spec (slen r) (slen s)); [|lia]. rewrite IH. reflexivity.
Qed.

Section QueryParser.

Variable Navigation_Max : N.
Variable EdgeType_default : str.
Variable EdgeType_allowed_edge_types : list str.
Variable allowed_edge_types_text : str.

#[local] Abbreviation query_parser' :=
  (query_parser Navigation_Max EdgeType_default EdgeType_allowed_edge_types
                allowed_edge_types_text).
#[local] Abbreviation parse_query' :=
  (parse_query Navigation_Max EdgeType_default EdgeType_allowed_edge_types
               allowed_edge_types_text).
#[local] Abbreviation resolved_edge_type' := (resolved_edge_type EdgeType_default).
#[local] Abbreviation allowed' := (allowed EdgeType_allowed_edge_types).

(** [query_parser] once the preamble and the parts have been read. *)
Lemma query_parser_steps text maybe_preamble s1 parts s2 :
  optional preambleP text = Success maybe_preamble s1 ->
  many (part_parser Navigation_Max) s1 = Success parts s2 ->
  query_parser' text =
  if allowed' (resolved_edge_type' maybe_preamble)
  then Success (Query_ (rev (map (fill_edge_type (resolved_edge_type' maybe_preamble))
                                 parts))) s2
  else Raise (AttributeError
                (edge_type_message allowed_edge_types_text
                                   (resolved_edge_type' maybe_preamble))).
Proof.
  intros Hpre Hparts. unfold query_parser, bind. rewrite Hpre, Hparts.
  unfold allowed, resolved_edge_type.
  destruct (existsb _ _); reflexivity.
Qed.

Lemma many_from_never_fails {A} (p : Parser A) fuel s : many_from p fuel s <> Failure.
Proof.
  revert s. induction fuel as [|fuel IH]; intros s; simpl; [discriminate|].
  destruct (p s) as [v r | | e |]; try discriminate.
  destruct (slen r <? slen s); [|discriminate].
  specialize (IH r). destruct (many_from p fuel r); congruence.
Qed.

(** The parts are read to a list, or reading them raises. *)
Lemma parts_read_or_raise s1 :
  (exists parts s2, many (part_parser Navigation_Max) s1 = Success parts s2)
  \/ (exists e, many (part_parser Navigation_Max) s1 = Raise e).
Proof.
  pose proof (@tame_many _ _ _ (@eager_part_parser Navigation_Max (S (slen s1)))
                s1 (Nat.lt_succ_diag_r _)) as H.
  pose proof (@many_from_never_fails _ (part_parser Navigation_Max) (S (slen s1)) s1) as F.
  unfold many in *.
  destruct (many_from _ _ s1) as [parts s2 | | e |]; simpl in H; eauto;
    [congruence | contradiction].
Qed.

Lemma parse_raise {A} (p : Parser A) text e : p text = Raise e -> parse p text = Raises e.
Proof. intros H. unfold parse, skip, bind. rewrite H. reflexivity. Qed.

Lemma parse_returns {A} (p : Parser A) text v :
  parse p text = Returns v <-> p text = Success v EmptyString.
Proof.
  unfold parse, skip, bind, eof, success. split.
  - destruct (p text) as [w r | | |]; try discriminate.
    destruct r; try discriminate. intros H; inversion H; reflexivity.
  - intros ->. reflexivity.
Qed.

(** When the preamble of a query text settles on an edge type outside the
    allowed edge types, [parse_query] returns no query: once the parts
    have been read it raises the [AttributeError] whose message names the
    edge type and lists the allowed ones, and an exception raised while
    the parts are read escapes in its place. *)
Theorem invalid_edge_type_raises text d s1 :
  preambleP text = Success d s1 ->
  allowed' (resolved_edge_type' (Some d)) = false ->
  let edge_type := resolved_edge_type' (Some d) in
  (forall q, parse_query' text <> Returns q)
  /\ ((exists parts s2,
         many (part_parser Navigation_Max) s1 = Success parts s2
         /\ parse_query' text
            = Raises (AttributeError
                        (codes "Given edge_type " ++ edge_type
                           ++ codes " is not available. Use one of "
                           ++ allowed_edge_types_text)))
      \/ (exists e,
            many (part_parser Navigation_Max) s1 = Raise e
            /\ parse_query' text = Raises e)).
Proof.
  intros Hpre Hbad edge_type.
  assert (Ho : optional preambleP text = Success (Some d) s1).
  { unfold optional. rewrite Hpre. reflexivity. }
  assert (Hcases :
    (exists parts s2,
         many (part_parser Navigation_Max) s1 = Success parts s2
         /\ parse_query' text
            = Raises (AttributeError
                        (codes "Given edge_type " ++ edge_type
                           ++ codes " is not available. Use one of "
                           ++ allowed_edge_types_text)))
      \/ (exists e,
            many (part_parser Navigation_Max) s1 = Raise e
            /\ parse_query' text = Raises e)).
  { destruct (parts_read_or_raise s1) as [(parts & s2 & Hp) | (e & He)].
    - left. exists parts, s2. split; auto. apply parse_raise.
      rewrite (query_parser_steps _ Ho Hp). rewrite Hbad. reflexivity.
    - right. exists e. split; auto. apply parse_raise.
      unfold query_parser, bind. rewrite Ho, He. reflexivity. }
  split; auto.
  intros q. destruct Hcases as [(parts & s2 & _ & ->) | (e & _ & ->)]; discriminate.
Qed.

(** C10. A query text that parses is read as a preamble, if there is one,
    and then part by part to the end of the text; the query returned holds
    the parts in the reverse of this order, each with its navigation
    filled in: the part written first is the last element and the part
    written last is the first, the current part. *)
Theorem query_parts_reversed text q :
  parse_query' text = Returns q ->
  exists maybe_preamble s1 ps,
    optional preambleP text = Success maybe_preamble s1
    /\ reads (part_parser Navigation_Max) s1 ps EmptyString
    /\ let fill := fill_edge_type (resolved_edge_type' maybe_preamble) in
       q = Query_ (rev (map fill ps))
       /\ (forall p ps', ps = p :: ps' -> parts q = rev (map fill ps') ++ [fill p])
       /\ (forall p ps', ps = ps' ++ [p] -> parts q = fill p :: rev (map fill ps')).
Proof.
  intros H. apply parse_returns in H.
  pose proof H as H'. unfold query_parser, bind in H'.
  destruct (optional preambleP text) as [mp s1 | | |] eqn:Ho; try discriminate.
  destruct (many (part_parser Navigation_Max) s1) as [ps s2 | | |] eqn:Hp;
    try discriminate.
  clear H'. rewrite (query_parser_steps _ Ho Hp) in H.
  destruct (allowed' _); [|discriminate].
  inversion H; subst. exists mp, s1, ps. split; [reflexivity|].
  split; [apply many_reads, Hp|]. simpl. split; [reflexivity|]. split.
  - intros p ps' ->. reflexivity.
  - intros p ps' ->. rewrite map_app, rev_app_distr. reflexivity.
Qed.

(** A navigation written without a range is one hop: [start = until = 1]. *)
Lemma edge_definition_default s maybe_edge_type s1 :
  optional literalP s = Success maybe_edge_type s1 ->
  range_parser Navigation_Max s1 = Failure ->
  edge_definition Navigation_Max s = Success (1%N, 1%N, maybe_edge_type) s1.
Proof.
  intros Hl Hr. unfold edge_definition, bind. rewrite Hl.
  unfold optional. rewrite Hr. reflexivity.
Qed.

End QueryParser.

(** The edge type [foo] is not allowed. *)
Lemma invalid_edge_type_raises_witness :
  Sample.parse_query "edge_type=foo: a < 1 --> b > 2"
  = Raises (AttributeError
              (codes "Given edge_type foo is not available. Use one of {'default', 'delete'}")).
Proof.
  assert (Hpre : preambleP "edge_type=foo: a < 1 --> b > 2"
                 = Success [(codes "edge_type", codes "foo")] "a < 1 --> b > 2")
    by (vm_compute; reflexivity).
  assert (Hbad : allowed Sample.EdgeType_allowed_edge_types
                   (resolved_edge_type Sample.EdgeType_default
                      (Some [(codes "edge_type", codes "foo")])) = false)
    by (vm_compute; reflexivity).
  destruct (proj2 (@invalid_edge_type_raises Sample.Navigation_Max Sample.EdgeType_default
                     Sample.EdgeType_allowed_edge_types Sample.allowed_edge_types_text
                     _ _ _ Hpre Hbad)) as [(ps & s2 & _ & H) | (e & He & _)].
  - exact H.
  - vm_compute in He. discriminate He.
Defined.

(** C7. With the edge type [foo], which is not allowed, in the preamble and
    a lone dot where a value is expected, [parse_query] raises the
    [ValueError] of [float] on the dot, not the error that names the edge
    type: [floatP] reads the dot as a float with no digits, and the edge
    type is only looked at after the parts have been read. *)
Lemma invalid_edge_type_not_always_reported :
  preambleP "edge_type=foo: a < ."
  = Success [(codes "edge_type", codes "foo")] "a < ."
  /\ allowed Sample.EdgeType_allowed_edge_types (codes "foo") = false
  /\ Sample.parse_query "edge_type=foo: a < ." = Raises (ValueError (codes ".")).
Proof. repeat split; vm_compute; reflexivity. Qed.

Lemma query_parts_reversed_witness :
  exists first second,
    reads (part_parser Sample.Navigation_Max) two_part_query [first; second] EmptyString
    /\ Sample.parse_query two_part_query
       = Returns (Query_ [second; fill_edge_type Sample.EdgeType_default first]).
Proof.
  assert (H : Sample.parse_query two_part_query
              = Returns (Query_
                  [Part_ (pred_ "some.int.value" "<" 1) false None;
                   Part_ (CombinedTerm (pred_ "cpu" ">" 4) "and"
                            (CombinedTerm (pred_ "mem" "<" 23) "or" (pred_ "mem" "<" 59)))
                         false
                         (Some (mkNavigation 1 1 (Some Sample.EdgeType_default) "out"))]))
    by (vm_compute; reflexivity).
  destruct (@query_parts_reversed Sample.Navigation_Max Sample.EdgeType_default
              Sample.EdgeType_allowed_edge_types Sample.allowed_edge_types_text
              two_part_query _ H)
    as (mp & s1 & ps & Ho & Hr & Hq & _).
  vm_compute in Ho. inversion Ho; subst mp s1.
  exists (Part_ (CombinedTerm (pred_ "cpu" ">" 4) "and"
                   (CombinedTerm (pred_ "mem" "<" 23) "or" (pred_ "mem" "<" 59)))
                false (Some (mkNavigation 1 1 None "out"))),
         (Part_ (pred_ "some.int.value" "<" 1) false None).
  split; [|vm_compute; reflexivity].
  apply many_reads. vm_compute. reflexivity.
Defined.

(** *** Simplification *)

Lemma laws_simplified a op b :
  simplify a = a -> simplify b = b -> simplify (laws a op b) = laws a op b.
Proof.
  intros Ha Hb. unfold laws.
  destruct (str_eqb op op_and) eqn:Eand.
  - destruct (is_all a) eqn:Ea; auto. destruct (is_all b) eqn:Eb; auto.
    simpl. rewrite Ha, Hb. unfold laws. rewrite Eand, Ea, Eb. reflexivity.
  - destruct (str_eqb op op_or) eqn:Eor.
    + destruct (is_all a) eqn:Ea; simpl; auto. destruct (is_all b) eqn:Eb; simpl; auto.
      rewrite Ha, Hb. unfold laws. rewrite Eand, Eor, Ea, Eb. reflexivity.
    + simpl. rewrite Ha, Hb. unfold laws. rewrite Eand, Eor. reflexivity.
Qed.

Lemma map_fixed {A} (f : A -> A) (l : list A) :
  Forall (fun x => f (f x) = f x) l -> map f (map f l) = map f l.
Proof. induction 1; simpl; congruence. Qed.

Lemma simplify_idempotent t : simplify (simplify t) = simplify t.
Proof.
  revert t.
  apply (@term_induction
           (fun t => simplify (simplify t) = simplify t)
           (fun m => simplify_merge (simplify_merge m) = simplify_merge m)
           (fun q => simplify_query (simplify_query q) = simplify_query q)
           (fun p => simplify_part (simplify_part p) = simplify_part p));
    try reflexivity.
  - intros l op r Hl Hr. simpl. apply laws_simplified; auto.
  - intros pre ms post Hpre Hms Hpost. simpl. rewrite Hpre, Hpost, map_fixed; auto.
  - intros n q Hq. simpl. rewrite Hq. reflexivity.
  - intros ps a Hps. simpl. rewrite map_fixed; auto.
  - intros t0 pin nav lim Ht. simpl. rewrite Ht. reflexivity.
Qed.

Lemma combine_and_all t : combine t op_and AllTerm = simplify t.
Proof.
  unfold combine, laws. simpl. destruct (is_all (simplify t)) eqn:E; auto.
  destruct (simplify t); try discriminate. reflexivity.
Qed.

Lemma combine_or_all t : combine t op_or AllTerm = AllTerm.
Proof.
  unfold combine, laws. simpl. rewrite orb_true_r. reflexivity.
Qed.

Lemma simplify_put c t u : simplify t = simplify u -> simplify (put c t) = simplify (put c u).
Proof. intros H. induction c; simpl; congruence. Qed.

(** C2. For every term [t], simplifying [combine(t, and, AllTerm)] gives
    the simplified [t], and simplifying [combine(t, or, AllTerm)] gives
    [AllTerm]; the same holds with the combination placed anywhere inside a
    larger term, at any depth. *)
Theorem simplify_identity_and_absorption :
  (forall t, simplify (combine t op_and AllTerm) = simplify t)
  /\ (forall t, simplify (combine t op_or AllTerm) = AllTerm)
  /\ (forall c t, simplify (put c (CombinedTerm t op_and AllTerm)) = simplify (put c t))
  /\ (forall c t, simplify (put c (CombinedTerm t op_or AllTerm)) = simplify (put c AllTerm)).
Proof.
  repeat split; intros.
  - rewrite combine_and_all. apply simplify_idempotent.
  - rewrite combine_or_all. reflexivity.
  - apply simplify_put. change (combine t op_and AllTerm = simplify t).
    apply combine_and_all.
  - apply simplify_put. change (combine t op_or AllTerm = simplify AllTerm).
    apply combine_or_all.
Qed.

(** [test_simplify]: [AllTerm() & ((P(test) == True) & (IsTerm([test]) | AllTerm()))]
    is the predicate alone. *)
Example test_simplify_nested :
  let p := Predicate "test" "==" (VBool true) [] in
  or_term (IsTerm [codes "test"]) AllTerm = AllTerm
  /\ and_term (IsTerm [codes "test"]) AllTerm = IsTerm [codes "test"]
  /\ and_term AllTerm (and_term p (or_term (IsTerm [codes "test"]) AllTerm)) = p
  /\ simplify (CombinedTerm AllTerm op_and
                 (CombinedTerm p op_and (CombinedTerm (IsTerm [codes "test"]) op_or AllTerm)))
     = p.
Proof. repeat split. Qed.

(** C9 (as amended). The bare identifier [ec2] is no term of this grammar
    and [parse_query] rejects it with a [ParseError]; the kind test is
    written [isinstance] with the kind in double quotes and in parentheses,
    which parses to a query of one part whose term is the kind test of
    [ec2]. *)
Theorem bare_identifier_rejected
    (Navigation_Max : N) (EdgeType_default : str)
    (EdgeType_allowed_edge_types : list str) (allowed_edge_types_text : str) :
  allowed EdgeType_allowed_edge_types EdgeType_default = true ->
  parse_query Navigation_Max EdgeType_default EdgeType_allowed_edge_types
              allowed_edge_types_text "ec2" = ParseError
  /\ parse_query Navigation_Max EdgeType_default EdgeType_allowed_edge_types
                 allowed_edge_types_text kind_test_text
     = Returns (Query_ [Part_ (IsInstanceTerm (codes "ec2")) false None]).
Proof.
  intros Hd. split.
  - assert (Ho : optional preambleP "ec2" = Success None "ec2") by (vm_compute; reflexivity).
    assert (Hp : many (part_parser Navigation_Max) "ec2" = Success [] "ec2")
      by (vm_compute; reflexivity).
    unfold parse_query, parse, skip, bind.
    rewrite (query_parser_steps _ _ _ _ _ Ho Hp).
    unfold resolved_edge_type. simpl dict_get. rewrite Hd. reflexivity.
  - apply parse_returns.
    assert (Ho : optional preambleP kind_test_text = Success None kind_test_text)
      by (vm_compute; reflexivity).
    assert (Hp : many (part_parser Navigation_Max) kind_test_text
                 = Success [Part_ (IsInstanceTerm (codes "ec2")) false None] EmptyString)
      by (vm_compute; reflexivity).
    rewrite (query_parser_steps _ _ _ _ _ Ho Hp).
    unfold resolved_edge_type. simpl dict_get. rewrite Hd. reflexivity.
Qed.

Lemma bare_identifier_rejected_witness :
  Sample.parse_query "ec2" = ParseError
  /\ Sample.parse_query kind_test_text
     = Returns (Query_ [Part_ (IsInstanceTerm (codes "ec2")) false None]).
Proof.
  assert (Hd : allowed Sample.EdgeType_allowed_edge_types Sample.EdgeType_default = true)
    by (vm_compute; reflexivity).
  exact (@bare_identifier_rejected Sample.Navigation_Max Sample.EdgeType_default
           Sample.EdgeType_allowed_edge_types Sample.allowed_edge_types_text Hd).
Defined.

(** [parse_query] of the bare identifier returns no query. *)
Lemma bare_identifier_is_no_query : Sample.parse_query "ec2" = ParseError.
Proof. vm_compute. reflexivity. Qed.

(* ------------------------------------------------------------------ *)
(** ** Properties of the merge rewrite *)

Lemma str_eqb_eq a : forall b, str_eqb a b = true <-> a = b.
Proof.
  induction a as [|x a IH]; destruct b as [|y b]; simpl; split; intros H;
    try discriminate; auto.
  - apply andb_prop in H. destruct H as [Hx Hab].
    apply N.eqb_eq in Hx. apply IH in Hab. congruence.
  - inversion H; subst. rewrite N.eqb_refl. simpl. apply IH. reflexivity.
Qed.

Lemma str_eqb_refl a : str_eqb a a = true.
Proof. apply str_eqb_eq. reflexivity. Qed.

Lemma conjuncts_laws a b : conjuncts (laws a op_and b) = conjuncts a ++ conjuncts b.
Proof.
  unfold laws. rewrite str_eqb_refl.
  destruct (is_all a) eqn:Ea.
  { destruct a; try discriminate. reflexivity. }
  destruct (is_all b) eqn:Eb.
  { destruct b; try discriminate. simpl. rewrite app_nil_r. reflexivity. }
  cbn [conjuncts]. rewrite str_eqb_refl. reflexivity.
Qed.

Lemma filter_one {A} (f : A -> bool) (x : A) :
  filter f [x] = if f x then [x] else [].
Proof. reflexivity. Qed.

(** What is lifted is the conjuncts without an ancestor or descendant path,
    what stays is the conjuncts with one, each in the order of the term. *)
Lemma split_conjuncts_conjuncts t :
  conjuncts (fst (split_conjuncts t))
    = filter (fun c => negb (references_merge c)) (conjuncts t)
  /\ conjuncts (snd (split_conjuncts t)) = filter references_merge (conjuncts t).
Proof.
  assert (Hleaf : forall u, conjuncts u = [u] ->
            conjuncts (fst (if references_merge u then (AllTerm, u) else (u, AllTerm)))
              = filter (fun c => negb (references_merge c)) (conjuncts u)
            /\ conjuncts (snd (if references_merge u then (AllTerm, u) else (u, AllTerm)))
               = filter references_merge (conjuncts u)).
  { intros u Hu. rewrite Hu, !filter_one.
    destruct (references_merge u); simpl; auto. }
  induction t as [| | | | | l IHl op r IHr |]; try (apply Hleaf; reflexivity).
  - split; reflexivity.
  - cbn [split_conjuncts]. destruct (str_eqb op op_and) eqn:E.
    + assert (Hc : conjuncts (CombinedTerm l op r) = conjuncts l ++ conjuncts r)
        by (cbn [conjuncts]; rewrite E; reflexivity).
      rewrite Hc. clear Hc.
      destruct (split_conjuncts l) as [lb la], (split_conjuncts r) as [rb ra].
      cbn [fst snd] in *. destruct IHl as [IHl1 IHl2], IHr as [IHr1 IHr2].
      rewrite !conjuncts_laws, !filter_app. split; congruence.
    + apply (Hleaf (CombinedTerm l op r)). cbn [conjuncts]. rewrite E. reflexivity.
Qed.

Lemma split_filter_conjuncts t :
  is_or_term t = false ->
  conjuncts (fst (split_filter t))
    = filter (fun c => negb (references_merge c)) (conjuncts t)
  /\ conjuncts (snd (split_filter t)) = filter references_merge (conjuncts t).
Proof.
  intros H. unfold split_filter. rewrite H. apply split_conjuncts_conjuncts.
Qed.

Lemma split_filter_or t :
  is_or_term t = true -> split_filter t = (AllTerm, t).
Proof. intros H. unfold split_filter. rewrite H. reflexivity. Qed.

Section MergeRewriteFacts.

Variable Navigation_Max : N.
Variable EdgeType_default : str.
Variable is_resolved : str -> bool.

#[local] Abbreviation rewrite_part' := (rewrite_part Navigation_Max EdgeType_default is_resolved).
#[local] Abbreviation rewrite' :=
  (rewrite_for_ancestors_descendants Navigation_Max EdgeType_default is_resolved).
#[local] Abbreviation on_section' := (on_section Navigation_Max EdgeType_default is_resolved).

Lemma rewrite_part_term additional part part' :
  merge_paths is_resolved part additional <> [] ->
  rewrite_part' additional part = inr part' ->
  exists created,
    merge_queries_for Navigation_Max EdgeType_default part (merge_paths is_resolved part additional)
    = inr created
    /\ part' = mkPart (MergeTerm (fst (split_filter (filter_term (term part))))
                        (created ++ filter (fun m => negb (has_name (name m) created))
                                           (existing_merges (term part)))
                        (snd (split_filter (filter_term (term part)))))
                     (pinned part) (navigation part) (limit part).
Proof.
  intros Hne H. unfold rewrite_part in H.
  destruct (merge_paths is_resolved part additional) as [|p ps] eqn:Ep; [contradiction|].
  destruct (merge_queries_for _ _ part (p :: ps)) as [e | created]; [discriminate|].
  exists created. split; auto.
  destruct (split_filter (filter_term (term part))) as [pre post]. simpl.
  inversion H; reflexivity.
Qed.

(** C1. Where the ancestor and descendant rewrite applies to a query, the
    current part becomes a merge term over the filter of the part. When
    the filter is not an [or] at its top, [pre_filter] is the conjunction
    of exactly the conjuncts that reference no ancestor or descendant
    path, and [post_filter] the conjunction of exactly the conjuncts that
    reference one, both in the order of the filter; when the filter is an
    [or] at its top, [pre_filter] is [AllTerm] and [post_filter] is the
    whole filter. [on_section], with a section other than the root or
    with no section, is this rewrite after the rewriting of the paths. *)
Theorem merge_rewrite_splits_filter additional q q' current earlier :
  parts q = current :: earlier ->
  merge_paths is_resolved current (additional ++ aggregate_paths (aggregate q)) <> [] ->
  rewrite' additional q = inr q' ->
  let f := filter_term (term current) in
  (exists pre merges post,
      q' = mkQuery (mkPart (MergeTerm pre merges post)
                           (pinned current) (navigation current) (limit current)
                      :: earlier) (aggregate q)
      /\ (is_or_term f = false ->
          conjuncts pre = filter (fun c => negb (references_merge c)) (conjuncts f)
          /\ conjuncts post = filter references_merge (conjuncts f)
          /\ (forall c, In c (conjuncts f) -> references_merge c = false ->
                        In c (conjuncts pre))
          /\ (forall c, In c (conjuncts f) -> references_merge c = true ->
                        In c (conjuncts post)))
      /\ (is_or_term f = true -> pre = AllTerm /\ post = f))
  /\ (forall section q0,
        str_eqb section PathRoot = false ->
        on_section' section q0
        = rewrite' [] (map_query (variable_to_absolute section) q0))
  /\ (forall q0,
        on_section_default Navigation_Max EdgeType_default is_resolved q0
        = rewrite' [] (map_query strip_marker q0)).
Proof.
  intros Hparts Hne H f. split; [|split; [|reflexivity]].
  - unfold rewrite_for_ancestors_descendants in H. rewrite Hparts in H.
    destruct (rewrite_part' _ current) as [e | current'] eqn:E; [discriminate|].
    destruct (rewrite_part_term _ _ Hne E) as (created & _ & ->).
    inversion H; subst q'. clear H.
    eexists _, _, _. split; [reflexivity|]. fold f. split.
    + intros Hor. destruct (split_filter_conjuncts _ Hor) as [H1 H2].
      rewrite H1, H2. repeat split; auto.
      * intros c Hc Hr. apply filter_In. rewrite Hr. auto.
      * intros c Hc Hr. apply filter_In. auto.
    + intros Hor. rewrite (split_filter_or _ Hor). auto.
  - intros section q0 Hs. unfold on_section, absolute_path. rewrite Hs. reflexivity.
Qed.

End MergeRewriteFacts.

(** *** Merge queries are made once per name *)

Lemma has_name_in n ms : has_name n ms = true <-> In n (names ms).
Proof.
  unfold has_name. rewrite existsb_exists. split.
  - intros (x & Hx & E). apply str_eqb_eq in E. subst. exact Hx.
  - intros H. exists n. split; auto using str_eqb_refl.
Qed.

Lemma has_name_not_in n ms : has_name n ms = false <-> ~ In n (names ms).
Proof.
  rewrite <- has_name_in. destruct (has_name n ms); split; congruence.
Qed.

Lemma find_merge_some n ms m : find_merge n ms = Some m -> In m ms /\ name m = n.
Proof.
  intros H. apply find_some in H. destruct H as [Hin E].
  apply str_eqb_eq in E. auto.
Qed.

Lemma find_merge_none n ms m : find_merge n ms = None -> In m ms -> name m <> n.
Proof.
  intros H Hin E. pose proof (find_none _ _ H m Hin) as F. simpl in F.
  rewrite <- E, str_eqb_refl in F. discriminate.
Qed.

Lemma merge_target_name path ns kind n :
  merge_target path = Some (ns, kind, n) -> n = ns ++ dot ++ kind.
Proof.
  unfold merge_target. destruct (split_on 46 path) as [|a [|b [|c l]]]; try discriminate.
  destruct (_ || _); [|discriminate]. intros H; inversion H; reflexivity.
Qed.

Lemma names_app a b : names (a ++ b) = names a ++ names b.
Proof. apply map_app. Qed.

Lemma NoDup_names_same (ms : list MergeQuery) m m' :
  NoDup (names ms) -> In m ms -> In m' ms -> name m = name m' -> m = m'.
Proof.
  induction ms as [|x ms IH]; simpl; intros Hnd Hm Hm' E; [contradiction|].
  inversion Hnd as [|? ? Hx Hms]; subst.
  destruct Hm as [-> | Hm], Hm' as [-> | Hm']; auto.
  - exfalso. apply Hx. rewrite E. apply in_map, Hm'.
  - exfalso. apply Hx. rewrite <- E. apply in_map, Hm.
Qed.

Lemma NoDup_names_filter f (ms : list MergeQuery) :
  NoDup (names ms) -> NoDup (names (filter f ms)).
Proof.
  induction ms as [|x ms IH]; simpl; intros H; auto.
  inversion H as [|? ? Hx Hms]; subst. destruct (f x); simpl; auto.
  constructor; auto. intros Hin. apply Hx. unfold names in *.
  apply in_map_iff in Hin. destruct Hin as (y & E & Hy).
  apply filter_In in Hy. rewrite <- E. apply in_map, Hy.
Qed.

Section MergeOnce.

Variable Navigation_Max : N.
Variable EdgeType_default : str.
Variable is_resolved : str -> bool.

Lemma merge_queries_from_once existing :
  NoDup (names existing) ->
  forall paths acc created,
    NoDup (names acc) -> reuses existing acc ->
    merge_queries_from Navigation_Max EdgeType_default existing acc paths = inr created ->
    NoDup (names created) /\ reuses existing created.
Proof.
  intros Hex. induction paths as [|path paths IH]; simpl; intros acc created Hnd Hre H.
  - inversion H; subst. auto.
  - destruct (merge_target path) as [[[ns kind] n]|] eqn:Et; [|discriminate].
    destruct (has_name n acc) eqn:Eh; [eapply IH; eauto|].
    apply has_name_not_in in Eh.
    eapply IH; [| |exact H].
    + rewrite names_app. apply NoDup_app; auto.
      * simpl. constructor; [intros []|constructor].
      * intros a Ha [Hb|[]]. apply Eh. subst a.
        destruct (find_merge n existing) as [m|] eqn:Ef.
        -- apply find_merge_some in Ef. destruct Ef as [_ <-]. exact Ha.
        -- simpl in Ha. rewrite (merge_target_name _ Et). exact Ha.
    + intros x Hx m Hm E. apply in_app_or in Hx. destruct Hx as [Hx|[<-|[]]].
      * apply (Hre x Hx m Hm E).
      * destruct (find_merge n existing) as [m0|] eqn:Ef.
        -- apply find_merge_some in Ef. destruct Ef as [Hin _].
           apply (NoDup_names_same _ _ _ Hex Hm Hin E).
        -- exfalso. apply (find_merge_none _ _ Ef Hm). rewrite E. simpl.
           symmetry. apply (merge_target_name _ Et).
Qed.

(** C5 (as amended). The rewrite makes no second merge query under a name
    that the part already has one for: the names of the merge queries of
    the rewritten part are distinct and every merge query of the part is
    kept as it was. In the scenario of [test_merge_query_creation], where
    the property of the kind is not a resolved one, the merge queries are
    the new one for [ancestors.kind] followed by the kept one for
    [ancestors.cloud]. *)
Theorem existing_merge_is_reused additional part part' :
  NoDup (names (existing_merges (term part))) ->
  rewrite_part Navigation_Max EdgeType_default is_resolved additional part = inr part' ->
  NoDup (names (existing_merges (term part')))
  /\ (forall m, In m (existing_merges (term part)) -> In m (existing_merges (term part')))
  /\ (is_resolved (codes "ancestors.kind.reported.prop") = false ->
      rewrite_for_ancestors_descendants Navigation_Max EdgeType_default is_resolved
        sample_paths (query_with_cloud Navigation_Max EdgeType_default)
      = inr (Query_ [Part_ (MergeTerm (IsTerm [codes "test"])
                              [merge_query_for_kind Navigation_Max EdgeType_default
                                 ancestors (codes "kind");
                               cloud_merge Navigation_Max EdgeType_default]
                              AllTerm) false None])).
Proof.
  intros Hnd H. split; [|split];
    [| |intros Hk; vm_compute in Hk |- *; rewrite Hk; vm_compute; reflexivity].
  - destruct (merge_paths is_resolved part additional) as [|p ps] eqn:Ep.
    + unfold rewrite_part in H. rewrite Ep in H. inversion H; subst. exact Hnd.
    + assert (Hne : merge_paths is_resolved part additional <> []) by (rewrite Ep; discriminate).
      destruct (@rewrite_part_term Navigation_Max EdgeType_default is_resolved
                  additional part part' Hne H) as (created & Hc & ->). simpl.
      unfold merge_queries_for in Hc.
      destruct (@merge_queries_from_once _ Hnd _ [] created (NoDup_nil _)
                  (fun x (Hx : In x []) => match Hx with end) Hc) as [Hcn _].
      rewrite names_app. apply NoDup_app; auto using NoDup_names_filter.
      intros a Ha Hb. unfold names in Hb. apply in_map_iff in Hb.
      destruct Hb as (m & <- & Hm). apply filter_In in Hm. destruct Hm as [_ Hm].
      apply negb_true_iff, has_name_not_in in Hm. contradiction.
  - intros m Hm. destruct (merge_paths is_resolved part additional) as [|p ps] eqn:Ep.
    + unfold rewrite_part in H. rewrite Ep in H. inversion H; subst. exact Hm.
    + assert (Hne : merge_paths is_resolved part additional <> []) by (rewrite Ep; discriminate).
      destruct (@rewrite_part_term Navigation_Max EdgeType_default is_resolved
                  additional part part' Hne H) as (created & Hc & ->). simpl.
      unfold merge_queries_for in Hc.
      destruct (@merge_queries_from_once _ Hnd _ [] created (NoDup_nil _)
                  (fun x (Hx : In x []) => match Hx with end) Hc) as [_ Hre].
      apply in_or_app. destruct (has_name (name m) created) eqn:Eh.
      * left. apply has_name_in in Eh. unfold names in Eh. apply in_map_iff in Eh.
        destruct Eh as (x & E & Hx). rewrite (Hre x Hx m Hm (eq_sym E)). exact Hx.
      * right. apply filter_In. rewrite Eh. auto.
Qed.

End MergeOnce.

(* ------------------------------------------------------------------ *)
(** ** Sections: there and back *)

Lemma starts_with_app prefix s : starts_with prefix (prefix ++ s) = true.
Proof. induction prefix; simpl; auto. rewrite N.eqb_refl. auto. Qed.

Lemma skipn_length_app {A} (l1 l2 : list A) : skipn (length l1) (l1 ++ l2) = l2.
Proof. induction l1; simpl; auto. Qed.

(** A path comes back from a section unless it was meta-rooted and went on
    with the name of the section and a dot. *)
Lemma path_round_trip section path :
  (meta_rooted path = true -> starts_with (section ++ dot) (skipn 1 path) = false) ->
  variable_to_relative section (variable_to_absolute section path) = path.
Proof.
  intros H. unfold variable_to_absolute. destruct (meta_rooted path) eqn:Em.
  - unfold variable_to_relative. rewrite (H eq_refl).
    unfold meta_rooted in Em. change PathRoot with [47%N] in *.
    destruct path as [|c path]; [discriminate|]. cbn [starts_with] in Em.
    apply andb_prop in Em. destruct Em as [Em _]. apply N.eqb_eq in Em.
    subst c. reflexivity.
  - unfold variable_to_relative. rewrite app_assoc, starts_with_app.
    apply skipn_length_app.
Qed.

Lemma map_round_trip {A} (f g : A -> A) (l : list A) :
  Forall (fun x => g (f x) = x) l -> map g (map f l) = l.
Proof. induction 1; simpl; congruence. Qed.

Lemma Forall_flat_map {A B} (P : B -> Prop) (Q : A -> Prop) (f : A -> list B) (l : list A) :
  Forall (fun x => Forall P (f x) -> Q x) l -> Forall P (flat_map f l) -> Forall Q l.
Proof.
  induction 1 as [|x l Hx _ IH]; simpl; intros H; constructor;
    apply Forall_app in H; destruct H; auto.
Qed.

Section RoundTrip.

Variables f g : str -> str.

Lemma aggregate_round_trip a :
  Forall (comes_back f g) (aggregate_paths a) ->
  option_map (map_aggregate g) (option_map (map_aggregate f) a) = a.
Proof.
  destruct a as [[keys funcs]|]; simpl; auto. intros H.
  apply Forall_app in H. destruct H as [Hk Hf].
  unfold map_aggregate. simpl. rewrite (map_round_trip _ _ Hk). do 2 f_equal.
  rewrite map_map. simpl. clear Hk.
  induction funcs as [|[fn [p|n]] funcs IH]; simpl in *; auto.
  - inversion Hf as [|? ? Hp Hrest]; subst. rewrite Hp, IH; auto.
  - rewrite IH; auto.
Qed.

Lemma map_query_round_trip q :
  Forall (comes_back f g) (all_paths_query q) -> map_query g (map_query f q) = q.
Proof.
  revert q.
  apply (@query_induction
           (fun t => Forall (comes_back f g) (all_paths t) -> map_term g (map_term f t) = t)
           (fun m => Forall (comes_back f g) (all_paths_merge m) -> map_merge g (map_merge f m) = m)
           (fun q => Forall (comes_back f g) (all_paths_query q) -> map_query g (map_query f q) = q)
           (fun p => Forall (comes_back f g) (all_paths_part p) -> map_part g (map_part f p) = p));
    simpl; auto.
  - intros n op v args H. inversion H as [|? ? Hn _]; subst. 
    rewrite Hn. reflexivity.
  - intros fn p args H. inversion H as [|? ? Hp _]; subst. 
    rewrite Hp. reflexivity.
  - intros l op r Hl Hr H. apply Forall_app in H. destruct H as [H1 H2].
    rewrite Hl, Hr; auto.
  - intros pre ms post Hpre Hms Hpost H.
    apply Forall_app in H. destruct H as [H1 H]. apply Forall_app in H. destruct H as [H2 H3].
    rewrite Hpre, Hpost; auto. f_equal.
    apply map_round_trip. eapply Forall_flat_map; eauto.
  - intros n q Hq H. rewrite Hq; auto.
  - intros ps a Hps H. apply Forall_app in H. destruct H as [H1 H2].
    rewrite aggregate_round_trip; auto. f_equal.
    apply map_round_trip. eapply Forall_flat_map; eauto.
  - intros t pin nav lim Ht H. rewrite Ht; auto.
Qed.

End RoundTrip.

Section FixedPaths.

Variable f : str -> str.

Lemma map_kept {A} (h : A -> A) (l : list A) :
  Forall (fun x => h x = x) l -> map h l = l.
Proof. induction 1; simpl; congruence. Qed.

Lemma aggregate_fixed a :
  Forall (fun path => f path = path) (aggregate_paths a) ->
  option_map (map_aggregate f) a = a.
Proof.
  destruct a as [[keys funcs]|]; simpl; auto. intros H.
  apply Forall_app in H. destruct H as [Hk Hf].
  unfold map_aggregate. simpl. rewrite (map_kept _ Hk). do 2 f_equal. clear Hk.
  induction funcs as [|[fn [p|n]] funcs IH]; simpl in *; auto.
  - inversion Hf as [|? ? Hp Hrest]; subst. rewrite Hp, IH; auto.
  - rewrite IH; auto.
Qed.

(** A query whose paths [f] leaves as they are is left as it is. *)
Lemma map_query_fixed q :
  Forall (fun path => f path = path) (all_paths_query q) -> map_query f q = q.
Proof.
  revert q.
  apply (@query_induction
           (fun t => Forall (fun path => f path = path) (all_paths t) -> map_term f t = t)
           (fun m => Forall (fun path => f path = path) (all_paths_merge m)
                     -> map_merge f m = m)
           (fun q => Forall (fun path => f path = path) (all_paths_query q)
                     -> map_query f q = q)
           (fun p => Forall (fun path => f path = path) (all_paths_part p)
                     -> map_part f p = p));
    simpl; auto.
  - intros n op v args H. inversion H as [|? ? Hn _]; subst.
    rewrite Hn. reflexivity.
  - intros fn p args H. inversion H as [|? ? Hp _]; subst.
    rewrite Hp. reflexivity.
  - intros l op r Hl Hr H. apply Forall_app in H. destruct H as [H1 H2].
    rewrite Hl, Hr; auto.
  - intros pre ms post Hpre Hms Hpost H.
    apply Forall_app in H. destruct H as [H1 H]. apply Forall_app in H. destruct H as [H2 H3].
    rewrite Hpre, Hpost; auto. f_equal.
    apply map_kept. eapply Forall_flat_map; eauto.
  - intros n q Hq H. rewrite Hq; auto.
  - intros ps a Hps H. apply Forall_app in H. destruct H as [H1 H2].
    rewrite aggregate_fixed; auto. f_equal.
    apply map_kept. eapply Forall_flat_map; eauto.
  - intros t pin nav lim Ht H. rewrite Ht; auto.
Qed.

End FixedPaths.

Section SectionRoundTrip.

Variable Navigation_Max : N.
Variable EdgeType_default : str.
Variable is_resolved : str -> bool.

(** Where the rewriting of the paths leaves no ancestor or descendant path
    to merge, [on_section] is the rewriting of the paths. *)
Lemma on_section_paths section q :
  no_merge_rewrite is_resolved section q ->
  on_section Navigation_Max EdgeType_default is_resolved section q
  = inr (map_query (absolute_path section) q).
Proof.
  intros Hno. unfold on_section, rewrite_for_ancestors_descendants.
  unfold no_merge_rewrite in Hno.
  destruct (parts (map_query (absolute_path section) q)) as [|current earlier]
    eqn:Ep; [reflexivity|].
  unfold rewrite_part. simpl app. rewrite Hno.
  destruct (map_query (absolute_path section) q) as [ps a]. simpl in *.
  subst ps. reflexivity.
Qed.


End SectionRoundTrip.


(* ------------------------------------------------------------------ *)
(** ** The scenarios of [model_test.py], evaluated *)

Module ScenarioTests.

Import Scenario.

Example rewrite_special :
  rewrite_ [] (by_ special)
  = inr (by_ (MergeTerm (CombinedTerm (lt "a" 1) op_or (gt "b" 1))
                        [merge_for ancestors (codes "d"); merge_for ancestors (codes "a")]
                        (CombinedTerm (lt "ancestors.d.c" 1) op_and
                                      (gt "ancestors.a.b" 1)))).
Proof. vm_compute. reflexivity. Qed.

Example rewrite_horrible :
  rewrite_ [] (by_ horrible)
  = inr (by_ (MergeTerm AllTerm [merge_for ancestors (codes "d")] horrible)).
Proof. vm_compute. reflexivity. Qed.

(** The same through [on_section()], from the text of the test. *)
Example on_section_special :
  on_section_default Sample.Navigation_Max Sample.EdgeType_default Sample.is_resolved
    (by_ (CombinedTerm
            (CombinedTerm (lt "ancestors.d.c" 1) op_and
                          (CombinedTerm (lt "a" 1) op_or (gt "b" 1)))
            op_and (gt "/ancestors.a.b" 1)))
  = rewrite_ [] (by_ special).
Proof. vm_compute. reflexivity. Qed.

(** A query with a resolved ancestor is not changed. *)
Example rewrite_resolved :
  rewrite_ [] (by_ (CombinedTerm (lt "a" 1) op_and
                      (Predicate "ancestors.cloud.reported.name" "==" (VStr "test") [])))
  = inr (by_ (CombinedTerm (lt "a" 1) op_and
                (Predicate "ancestors.cloud.reported.name" "==" (VStr "test") []))).
Proof. vm_compute. reflexivity. Qed.

(** A query with an ancestor that is not resolved gets a merge query. *)
Example rewrite_unknown :
  rewrite_ [] (by_ (CombinedTerm (lt "a" 1) op_and
                      (Predicate "ancestors.cloud.reported.kind" "==" (VStr "cloud") [])))
  = inr (by_ (MergeTerm (lt "a" 1) [merge_for ancestors (codes "cloud")]
                (Predicate "ancestors.cloud.reported.kind" "==" (VStr "cloud") []))).
Proof. vm_compute. reflexivity. Qed.

(** Existing merge queries are kept, after the new ones. *)
Example rewrite_keeps_children :
  let children := mkMergeQuery (codes "children[]")
                    (Query_ [Part_ AllTerm false None;
                             Part_ AllTerm false
                               (Some (mkNavigation 1 1 (Some Sample.EdgeType_default)
                                                   (codes "out")))]) in
  let kind_is_c := Predicate "ancestors.cloud.reported.kind" "==" (VStr "c") [] in
  rewrite_ [] (by_ (MergeTerm (lt "a" 1) [children] kind_is_c))
  = inr (by_ (MergeTerm (lt "a" 1) [merge_for ancestors (codes "cloud"); children]
                        kind_is_c)).
Proof. vm_compute. reflexivity. Qed.

(** A merge query that is given for [ancestors.cloud] is taken as it is. *)
Example rewrite_keeps_predefined :
  let region := mkMergeQuery (codes "ancestors.cloud")
                  (Query_ [Part_ (IsTerm [codes "region"]) false None;
                           Part_ AllTerm false
                             (Some (mkNavigation 1 1 (Some Sample.EdgeType_default)
                                                 (codes "out")))]) in
  let kind_is_c := Predicate "ancestors.cloud.reported.kind" "==" (VStr "c") [] in
  rewrite_ [] (by_ (MergeTerm (lt "a" 1) [region] kind_is_c))
  = inr (by_ (MergeTerm (lt "a" 1) [region] kind_is_c)).
Proof. vm_compute. reflexivity. Qed.

(** Several filters on one kind make one merge query. *)
Example rewrite_one_merge_per_kind :
  on_section_default Sample.Navigation_Max Sample.EdgeType_default Sample.is_resolved
    (by_ (CombinedTerm
            (CombinedTerm
               (CombinedTerm
                  (CombinedTerm (lt "/ancestors.a.b" 1) op_and (gt "ancestors.a.c" 1))
                  op_and (pred_ "ancestors.a.d" "==" 3))
               op_and (gt "ancestors.b.c" 1))
            op_and (pred_ "a" "==" 1)))
  = inr (by_ (MergeTerm (pred_ "a" "==" 1)
                [merge_for ancestors (codes "a"); merge_for ancestors (codes "b")]
                (CombinedTerm
                   (CombinedTerm
                      (CombinedTerm (lt "ancestors.a.b" 1) op_and (gt "ancestors.a.c" 1))
                      op_and (pred_ "ancestors.a.d" "==" 3))
                   op_and (gt "ancestors.b.c" 1)))).
Proof. vm_compute. reflexivity. Qed.

(** An ancestor in the group variable of an aggregation makes a merge. *)
Example rewrite_for_aggregation :
  on_section_default Sample.Navigation_Max Sample.EdgeType_default Sample.is_resolved
    (mkQuery [Part_ (IsTerm [codes "volume"]) false None]
             (Some (mkAggregate [codes "/ancestors.a.reported.name"]
                                [(codes "sum", inr 1%N)])))
  = inr (mkQuery [Part_ (MergeTerm (IsTerm [codes "volume"])
                            [merge_for ancestors (codes "a")] AllTerm) false None]
                 (Some (mkAggregate [codes "ancestors.a.reported.name"]
                                    [(codes "sum", inr 1%N)]))).
Proof. vm_compute. reflexivity. Qed.

(** A query without ancestors or descendants is not changed. *)
Example rewrite_nothing :
  rewrite_ [] (by_ (CombinedTerm (CombinedTerm (lt "a" 1) op_and (gt "b" 1)) op_or
                                 (pred_ "c" "==" 3)))
  = inr (by_ (CombinedTerm (CombinedTerm (lt "a" 1) op_and (gt "b" 1)) op_or
                           (pred_ "c" "==" 3))).
Proof. vm_compute. reflexivity. Qed.

(** [test_merge_query_creation] *)
Example merge_foo_created :
  merge_queries_for Sample.Navigation_Max Sample.EdgeType_default
                    (Part_ AllTerm false None) [codes "ancestors.foo.reported.bla"]
  = inr [merge_for ancestors (codes "foo")]
  /\ merge_queries_for Sample.Navigation_Max Sample.EdgeType_default
       (Part_ (MergeTerm AllTerm [merge_for ancestors (codes "foo")] AllTerm) false None)
       [codes "ancestors.foo.reported.bla"]
     = inr [merge_for ancestors (codes "foo")]
  /\ merge_queries_for Sample.Navigation_Max Sample.EdgeType_default
       (Part_ AllTerm false None) [codes "unknown.foo.reported.bla"]
     = inl (InvalidMergePath (codes "unknown.foo.reported.bla"))
  /\ merge_queries_for Sample.Navigation_Max Sample.EdgeType_default
       (Part_ AllTerm false None) [codes "ancestors.foo"]
     = inl (InvalidMergePath (codes "ancestors.foo")).
Proof. repeat split; vm_compute; reflexivity. Qed.

(** [test_on_section], the terms of the second part. *)
Example on_section_r :
  on_section_ (codes "r")
    (by_ (CombinedTerm (lt "a" 1) op_and (pred_ "/metadata.b" "==" 23)))
  = inr (by_ (CombinedTerm (lt "r.a" 1) op_and (pred_ "metadata.b" "==" 23))).
Proof. vm_compute. reflexivity. Qed.

(** [test_combine] *)
Example combine_appends_after_navigation :
  Query_combine (traverse_out Sample.EdgeType_default (by_ (pred_ "test" "==" 1)))
                (by_ (IsTerm [codes "foo"]))
  = inr (Query_ [Part_ (IsTerm [codes "foo"]) false None;
                 Part_ (pred_ "test" "==" 1) false
                       (Some (mkNavigation 1 1 (Some Sample.EdgeType_default)
                                           (codes "out")))]).
Proof. vm_compute. reflexivity. Qed.

Example combine_joins_current_parts :
  Query_combine (by_ (IsTerm [codes "foo"])) (by_ (IsTerm [codes "bla"]))
  = inr (by_ (CombinedTerm (IsTerm [codes "foo"]) op_and (IsTerm [codes "bla"]))).
Proof. vm_compute. reflexivity. Qed.

End ScenarioTests.

Lemma merge_rewrite_splits_filter_witness :
  exists pre merges post,
    Scenario.rewrite_ [] (by_ Scenario.special)
    = inr (mkQuery [mkPart (MergeTerm pre merges post) false None None] None)
    /\ conjuncts pre = [CombinedTerm (Scenario.lt "a" 1) op_or (Scenario.gt "b" 1)]
    /\ conjuncts post = [Scenario.lt "ancestors.d.c" 1; Scenario.gt "ancestors.a.b" 1].
Proof.
  destruct (Scenario.rewrite_ [] (by_ Scenario.special)) as [e | q'] eqn:E;
    [vm_compute in E; discriminate E|].
  assert (Hne : merge_paths Sample.is_resolved (Part_ Scenario.special false None)
                            ([] ++ aggregate_paths (aggregate (by_ Scenario.special))) <> [])
    by (vm_compute; discriminate).
  destruct (proj1 (@merge_rewrite_splits_filter Sample.Navigation_Max
                     Sample.EdgeType_default Sample.is_resolved [] (by_ Scenario.special) q'
                     (Part_ Scenario.special false None) [] eq_refl Hne E))
    as (pre & merges & post & -> & Hand & _).
  exists pre, merges, post. split; [reflexivity|].
  destruct (Hand eq_refl) as (Hpre & Hpost & _). split; assumption.
Defined.

Lemma existing_merge_is_reused_witness :
  exists part',
    rewrite_part Sample.Navigation_Max Sample.EdgeType_default Sample.is_resolved
      (sample_paths)
      (Part_ (MergeTerm (IsTerm [codes "test"])
                [cloud_merge Sample.Navigation_Max Sample.EdgeType_default] AllTerm)
             false None)
    = inr part'
    /\ NoDup (names (existing_merges (term part')))
    /\ In (cloud_merge Sample.Navigation_Max Sample.EdgeType_default)
          (existing_merges (term part')).
Proof.
  destruct (rewrite_part Sample.Navigation_Max Sample.EdgeType_default Sample.is_resolved
              sample_paths
              (Part_ (MergeTerm (IsTerm [codes "test"])
                        [cloud_merge Sample.Navigation_Max Sample.EdgeType_default] AllTerm)
                     false None)) as [e | part'] eqn:E;
    [vm_compute in E; discriminate E|].
  assert (Hnd : NoDup (names (existing_merges
                  (term (Part_ (MergeTerm (IsTerm [codes "test"])
                           [cloud_merge Sample.Navigation_Max Sample.EdgeType_default]
                           AllTerm) false None))))).
  { simpl. constructor; [intros []|constructor]. }
  destruct (@existing_merge_is_reused Sample.Navigation_Max Sample.EdgeType_default
              Sample.is_resolved
              _ _ _ Hnd E) as (H1 & H2 & _).
  exists part'. split; [reflexivity|]. split; [exact H1|].
  apply H2. simpl. left. reflexivity.
Defined.

(** In the scenario of the test the merge query for [ancestors.kind] comes
    first and the one for [ancestors.cloud] second. *)
Lemma new_merge_comes_first :
  exists pre merges post,
    Scenario.rewrite_ sample_paths
      (query_with_cloud Sample.Navigation_Max Sample.EdgeType_default)
    = inr (by_ (MergeTerm pre merges post))
    /\ names merges = [codes "ancestors.kind"; codes "ancestors.cloud"]
    /\ names merges <> [codes "ancestors.cloud"; codes "ancestors.kind"].
Proof.
  eexists _, _, _. split; [vm_compute; reflexivity|].
  split; [vm_compute; reflexivity|]. vm_compute. discriminate.
Qed.





(* ------------------------------------------------------------------ *)
(** ** What the grammar builds, and what escapes from it *)

Lemma yields_weaken {A} (P Q : A -> Prop) (E F : PyExn -> Prop) (p : Parser A) :
  yields P E p -> (forall v, P v -> Q v) -> (forall e, E e -> F e) -> yields Q F p.
Proof. intros H HP HE s. specialize (H s). destruct (p s); auto. Qed.

Lemma yields_values {A} (P Q : A -> Prop) E (p : Parser A) :
  yields P E p -> (forall v, P v -> Q v) -> yields Q E p.
Proof. intros H HP. apply yields_weaken with (P := P) (E := E); auto. Qed.

Lemma yields_success {A} (P : A -> Prop) E (v : A) : P v -> yields P E (success v).
Proof. intros H s. exact H. Qed.

Lemma yields_bind {A B} (P : A -> Prop) (Q : B -> Prop) E (p : Parser A) (f : A -> Parser B) :
  yields P E p -> (forall v, P v -> yields Q E (f v)) -> yields Q E (bind p f).
Proof.
  intros Hp Hf s. unfold bind. specialize (Hp s).
  destruct (p s) as [v r | | e |]; auto. apply (Hf v Hp r).
Qed.

Lemma yields_alt {A} (P : A -> Prop) E (p q : Parser A) :
  yields P E p -> yields P E q -> yields P E (alt p q).
Proof.
  intros Hp Hq s. unfold alt. specialize (Hp s). specialize (Hq s).
  destruct (p s); auto.
Qed.

Lemma yields_pmap {A B} (f : A -> B) (P : A -> Prop) (Q : B -> Prop) E (p : Parser A) :
  yields P E p -> (forall v, P v -> Q (f v)) -> yields Q E (pmap f p).
Proof. intros Hp Hf. eapply yields_bind; eauto. intros v Hv. apply yields_success; auto. Qed.

Lemma yields_pmap_raising {A B} (f : A -> PyExn + B) (P : A -> Prop) (Q : B -> Prop) E
    (p : Parser A) :
  yields P E p ->
  (forall v, P v -> match f v with inl e => E e | inr b => Q b end) ->
  yields Q E (pmap_raising f p).
Proof.
  intros Hp Hf. eapply yields_bind; eauto. intros v Hv s. specialize (Hf v Hv).
  destruct (f v); auto.
Qed.

Lemma yields_then {A B} (P : A -> Prop) (Q : B -> Prop) E (p : Parser A) (q : Parser B) :
  yields P E p -> yields Q E q -> yields Q E (p >> q).
Proof. intros Hp Hq. eapply yields_bind; eauto. Qed.

Lemma yields_skip {A B} (P : A -> Prop) (Q : B -> Prop) E (p : Parser A) (q : Parser B) :
  yields P E p -> yields Q E q -> yields P E (p << q).
Proof.
  intros Hp Hq. eapply yields_bind; eauto. intros v Hv.
  eapply yields_bind; eauto. intros w _. apply yields_success, Hv.
Qed.

Lemma yields_result {A B} (P : A -> Prop) (Q : B -> Prop) E (p : Parser A) (v : B) :
  yields P E p -> Q v -> yields Q E (result p v).
Proof. intros Hp Hv. eapply yields_then; eauto. apply yields_success, Hv. Qed.

Lemma yields_optional {A} (P : A -> Prop) E (p : Parser A) :
  yields P E p ->
  yields (fun o => match o with Some v => P v | None => True end) E (optional p).
Proof. intros Hp s. unfold optional. specialize (Hp s). destruct (p s); auto. Qed.

Lemma yields_many {A} (P : A -> Prop) E (p : Parser A) :
  yields P E p -> yields (Forall P) E (many p).
Proof.
  intros Hp s. unfold many. generalize (S (slen s)) as fuel. intros fuel. revert s.
  induction fuel as [|fuel IH]; intros s; simpl; auto.
  specialize (Hp s). destruct (p s) as [v r | | e |]; auto.
  destruct (slen r <? slen s); auto.
  specialize (IH r). destruct (many_from p fuel r); auto.
Qed.

Lemma yields_plus {A} (P Q R : list A -> Prop) E (p q : Parser (list A)) :
  yields P E p -> yields Q E q -> (forall a b, P a -> Q b -> R (a ++ b)) ->
  yields R E (plus p q).
Proof.
  intros Hp Hq H. eapply yields_bind; eauto. intros a Ha.
  eapply yields_bind; eauto. intros b Hb. apply yields_success; auto.
Qed.

Lemma yields_times1 {A} (P : A -> Prop) E (p : Parser A) :
  yields P E p -> yields (Forall P) E (times1 p).
Proof. intros Hp. eapply yields_pmap; eauto. Qed.

Lemma yields_at_least1 {A} (P : A -> Prop) E (p : Parser A) :
  yields P E p -> yields (Forall P) E (at_least1 p).
Proof.
  intros Hp. eapply yields_plus; eauto using yields_times1, yields_many.
  intros a b Ha Hb. apply Forall_app; auto.
Qed.

Lemma yields_sep_by {A B} (P : A -> Prop) (Q : B -> Prop) E (p : Parser A) (sep : Parser B) :
  yields P E p -> yields Q E sep -> yields (Forall P) E (sep_by p sep).
Proof.
  intros Hp Hs. apply yields_alt; [|apply yields_success; constructor].
  eapply yields_plus; eauto using yields_times1, yields_many, yields_then.
  intros a b Ha Hb. apply Forall_app; auto.
Qed.

Lemma yields_pstring lit E : yields (fun v => v = codes lit) E (pstring lit).
Proof. intros s. unfold pstring. destruct (strip_prefix lit s); auto. Qed.

Lemma yields_alts {A} (P : A -> Prop) E (ps : list (Parser A)) :
  Forall (yields P E) ps -> yields P E (alts ps).
Proof.
  destruct ps as [|p ps]; simpl; intros H.
  - intros s. exact I.
  - inversion H as [|? ? Hp Hps]; subst. clear H.
    revert p Hp. induction Hps as [|q ps Hq Hps IH]; simpl; intros p Hp; auto.
    apply IH. apply yields_alt; auto.
Qed.

Lemma yields_regex_star f E : yields (fun _ => True) E (regex_star f).
Proof. intros s. unfold regex_star. destruct (span f s); auto. Qed.

Lemma yields_lexeme {A} (P : A -> Prop) E (p : Parser A) : yields P E p -> yields P E (lexeme p).
Proof.
  intros Hp. unfold lexeme.
  eapply yields_skip; [eapply yields_then; eauto|]; apply yields_regex_star.
Qed.

Lemma N_of_ascii_in_class f c : in_class f (N_of_ascii c) = f c.
Proof.
  unfold in_class. rewrite ascii_N_embedding.
  pose proof (N_ascii_bounded c) as H. apply N.ltb_lt in H. rewrite H. reflexivity.
Qed.

Lemma span_in_class f : forall s, forallb (in_class f) (fst (span f s)) = true.
Proof.
  induction s as [|c s IH]; simpl; auto.
  destruct (f c) eqn:E; simpl; auto.
  destruct (span f s); simpl in *. rewrite N_of_ascii_in_class, E. auto.
Qed.

Lemma yields_regex_one_star f g E :
  yields (fun v => one_star f g v = true) E (regex_one_star f g).
Proof.
  intros s. unfold regex_one_star. destruct s as [|c s]; auto.
  destruct (f c) eqn:Ef; auto. pose proof (span_in_class g s) as H.
  destruct (span g s); simpl in *. rewrite N_of_ascii_in_class, Ef. auto.
Qed.

Lemma yields_test_char f E :
  yields (fun v => forallb (in_class f) v = true) E (test_char f).
Proof.
  intros s. unfold test_char. destruct s as [|c s]; auto.
  destruct (f c) eqn:Ef; auto. simpl. rewrite N_of_ascii_in_class, Ef. auto.
Qed.

Lemma yields_lexeme_strings (lits : list string) E :
  yields (fun v => one_of v lits = true) E (alts (map (fun a => lexeme (pstring a)) lits)).
Proof.
  apply yields_alts. apply Forall_forall. intros p Hp.
  apply in_map_iff in Hp. destruct Hp as (lit & <- & Hin).
  apply yields_lexeme. eapply yields_values; [apply yields_pstring|].
  intros v ->. unfold one_of. apply existsb_exists. exists lit. split; auto.
  apply str_eqb_refl.
Qed.

Lemma forallb_concat {A} (f : A -> bool) (l : list (list A)) :
  Forall (fun v => forallb f v = true) l -> forallb f (concat l) = true.
Proof.
  induction 1 as [|v l Hv _ IH]; simpl; auto.
  rewrite forallb_app, Hv, IH. reflexivity.
Qed.

Lemma forallb_weaken {A} (f g : A -> bool) (l : list A) :
  (forall x, f x = true -> g x = true) -> forallb f l = true -> forallb g l = true.
Proof.
  intros H. induction l as [|x l IH]; simpl; auto.
  intros Hl. apply andb_true_iff in Hl. destruct Hl as [Hx Hl].
  rewrite (H x Hx), (IH Hl). reflexivity.
Qed.

Lemma Forall_forallb {A} (f : A -> bool) (l : list A) :
  Forall (fun x => f x = true) l -> forallb f l = true.
Proof. intros H. apply forallb_forall. apply Forall_forall. exact H. Qed.

(** *** Numbers *)

Lemma yields_digits E (p : Parser (list str)) :
  yields (Forall (fun v => forallb (in_class isdigit) v = true)) E p ->
  yields (fun v => forallb (in_class isdigit) v = true) E (concat_ p).
Proof. intros H. eapply yields_pmap; eauto. intros v. apply forallb_concat. Qed.

Lemma yields_integerP :
  yields (fun _ => True) (fun e => is_bad_numeral e = true) integerP.
Proof.
  unfold integerP. eapply yields_pmap_raising.
  - apply yields_digits, yields_at_least1, yields_test_char.
  - intros v Hv. unfold py_int. destruct (forallb is_decimal_code v) eqn:Ed; auto.
    simpl. rewrite Ed, andb_true_r.
    apply forallb_weaken with (f := in_class isdigit); auto.
    intros x Hx. unfold numeral_code. rewrite Hx. reflexivity.
Qed.

Lemma decimal_without_dot v :
  In 46%N v -> forallb is_decimal_code v = false.
Proof.
  induction v as [|c v IH]; simpl; [tauto|].
  intros [Hc | H]; [subst c; reflexivity | rewrite (IH H); apply andb_false_r].
Qed.

Lemma yields_floatP :
  yields (fun v => parsed_value v = true) (fun e => is_bad_numeral e = true) floatP.
Proof.
  unfold floatP.
  eapply yields_pmap_raising
    with (P := fun v => forallb numeral_code v = true /\ In 46%N v).
  - eapply yields_pmap
      with (P := fun l => Forall (fun v => forallb numeral_code v = true) l
                          /\ In (codes ".") l).
    + eapply yields_plus
        with (P := fun l => Forall (fun v => forallb numeral_code v = true) l
                            /\ In (codes ".") l)
             (Q := Forall (fun v => forallb numeral_code v = true)).
      * eapply yields_plus
          with (P := Forall (fun v => forallb numeral_code v = true))
               (Q := fun l => l = [codes "."]).
        -- eapply yields_values; [apply yields_many, yields_test_char|].
           intros l Hl. eapply Forall_impl; [|exact Hl]. intros v.
           apply forallb_weaken. intros x Hx. unfold numeral_code. rewrite Hx. reflexivity.
        -- eapply yields_result; [apply yields_pstring | reflexivity].
        -- intros a b Ha ->. split.
           ++ apply Forall_app. split; auto.
           ++ apply in_or_app. right. left. reflexivity.
      * eapply yields_values; [apply yields_many, yields_test_char|].
        intros l Hl. eapply Forall_impl; [|exact Hl]. intros v.
        apply forallb_weaken. intros x Hx. unfold numeral_code. rewrite Hx. reflexivity.
      * intros a b [Ha Hin] Hb. split.
        -- apply Forall_app. split; auto.
        -- apply in_or_app. left. exact Hin.
    + intros l [Hl Hin]. split.
      * apply forallb_concat, Hl.
      * apply in_concat. exists (codes "."). split; auto. left. reflexivity.
  - intros v [Hv Hin]. unfold py_float.
    destruct (forallb _ v && existsb is_decimal_code v) eqn:Ef.
    + simpl. unfold is_float_literal. exact Ef.
    + simpl. rewrite Hv, (decimal_without_dot _ Hin). reflexivity.
Qed.

(** *** Parsers from which nothing, or a rejected numeral only, escapes *)

Lemma yields_raises_only {A} (P : A -> Prop) E (p : Parser A) :
  yields P E p -> raises_only E p.
Proof. intros H. eapply yields_values; eauto. Qed.

Lemma raises_only_success {A} E (v : A) : raises_only E (success v).
Proof. apply yields_success. exact I. Qed.

Lemma raises_only_bind {A B} E (p : Parser A) (f : A -> Parser B) :
  raises_only E p -> (forall v, raises_only E (f v)) -> raises_only E (bind p f).
Proof. intros Hp Hf. eapply yields_bind; eauto. intros v _. apply Hf. Qed.

Lemma raises_only_alt {A} E (p q : Parser A) :
  raises_only E p -> raises_only E q -> raises_only E (alt p q).
Proof. apply yields_alt. Qed.

Lemma raises_only_pmap {A B} (f : A -> B) E (p : Parser A) :
  raises_only E p -> raises_only E (pmap f p).
Proof. intros Hp. eapply yields_pmap; eauto. Qed.

Lemma raises_only_then {A B} E (p : Parser A) (q : Parser B) :
  raises_only E p -> raises_only E q -> raises_only E (p >> q).
Proof. intros. apply raises_only_bind; auto. Qed.

Lemma raises_only_skip {A B} E (p : Parser A) (q : Parser B) :
  raises_only E p -> raises_only E q -> raises_only E (p << q).
Proof. intros Hp Hq. eapply yields_skip; eauto. Qed.

Lemma raises_only_result {A B} E (p : Parser A) (v : B) :
  raises_only E p -> raises_only E (result p v).
Proof. intros Hp. eapply yields_result; eauto. Qed.

Lemma raises_only_optional {A} E (p : Parser A) :
  raises_only E p -> raises_only E (optional p).
Proof. intros Hp. eapply yields_raises_only, yields_optional, Hp. Qed.

Lemma raises_only_many {A} E (p : Parser A) : raises_only E p -> raises_only E (many p).
Proof. intros Hp. eapply yields_raises_only, yields_many, Hp. Qed.

Lemma raises_only_plus {A} E (p q : Parser (list A)) :
  raises_only E p -> raises_only E q -> raises_only E (plus p q).
Proof. intros Hp Hq. eapply yields_plus; eauto. Qed.

Lemma raises_only_sep_by {A B} E (p : Parser A) (sep : Parser B) :
  raises_only E p -> raises_only E sep -> raises_only E (sep_by p sep).
Proof. intros Hp Hs. eapply yields_raises_only, yields_sep_by; eauto. Qed.

Lemma raises_only_pstring E lit : raises_only E (pstring lit).
Proof. eapply yields_raises_only, yields_pstring. Qed.

Lemma raises_only_regex_star E f : raises_only E (regex_star f).
Proof. apply yields_regex_star. Qed.

Lemma raises_only_regex_one_star E f g : raises_only E (regex_one_star f g).
Proof. eapply yields_raises_only, yields_regex_one_star. Qed.

Lemma raises_only_lexeme {A} E (p : Parser A) : raises_only E p -> raises_only E (lexeme p).
Proof. apply yields_lexeme. Qed.

Lemma raises_only_lexeme_strings E (lits : list string) :
  raises_only E (alts (map (fun a => lexeme (pstring a)) lits)).
Proof. eapply yields_raises_only, yields_lexeme_strings. Qed.

Lemma raises_only_unicode_escape E : raises_only E unicode_escape.
Proof.
  intros s. unfold unicode_escape.
  destruct s as [|u [|a [|b [|c [|d r]]]]]; auto. destruct (_ && _); auto.
Qed.

Create HintDb escapes.
#[local] Hint Resolve raises_only_success raises_only_alt raises_only_pmap raises_only_then
  raises_only_skip raises_only_result raises_only_optional raises_only_many
  raises_only_plus raises_only_sep_by raises_only_pstring raises_only_regex_star
  raises_only_regex_one_star raises_only_lexeme raises_only_lexeme_strings
  raises_only_unicode_escape : escapes.

Ltac escapes_ := eauto 14 with escapes.

Lemma raises_only_whitespace E : raises_only E whitespace.
Proof. unfold whitespace. escapes_. Qed.

Lemma raises_only_operationP E : raises_only E operationP.
Proof. apply raises_only_lexeme_strings. Qed.

Lemma raises_only_functionP E : raises_only E functionP.
Proof. apply raises_only_lexeme_strings. Qed.

Lemma raises_only_preamblePropP E : raises_only E preamblePropP.
Proof. apply raises_only_lexeme_strings. Qed.

Lemma raises_only_lparenP E : raises_only E lparenP.
Proof. unfold lparenP. escapes_. Qed.
Lemma raises_only_rparenP E : raises_only E rparenP.
Proof. unfold rparenP. escapes_. Qed.
Lemma raises_only_lbrackP E : raises_only E lbrackP.
Proof. unfold lbrackP. escapes_. Qed.
Lemma raises_only_rbrackP E : raises_only E rbrackP.
Proof. unfold rbrackP. escapes_. Qed.
Lemma raises_only_colonP E : raises_only E colonP.
Proof. unfold colonP. escapes_. Qed.
Lemma raises_only_commaP E : raises_only E commaP.
Proof. unfold commaP. escapes_. Qed.
Lemma raises_only_dotdotP E : raises_only E dotdotP.
Proof. unfold dotdotP. escapes_. Qed.
Lemma raises_only_equalsP E : raises_only E equalsP.
Proof. unfold equalsP. escapes_. Qed.
Lemma raises_only_boolOpP E : raises_only E boolOpP.
Proof. unfold boolOpP. escapes_. Qed.
Lemma raises_only_variableP E : raises_only E variableP.
Proof. unfold variableP. escapes_. Qed.
Lemma raises_only_literalP E : raises_only E literalP.
Proof. unfold literalP. escapes_. Qed.

Lemma raises_only_string_esc E : raises_only E string_esc.
Proof.
  unfold string_esc. apply raises_only_then; [apply raises_only_pstring|].
  repeat apply raises_only_alt; auto with escapes.
Qed.

Lemma raises_only_quotedStringP E : raises_only E quotedStringP.
Proof.
  unfold quotedStringP, stringP, concat_, string_part, regex_plus.
  auto 14 using raises_only_string_esc with escapes.
Qed.

#[local] Hint Resolve raises_only_whitespace raises_only_operationP raises_only_functionP
  raises_only_preamblePropP raises_only_lparenP raises_only_rparenP raises_only_lbrackP
  raises_only_rbrackP raises_only_colonP raises_only_commaP raises_only_dotdotP
  raises_only_equalsP raises_only_boolOpP raises_only_variableP raises_only_literalP
  raises_only_quotedStringP : escapes.

(** *** Values and terms *)

Lemma yields_after {A B} (Q : B -> Prop) E (p : Parser A) (f : A -> Parser B) :
  raises_only E p -> (forall v, yields Q E (f v)) -> yields Q E (bind p f).
Proof. intros Hp Hf. eapply yields_bind; eauto. Qed.

Lemma yields_array_parser_of (v : Parser Value) :
  yields (fun x => parsed_value x = true) (fun e => is_bad_numeral e = true) v ->
  yields (fun l => forallb parsed_value l = true) (fun e => is_bad_numeral e = true)
         (array_parser_of v).
Proof.
  intros Hv. unfold array_parser_of.
  apply yields_after; auto with escapes. intros _.
  eapply yields_bind; [eapply yields_sep_by; [exact Hv | apply raises_only_commaP]|].
  intros elements He.
  apply yields_after; auto with escapes. intros _.
  apply yields_success. apply Forall_forallb, He.
Qed.

Lemma yields_trueP E : yields (fun x => parsed_value x = true) E trueP.
Proof. unfold trueP. eapply yields_result; [apply raises_only_lexeme, raises_only_pstring|]; auto. Qed.

Lemma yields_falseP E : yields (fun x => parsed_value x = true) E falseP.
Proof. unfold falseP. eapply yields_result; [apply raises_only_lexeme, raises_only_pstring|]; auto. Qed.

Lemma yields_nullP E : yields (fun x => parsed_value x = true) E nullP.
Proof. unfold nullP. eapply yields_result; [apply raises_only_lexeme, raises_only_pstring|]; auto. Qed.

Lemma yields_valueP_of (ap : Parser (list Value)) :
  yields (fun l => forallb parsed_value l = true) (fun e => is_bad_numeral e = true) ap ->
  yields (fun x => parsed_value x = true) (fun e => is_bad_numeral e = true) (valueP_of ap).
Proof.
  intros Hap. unfold valueP_of. repeat apply yields_alt.
  - eapply yields_pmap; [apply raises_only_quotedStringP|]. reflexivity.
  - apply yields_floatP.
  - eapply yields_pmap; [apply yields_integerP|]. reflexivity.
  - eapply yields_pmap; [apply Hap|]. auto.
  - apply yields_trueP.
  - apply yields_falseP.
  - apply yields_nullP.
Qed.

Lemma yields_valueP_upto d :
  yields (fun x => parsed_value x = true) (fun e => is_bad_numeral e = true) (valueP_upto d).
Proof.
  induction d as [|d IH]; simpl.
  - intros s. exact I.
  - apply yields_valueP_of, yields_array_parser_of, IH.
Qed.

Lemma yields_valueP :
  yields (fun x => parsed_value x = true) (fun e => is_bad_numeral e = true) valueP.
Proof. intros s. unfold valueP. apply yields_valueP_upto. Qed.

Lemma yields_variableP E : yields (fun v => is_variable v = true) E variableP.
Proof. unfold variableP. apply yields_lexeme. apply yields_regex_one_star. Qed.

Lemma yields_literalP E : yields (fun v => is_literal v = true) E literalP.
Proof. unfold literalP. apply yields_lexeme. apply yields_regex_one_star. Qed.

Lemma yields_operationP E : yields (fun v => one_of v operations = true) E operationP.
Proof. apply yields_lexeme_strings. Qed.

Lemma yields_functionP E : yields (fun v => one_of v functions = true) E functionP.
Proof. apply yields_lexeme_strings. Qed.

Lemma yields_boolOpP E : yields (fun v => one_of v bool_operations = true) E boolOpP.
Proof.
  unfold boolOpP. apply yields_lexeme. apply yields_alt;
    (eapply yields_values; [apply yields_pstring|]); intros v ->; reflexivity.
Qed.

Lemma yields_predicate_term :
  yields (fun t => parsed_term t = true) (fun e => is_bad_numeral e = true) predicate_term.
Proof.
  unfold predicate_term.
  eapply yields_bind; [apply yields_variableP|]. intros name Hname.
  eapply yields_bind; [apply yields_operationP|]. intros op Hop.
  eapply yields_bind; [apply yields_valueP|]. intros value Hvalue.
  apply yields_success. cbn beta. cbn [parsed_term]. rewrite Hname, Hop, Hvalue. reflexivity.
Qed.

Lemma yields_function_term :
  yields (fun t => parsed_term t = true) (fun e => is_bad_numeral e = true) function_term.
Proof.
  unfold function_term.
  eapply yields_bind; [apply yields_functionP|]. intros fn Hfn.
  apply yields_after; auto with escapes. intros _.
  eapply yields_bind; [apply yields_variableP|]. intros name Hname.
  eapply yields_bind;
    [apply yields_many, yields_then with (P := fun _ : str => True);
       [apply raises_only_commaP | apply yields_valueP]|].
  intros args Hargs.
  apply yields_after; auto with escapes. intros _.
  apply yields_success. cbn beta. cbn [parsed_term].
  rewrite Hfn, Hname, (Forall_forallb _ Hargs). reflexivity.
Qed.

Lemma yields_isinstance_term E : yields (fun t => parsed_term t = true) E isinstance_term.
Proof.
  unfold isinstance_term. eapply yields_pmap with (P := fun _ => True); [|reflexivity].
  fold (raises_only E (lexeme (pstring "isinstance" >> lparenP >> quotedStringP << rparenP))).
  escapes_.
Qed.

Lemma yields_id_term E : yields (fun t => parsed_term t = true) E id_term.
Proof.
  unfold id_term. eapply yields_pmap with (P := fun _ => True); [|reflexivity].
  fold (raises_only E (lexeme (pstring "id" >> lparenP >> quotedStringP << rparenP))).
  escapes_.
Qed.

Lemma yields_leafTermP :
  yields (fun t => parsed_term t = true) (fun e => is_bad_numeral e = true) leafTermP.
Proof.
  unfold leafTermP. repeat apply yields_alt.
  - apply yields_isinstance_term.
  - apply yields_id_term.
  - apply yields_predicate_term.
  - apply yields_function_term.
Qed.

Lemma yields_combined_loop (simple : Parser Term) :
  yields (fun t => parsed_term t = true) (fun e => is_bad_numeral e = true) simple ->
  forall turns result, parsed_term result = true ->
  yields (fun t => parsed_term t = true) (fun e => is_bad_numeral e = true)
         (combined_loop simple turns result).
Proof.
  intros Hs. induction turns as [|turns IH]; intros result Hr s.
  - exact I.
  - rewrite combined_loop_S.
    pose proof (yields_boolOpP (fun e => is_bad_numeral e = true) s) as Hop.
    destruct (boolOpP s) as [op r | | e |]; auto.
    specialize (Hs r). destruct (simple r) as [t r' | | e |]; auto.
    apply IH. cbn [parsed_term]. rewrite Hr, Hop, Hs. reflexivity.
Qed.

Lemma yields_combined_term_of (simple : Parser Term) :
  yields (fun t => parsed_term t = true) (fun e => is_bad_numeral e = true) simple ->
  yields (fun t => parsed_term t = true) (fun e => is_bad_numeral e = true)
         (combined_term_of simple).
Proof.
  intros Hs. unfold combined_term_of. eapply yields_bind; [exact Hs|].
  intros left Hl s. apply yields_combined_loop; auto.
Qed.

Lemma yields_simpleTermP_of (ct : Parser Term) :
  yields (fun t => parsed_term t = true) (fun e => is_bad_numeral e = true) ct ->
  yields (fun t => parsed_term t = true) (fun e => is_bad_numeral e = true)
         (simpleTermP_of ct).
Proof.
  intros Hc. unfold simpleTermP_of. apply yields_alt; [|apply yields_leafTermP].
  eapply yields_skip; [eapply yields_then; [apply raises_only_lparenP | exact Hc]|].
  apply raises_only_rparenP.
Qed.

Lemma yields_combined_term_upto d :
  yields (fun t => parsed_term t = true) (fun e => is_bad_numeral e = true)
         (combined_term_upto d).
Proof.
  induction d as [|d IH]; simpl.
  - intros s. exact I.
  - apply yields_combined_term_of, yields_simpleTermP_of, IH.
Qed.

Lemma yields_combined_term :
  yields (fun t => parsed_term t = true) (fun e => is_bad_numeral e = true) combined_term.
Proof. intros s. unfold combined_term. apply yields_combined_term_upto. Qed.

Lemma yields_simpleTermP :
  yields (fun t => parsed_term t = true) (fun e => is_bad_numeral e = true) simpleTermP.
Proof. apply yields_simpleTermP_of, yields_combined_term. Qed.

Lemma yields_term_parser :
  yields (fun t => parsed_term t = true) (fun e => is_bad_numeral e = true) term_parser.
Proof. unfold term_parser. apply yields_alt; [apply yields_combined_term | apply yields_simpleTermP]. Qed.

(** *** Navigation, parts and the query *)

Section GrammarYields.

Variable Navigation_Max : N.
Variable EdgeType_default : str.
Variable EdgeType_allowed_edge_types : list str.
Variable allowed_edge_types_text : str.

Lemma raises_only_range_parser :
  raises_only (fun e => is_bad_numeral e = true) (range_parser Navigation_Max).
Proof.
  unfold range_parser.
  apply raises_only_bind; auto with escapes. intros _.
  apply raises_only_bind; [apply (yields_raises_only yields_integerP)|]. intros start.
  apply raises_only_bind; auto 6 with escapes. intros has_end.
  apply raises_only_bind;
    [apply raises_only_optional, (yields_raises_only yields_integerP)|]. intros maybe_end.
  apply raises_only_bind; auto with escapes.
Qed.

Lemma yields_edge_definition :
  yields (fun nav => match snd nav with
                     | Some e => is_literal e = true
                     | None => True
                     end)
         (fun e => is_bad_numeral e = true) (edge_definition Navigation_Max).
Proof.
  unfold edge_definition.
  eapply yields_bind; [apply yields_optional, yields_literalP|]. intros maybe_edge_type He.
  apply yields_after; [apply raises_only_optional, raises_only_range_parser|].
  intros maybe_range. apply yields_success. exact He.
Qed.

Lemma to_navigation_parsed dir nav :
  one_of (codes dir) directions = true ->
  match snd nav with Some e => is_literal e = true | None => True end ->
  parsed_navigation (to_navigation dir nav) = true.
Proof.
  destruct nav as [[s u] e]. unfold parsed_navigation. simpl snd. cbn [to_navigation].
  cbn [direction edge_type]. intros -> He. destruct e; auto.
Qed.

Lemma yields_navigation_parser :
  yields (fun nav => parsed_navigation nav = true) (fun e => is_bad_numeral e = true)
         (navigation_parser Navigation_Max).
Proof.
  unfold navigation_parser, outP, inP, inOutP.
  repeat apply yields_alt;
    (eapply yields_pmap;
     [apply yields_lexeme;
      eapply yields_skip;
      [eapply yields_then; [apply raises_only_pstring | apply yields_edge_definition]
      |apply raises_only_pstring]
     |intros nav Hnav; apply to_navigation_parsed; [reflexivity | exact Hnav]]).
Qed.

Lemma yields_part_parser :
  yields (fun p => parsed_part p = true) (fun e => is_bad_numeral e = true)
         (part_parser Navigation_Max).
Proof.
  unfold part_parser.
  eapply yields_bind; [apply yields_term_parser|]. intros t Hterm.
  apply yields_after; auto with escapes. intros _.
  eapply yields_bind
    with (P := fun nav => match nav with
                          | Some nav => parsed_navigation nav = true
                          | None => True
                          end).
  { apply yields_alt; [|apply yields_success; exact I].
    eapply yields_pmap; [apply yields_navigation_parser|]. auto. }
  intros nav Hnav.
  apply yields_after; [unfold pin_parser; auto 6 with escapes|]. intros pinned.
  apply yields_success. unfold parsed_part, Part_. cbn [term navigation limit].
  rewrite Hterm. destruct nav; [rewrite Hnav|]; reflexivity.
Qed.

Lemma yields_preambleP E :
  yields (Forall (fun kv : str * str => fst kv = codes "edge_type")) E preambleP.
Proof.
  unfold preambleP. eapply yields_skip; [|apply raises_only_colonP].
  eapply yields_sep_by; [|apply raises_only_commaP].
  unfold preamble_value_parser.
  eapply yields_bind with (P := fun key => key = codes "edge_type").
  { unfold preamblePropP. simpl. apply yields_lexeme, yields_pstring. }
  intros key ->. apply yields_after; auto with escapes. intros _.
  apply yields_after; auto with escapes. intros value.
  apply yields_success. reflexivity.
Qed.

Lemma fill_edge_type_filled edge_type_of_query p :
  parsed_part p = true -> filled_part edge_type_of_query (fill_edge_type edge_type_of_query p) = true.
Proof.
  destruct p as [t pin [[s u e d]|] lim]; unfold parsed_part, filled_part, parsed_navigation;
    cbn [term navigation limit direction edge_type fill_edge_type]; auto.
  destruct e as [[|c e]|]; cbn [term navigation limit direction edge_type];
    rewrite ?str_eqb_refl; auto.
  - change (is_literal []) with false. rewrite !andb_false_r. discriminate.
  - destruct (is_literal (c :: e)); rewrite ?orb_true_r, ?andb_false_r; auto.
    discriminate.
Qed.

(** X1. Whatever query [parse_query] returns was built by the grammar: the
    edge type that the preamble settles on (or the default one) is an
    allowed one, the query has no aggregation, and every part has no limit,
    a term made of the predicates, function calls, kind and id tests of the
    grammar joined by [and] and [or] (no [AllTerm], no [MergeTerm]), and, if
    it navigates, a navigation in one of the three directions whose edge
    type is filled in: with the literal written in the arrow, or with the
    edge type of the query. *)
Theorem parsed_query_well_formed text q :
  parse_query Navigation_Max EdgeType_default EdgeType_allowed_edge_types
              allowed_edge_types_text text = Returns q ->
  exists maybe_preamble s1,
    optional preambleP text = Success maybe_preamble s1
    /\ let edge_type := resolved_edge_type EdgeType_default maybe_preamble in
       allowed EdgeType_allowed_edge_types edge_type = true
       /\ aggregate q = None
       /\ forallb (filled_part edge_type) (parts q) = true.
Proof.
  intros H. apply parse_returns in H.
  pose proof H as H'. unfold query_parser, bind in H'.
  destruct (optional preambleP text) as [mp s1 | | |] eqn:Ho; try discriminate.
  pose proof (yields_many yields_part_parser s1) as Hps.
  destruct (many (part_parser Navigation_Max) s1) as [ps s2 | | |] eqn:Hp;
    try discriminate.
  clear H'. rewrite (query_parser_steps _ _ _ _ _ Ho Hp) in H.
  exists mp, s1. split; [reflexivity|]. cbn zeta.
  destruct (allowed _ _) eqn:Ha; [|discriminate].
  inversion H; subst. split; [reflexivity|]. split; [reflexivity|].
  unfold Query_. cbn [parts]. apply forallb_forall. intros p Hin.
  apply In_rev in Hin. apply in_map_iff in Hin. destruct Hin as (p0 & <- & Hin).
  apply fill_edge_type_filled. rewrite Forall_forall in Hps. apply Hps, Hin.
Qed.

(** X2. The exceptions that escape from [parse_query] on a text within the
    limits of the interpreter, with no more than [nesting_limit]
    parentheses and brackets and no more than [digits_limit] characters:
    the [ValueError] of [int] or [float] on a run of digits and dots that
    is no number, raised while the text is read, or, once the preamble and
    all the parts have been read, the [AttributeError] that names an edge
    type that is not allowed. *)
Theorem parse_query_raises text e :
  opened text <= nesting_limit ->
  String.length text <= digits_limit ->
  parse_query Navigation_Max EdgeType_default EdgeType_allowed_edge_types
              allowed_edge_types_text text = Raises e ->
  is_bad_numeral e = true
  \/ exists maybe_preamble s1 parts s2,
       optional preambleP text = Success maybe_preamble s1
       /\ many (part_parser Navigation_Max) s1 = Success parts s2
       /\ allowed EdgeType_allowed_edge_types
                  (resolved_edge_type EdgeType_default maybe_preamble) = false
       /\ e = AttributeError
                (edge_type_message allowed_edge_types_text
                   (resolved_edge_type EdgeType_default maybe_preamble)).
Proof.
  unfold parse_query, parse, skip, bind. intros _ _ H.
  destruct (query_parser _ _ _ _ text) as [q r | | e' |] eqn:Hq; try discriminate.
  { unfold eof in H. destruct r; discriminate. }
  inversion H; subst e'. clear H.
  pose proof Hq as H'. unfold query_parser, bind in H'.
  pose proof (raises_only_optional (yields_raises_only (yields_preambleP (fun _ => False)))
                text) as Hpre.
  destruct (optional preambleP text) as [mp s1 | | e' |] eqn:Ho; try discriminate;
    [|contradiction].
  pose proof (yields_many yields_part_parser s1) as Hps.
  destruct (many (part_parser Navigation_Max) s1) as [ps s2 | | e' |] eqn:Hp;
    try discriminate.
  - right. exists mp, s1, ps, s2. repeat split; auto;
      rewrite (query_parser_steps _ _ _ _ _ Ho Hp) in Hq;
      destruct (allowed _ _); congruence.
  - left. inversion H'; subst. exact Hps.
Qed.

(** X3. Parsing comes to an end: on every text [parse_query] returns a
    query, fails with a parse error or raises, and so do the parsers of
    values, terms and parts where they are applied; the loops of the
    grammar ([many], the [while] of [combined_term], the recursion through
    parentheses and brackets) read some text on every turn. *)
Theorem parse_query_comes_to_an_end text :
  parse_query Navigation_Max EdgeType_default EdgeType_allowed_edge_types
              allowed_edge_types_text text <> NoReturn
  /\ valueP text <> Hang
  /\ term_parser text <> Hang
  /\ part_parser Navigation_Max text <> Hang
  /\ many (part_parser Navigation_Max) text <> Hang.
Proof.
  split; [apply parse_query_total|].
  pose proof (@eager_valueP (S (slen text)) text (Nat.lt_succ_diag_r _)) as Hv.
  pose proof (@eager_term_parser (S (slen text)) text (Nat.lt_succ_diag_r _)) as Ht.
  pose proof (@eager_part_parser Navigation_Max (S (slen text)) text
                (Nat.lt_succ_diag_r _)) as Hp.
  pose proof (@tame_many _ _ _ (@eager_part_parser Navigation_Max (S (slen text)))
                text (Nat.lt_succ_diag_r _)) as Hm.
  repeat split; intros E; rewrite E in *; assumption.
Qed.

End GrammarYields.

(** A query with a preamble, a range, an edge type written in an arrow, a
    float and an array. *)
Lemma parsed_query_well_formed_witness :
  Sample.parse_query "edge_type=delete: a < 1 -[1:2]-> b > 2.5 <-foo- c in [1, true]"
  = Returns (Query_
      [Part_ (Predicate "c" "in" (VList [VInt 1; VBool true]) []) false None;
       Part_ (Predicate "b" ">" (VFloat "2.5") []) false
             (Some (mkNavigation 1 1 (Some (codes "foo")) "in"));
       Part_ (pred_ "a" "<" 1) false
             (Some (mkNavigation 1 2 (Some (codes "delete")) "out"))])
  /\ exists maybe_preamble s1,
       optional preambleP "edge_type=delete: a < 1 -[1:2]-> b > 2.5 <-foo- c in [1, true]"
       = Success maybe_preamble s1
       /\ let edge_type := resolved_edge_type Sample.EdgeType_default maybe_preamble in
          allowed Sample.EdgeType_allowed_edge_types edge_type = true
          /\ aggregate (Query_
               [Part_ (Predicate "c" "in" (VList [VInt 1; VBool true]) []) false None;
                Part_ (Predicate "b" ">" (VFloat "2.5") []) false
                      (Some (mkNavigation 1 1 (Some (codes "foo")) "in"));
                Part_ (pred_ "a" "<" 1) false
                      (Some (mkNavigation 1 2 (Some (codes "delete")) "out"))]) = None
          /\ forallb (filled_part edge_type)
               (parts (Query_
                  [Part_ (Predicate "c" "in" (VList [VInt 1; VBool true]) []) false None;
                   Part_ (Predicate "b" ">" (VFloat "2.5") []) false
                         (Some (mkNavigation 1 1 (Some (codes "foo")) "in"));
                   Part_ (pred_ "a" "<" 1) false
                         (Some (mkNavigation 1 2 (Some (codes "delete")) "out"))])) = true.
Proof.
  assert (H : Sample.parse_query
                "edge_type=delete: a < 1 -[1:2]-> b > 2.5 <-foo- c in [1, true]"
              = Returns (Query_
                  [Part_ (Predicate "c" "in" (VList [VInt 1; VBool true]) []) false None;
                   Part_ (Predicate "b" ">" (VFloat "2.5") []) false
                         (Some (mkNavigation 1 1 (Some (codes "foo")) "in"));
                   Part_ (pred_ "a" "<" 1) false
                         (Some (mkNavigation 1 2 (Some (codes "delete")) "out"))]))
    by (vm_compute; reflexivity).
  split; [exact H|].
  exact (@parsed_query_well_formed Sample.Navigation_Max Sample.EdgeType_default
           Sample.EdgeType_allowed_edge_types Sample.allowed_edge_types_text _ _ H).
Defined.

(** A dot where a value is expected, and an edge type that is not allowed. *)
Lemma parse_query_raises_witness :
  (is_bad_numeral (ValueError (codes ".")) = true
   \/ exists maybe_preamble s1 parts s2,
        optional preambleP "a < ." = Success maybe_preamble s1
        /\ many (part_parser Sample.Navigation_Max) s1 = Success parts s2
        /\ allowed Sample.EdgeType_allowed_edge_types
                   (resolved_edge_type Sample.EdgeType_default maybe_preamble) = false
        /\ ValueError (codes ".")
           = AttributeError
               (edge_type_message Sample.allowed_edge_types_text
                  (resolved_edge_type Sample.EdgeType_default maybe_preamble)))
  /\ Sample.parse_query "a < ." = Raises (ValueError (codes ".")).
Proof.
  assert (H : Sample.parse_query "a < ." = Raises (ValueError (codes ".")))
    by (vm_compute; reflexivity).
  split; [|exact H].
  exact (@parse_query_raises Sample.Navigation_Max Sample.EdgeType_default
           Sample.EdgeType_allowed_edge_types Sample.allowed_edge_types_text
           "a < ." (ValueError (codes "."))
           ltac:(vm_compute; lia) ltac:(vm_compute; lia) H).
Defined.

(* ------------------------------------------------------------------ *)
(** ** Whitespace in front of a query *)

Lemma span_blank ws s :
  blank ws = true -> snd (span isspace (ws ++ s)%string) = snd (span isspace s).
Proof.
  induction ws as [|c ws IH]; simpl; auto.
  intros H. apply andb_true_iff in H. destruct H as [Hc Hws]. rewrite Hc.
  specialize (IH Hws). destruct (span isspace (ws ++ s)%string). simpl in *. exact IH.
Qed.

Lemma skips_lexeme {A} (p : Parser A) : skips (lexeme p).
Proof.
  intros ws s Hws. unfold lexeme, skip, then_, bind, whitespace, regex_star.
  pose proof (span_blank ws s Hws) as H.
  destruct (span isspace (ws ++ s)%string) as [m r], (span isspace s) as [m' r'].
  simpl in H. subst r'. reflexivity.
Qed.

Lemma skips_bind {A B} (p : Parser A) (f : A -> Parser B) : skips p -> skips (bind p f).
Proof. intros Hp ws s Hws. unfold bind. rewrite (Hp ws s Hws). reflexivity. Qed.

Lemma skips_alt {A} (p q : Parser A) : skips p -> skips q -> skips (alt p q).
Proof.
  intros Hp Hq ws s Hws. unfold alt. rewrite (Hp ws s Hws), (Hq ws s Hws). reflexivity.
Qed.

Lemma skips_pmap {A B} (f : A -> B) (p : Parser A) : skips p -> skips (pmap f p).
Proof. apply skips_bind. Qed.

Lemma skips_then {A B} (p : Parser A) (q : Parser B) : skips p -> skips (p >> q).
Proof. apply skips_bind. Qed.

Lemma skips_skip {A B} (p : Parser A) (q : Parser B) : skips p -> skips (p << q).
Proof. apply skips_bind. Qed.

Lemma skips_alts {A} (ps : list (Parser A)) : Forall skips ps -> skips (alts ps).
Proof.
  destruct ps as [|p ps]; simpl; intros H.
  - intros ws s _. reflexivity.
  - inversion H as [|? ? Hp Hps]; subst. clear H.
    revert p Hp. induction Hps as [|q ps Hq Hps IH]; simpl; intros p Hp; auto.
    apply IH. apply skips_alt; auto.
Qed.

Lemma skips_lexeme_strings (lits : list string) :
  skips (alts (map (fun a => lexeme (pstring a)) lits)).
Proof.
  apply skips_alts. apply Forall_forall. intros p Hp.
  apply in_map_iff in Hp. destruct Hp as (lit & <- & _). apply skips_lexeme.
Qed.

Lemma skips_leafTermP : skips leafTermP.
Proof.
  unfold leafTermP. repeat apply skips_alt.
  - apply skips_pmap, skips_lexeme.
  - apply skips_pmap, skips_lexeme.
  - apply skips_bind, skips_lexeme.
  - apply skips_bind, skips_lexeme_strings.
Qed.

Lemma skips_simpleTermP : skips simpleTermP.
Proof.
  unfold simpleTermP, simpleTermP_of. apply skips_alt; [|apply skips_leafTermP].
  apply skips_skip, skips_then, skips_lexeme.
Qed.

Lemma skips_combined_term : skips combined_term.
Proof.
  intros ws s Hws. rewrite !combined_term_rest. apply skips_bind; auto.
  apply skips_simpleTermP.
Qed.

Lemma skips_term_parser : skips term_parser.
Proof. apply skips_alt; [apply skips_combined_term | apply skips_simpleTermP]. Qed.

Lemma skips_sep_by_then {A B C} (p : Parser A) (sep : Parser B) (q : Parser C) :
  skips p -> skips q -> skips (sep_by p sep << q).
Proof.
  intros Hp Hq ws s Hws. unfold sep_by, skip, alt, bind at 1 3.
  assert (E : plus (times1 p) (many (sep >> p)) (ws ++ s)%string
              = plus (times1 p) (many (sep >> p)) s).
  { apply skips_bind; auto. apply skips_pmap, Hp. }
  rewrite E. destruct (plus (times1 p) (many (sep >> p)) s); auto.
  unfold success, bind. rewrite (Hq ws s Hws). reflexivity.
Qed.

Lemma skips_preambleP : skips preambleP.
Proof.
  apply skips_sep_by_then; [|apply skips_lexeme].
  apply skips_bind, skips_lexeme_strings.
Qed.

Lemma slen_app a b : slen (a ++ b)%string = slen a + slen b.
Proof. induction a as [|c a IH]; simpl; auto. Qed.

Lemma blank_text {A} (p : Parser A) ws :
  skips p -> blank ws = true -> p ws = p EmptyString.
Proof.
  intros Hp Hws. rewrite <- (Hp ws EmptyString Hws). f_equal.
  clear. induction ws as [|c ws IH]; simpl; congruence.
Qed.

Section Whitespace.

Variable Navigation_Max : N.
Variable EdgeType_default : str.
Variable EdgeType_allowed_edge_types : list str.
Variable allowed_edge_types_text : str.

Lemma skips_part_parser : skips (part_parser Navigation_Max).
Proof. apply skips_bind, skips_term_parser. Qed.

Lemma many_part_parser_blank ws s :
  blank ws = true ->
  many (part_parser Navigation_Max) (ws ++ s)%string
  = match part_parser Navigation_Max s with
    | Failure => Success [] (ws ++ s)%string
    | _ => many (part_parser Navigation_Max) s
    end.
Proof.
  intros Hws. rewrite (many_unfold _ (ws ++ s)%string), (skips_part_parser ws s Hws).
  pose proof (@eager_part_parser Navigation_Max (S (slen s)) s (Nat.lt_succ_diag_r _)) as He.
  destruct (part_parser Navigation_Max s) as [v r | | e |] eqn:E; auto.
  - rewrite (many_unfold _ s), E. simpl in He.
    destruct (Nat.ltb_spec (slen r) (slen s)); [|lia].
    destruct (Nat.ltb_spec (slen r) (slen (ws ++ s)%string)); auto.
    rewrite slen_app in *. lia.
  - rewrite (many_unfold _ s), E. reflexivity.
  - contradiction.
Qed.

Lemma eof_fails s : s <> EmptyString -> eof s = Failure.
Proof. destruct s; [congruence | reflexivity]. Qed.

(** X4. Whitespace in front of a query text is not part of the query: a
    text that is not empty parses to the same outcome with and without
    it. *)
Theorem leading_whitespace_ignored ws text :
  blank ws = true -> text <> EmptyString ->
  parse_query Navigation_Max EdgeType_default EdgeType_allowed_edge_types
              allowed_edge_types_text (ws ++ text)%string
  = parse_query Navigation_Max EdgeType_default EdgeType_allowed_edge_types
                allowed_edge_types_text text.
Proof.
  intros Hws Htext. unfold parse_query, parse. f_equal.
  assert (Hne : (ws ++ text)%string <> EmptyString).
  { destruct ws; simpl; [exact Htext | discriminate]. }
  unfold skip, query_parser. unfold bind at 1 2 5 6. unfold optional.
  rewrite (skips_preambleP ws text Hws).
  destruct (preambleP text) as [d s1 | | e |]; auto.
  unfold bind at 1 3. rewrite (many_part_parser_blank _ text Hws).
  destruct (part_parser Navigation_Max text) as [v r | | e |] eqn:E; auto.
  rewrite (many_unfold _ text), E.
  destruct (negb _); auto.
  unfold success, bind. rewrite !eof_fails; auto.
Qed.

Lemma part_parser_empty : part_parser Navigation_Max EmptyString = Failure.
Proof. reflexivity. Qed.

(** X5. A text of whitespace only: the empty text is the query without
    parts, any other blank text is a parse error, and where the default
    edge type is not an allowed one both raise. *)
Theorem blank_query ws :
  blank ws = true ->
  parse_query Navigation_Max EdgeType_default EdgeType_allowed_edge_types
              allowed_edge_types_text ws
  = if allowed EdgeType_allowed_edge_types EdgeType_default
    then match ws with
         | EmptyString => Returns (Query_ [])
         | _ => ParseError
         end
    else Raises (AttributeError
                   (edge_type_message allowed_edge_types_text EdgeType_default)).
Proof.
  intros Hws.
  assert (Ho : optional preambleP ws = Success None ws).
  { unfold optional. rewrite (@blank_text _ preambleP ws skips_preambleP Hws). reflexivity. }
  assert (Hp : many (part_parser Navigation_Max) ws = Success [] ws).
  { rewrite many_unfold, (@blank_text _ _ ws skips_part_parser Hws), part_parser_empty.
    reflexivity. }
  unfold parse_query, parse, skip. unfold bind at 1.
  rewrite (query_parser_steps _ _ _ _ _ Ho Hp).
  unfold resolved_edge_type. cbn [dict_get].
  destruct (allowed _ _); [|reflexivity].
  destruct ws; reflexivity.
Qed.

End Whitespace.

Lemma leading_whitespace_ignored_witness :
  Sample.parse_query "   a < 1 --> b > 2" = Sample.parse_query "a < 1 --> b > 2".
Proof.
  refine (@leading_whitespace_ignored Sample.Navigation_Max Sample.EdgeType_default
            Sample.EdgeType_allowed_edge_types Sample.allowed_edge_types_text
            "   " "a < 1 --> b > 2" _ _).
  - reflexivity.
  - discriminate.
Defined.

Lemma blank_query_witness :
  Sample.parse_query "  " = ParseError.
Proof.
  refine (@blank_query Sample.Navigation_Max Sample.EdgeType_default
            Sample.EdgeType_allowed_edge_types Sample.allowed_edge_types_text "  " _).
  reflexivity.
Defined.

(* ------------------------------------------------------------------ *)
(** ** Integers, written and read *)

Lemma many_nil {A} (p : Parser A) s : p s = Failure -> many p s = Success [] s.
Proof. intros H. rewrite many_unfold, H. reflexivity. Qed.

Lemma many_cons {A} (p : Parser A) s v r vs r' :
  (forall n, eager n p) -> p s = Success v r -> many p r = Success vs r' ->
  many p s = Success (v :: vs) r'.
Proof.
  intros Hp Hv Hvs. rewrite many_unfold, Hv, Hvs.
  pose proof (Hp (S (slen s)) s (Nat.lt_succ_diag_r _)) as Hc. rewrite Hv in Hc. simpl in Hc.
  destruct (Nat.ltb_spec (slen r) (slen s)); [reflexivity | lia].
Qed.

Lemma codes_String c s : codes (String c s) = N_of_ascii c :: codes s.
Proof. reflexivity. Qed.

Lemma is_decimal_code_ascii c : is_decimal_code (N_of_ascii c) = isdecimal c.
Proof.
  unfold is_decimal_code, isdecimal, between, code, nat_of_ascii.
  pose proof (N_ascii_bounded c) as Hb.
  destruct (N.leb_spec 48 (N_of_ascii c)), (Nat.leb_spec 48 (N.to_nat (N_of_ascii c)));
    destruct (N.leb_spec (N_of_ascii c) 57), (Nat.leb_spec (N.to_nat (N_of_ascii c)) 57);
    simpl; auto; lia.
Qed.

Lemma isdecimal_isdigit c : isdecimal c = true -> isdigit c = true.
Proof. unfold isdigit. intros ->. reflexivity. Qed.

Lemma all_chars_weaken (f g : ascii -> bool) s :
  (forall c, f c = true -> g c = true) -> all_chars f s = true -> all_chars g s = true.
Proof.
  intros H. induction s as [|c s IH]; simpl; auto.
  intros Hs. apply andb_true_iff in Hs. destruct Hs as [Hc Hs].
  rewrite (H c Hc), (IH Hs). reflexivity.
Qed.

Lemma all_decimal_codes s :
  all_chars isdecimal s = true -> forallb is_decimal_code (codes s) = true.
Proof.
  induction s as [|c s IH]; [reflexivity|]. cbn [all_chars].
  intros H. apply andb_true_iff in H. destruct H as [Hc Hs].
  rewrite codes_String. cbn [forallb].
  rewrite is_decimal_code_ascii, Hc, (IH Hs). reflexivity.
Qed.

Lemma digit_char (d : N) :
  (d < 10)%N ->
  isdecimal (ascii_of_N (48 + d)) = true /\ N_of_ascii (ascii_of_N (48 + d)) = (48 + d)%N.
Proof.
  intros H. destruct d as [|p]; [split; reflexivity|].
  do 4 (destruct p as [p|p|]; try lia; try (split; reflexivity)).
Qed.

Lemma digits_from_decimal fuel : forall n acc,
  all_chars isdecimal acc = true -> all_chars isdecimal (digits_from fuel n acc) = true.
Proof.
  induction fuel as [|fuel IH]; intros n acc Hacc; cbn [digits_from]; auto.
  assert (Hd : (n mod 10 < 10)%N) by (apply N.mod_lt; discriminate).
  destruct (digit_char Hd) as [Hc _].
  destruct (n <? 10)%N; [|apply IH]; cbn [all_chars]; rewrite Hc, Hacc; reflexivity.
Qed.

Lemma digits_from_not_empty fuel : forall n acc,
  0 < fuel -> digits_from fuel n acc <> EmptyString.
Proof.
  induction fuel as [|fuel IH]; intros n acc Hf; [lia|]. cbn [digits_from].
  destruct (n <? 10)%N; [discriminate|].
  destruct fuel as [|fuel']; [cbn [digits_from]; discriminate|]. apply IH. lia.
Qed.

Lemma digits_from_value fuel : forall n acc,
  (n < 2 ^ N.of_nat fuel)%N ->
  fold_left (fun a c => a * 10 + (c - 48))%N (codes (digits_from fuel n acc)) 0%N
  = fold_left (fun a c => a * 10 + (c - 48))%N (codes acc) n.
Proof.
  induction fuel as [|fuel IH]; intros n acc Hn.
  - simpl in *. assert (n = 0%N) by lia. subst. reflexivity.
  - cbn [digits_from].
    assert (Hd : (n mod 10 < 10)%N) by (apply N.mod_lt; discriminate).
    destruct (digit_char Hd) as [_ Hc].
    rewrite Nat2N.inj_succ, N.pow_succ_r in Hn by lia.
    destruct (N.ltb_spec n 10) as [Hlt | Hge].
    + rewrite codes_String. cbn [fold_left]. rewrite Hc. f_equal.
      rewrite N.mod_small by exact Hlt. lia.
    + rewrite IH.
      * rewrite codes_String. cbn [fold_left]. rewrite Hc. f_equal.
        pose proof (N.div_mod n 10 ltac:(discriminate)) as Hdm.
        generalize dependent (n / 10)%N. generalize dependent (n mod 10)%N.
        intros. lia.
      * pose proof (N.div_mod n 10 ltac:(discriminate)) as Hdm.
        generalize dependent (2 ^ N.of_nat fuel)%N.
        generalize dependent (n / 10)%N. generalize dependent (n mod 10)%N.
        intros. lia.
Qed.

Lemma py_str_value n : py_int (codes (py_str n)) = inr n.
Proof.
  unfold py_int, py_str.
  rewrite all_decimal_codes by (apply digits_from_decimal; reflexivity).
  rewrite digits_from_value; [reflexivity|].
  rewrite Nat2N.inj_succ, N2Nat.id.
  destruct n as [|p]; [reflexivity|]. apply N.log2_spec. lia.
Qed.

Lemma py_str_digits n :
  py_str n <> EmptyString /\ all_chars isdecimal (py_str n) = true.
Proof.
  split.
  - apply digits_from_not_empty. lia.
  - apply digits_from_decimal. reflexivity.
Qed.

(** [digit.many()] reads the whole run of digits. *)
Lemma many_digit_run ds : forall rest,
  all_chars isdigit ds = true -> starts_with_char isdigit rest = false ->
  many digit (ds ++ rest)%string
  = Success (map (fun c => [N_of_ascii c]) (list_ascii_of_string ds)) rest.
Proof.
  induction ds as [|c ds IH]; intros rest Hds Hrest; rewrite many_unfold.
  - simpl. unfold digit, test_char. destruct rest as [|c rest]; auto.
    simpl in Hrest. rewrite Hrest. reflexivity.
  - simpl in Hds. apply andb_true_iff in Hds. destruct Hds as [Hc Hds].
    simpl. rewrite Hc. rewrite (IH rest Hds Hrest).
    destruct (Nat.ltb_spec (slen (ds ++ rest)%string) (S (slen (ds ++ rest)%string)));
      [reflexivity | lia].
Qed.

Lemma concat_singletons {A B} (f : A -> B) (l : list A) :
  concat (map (fun c => [f c]) l) = map f l.
Proof. induction l as [|x l IH]; simpl; congruence. Qed.

(** [digit.at_least(1).concat()] reads the whole run of digits. *)
Lemma digits_run c ds rest :
  all_chars isdigit (String c ds) = true -> starts_with_char isdigit rest = false ->
  concat_ (at_least1 digit) (String c ds ++ rest)%string
  = Success (codes (String c ds)) rest.
Proof.
  intros Hds Hrest. simpl in Hds. apply andb_true_iff in Hds. destruct Hds as [Hc Hds].
  change (String c ds ++ rest)%string with (String c (ds ++ rest)%string).
  unfold concat_, pmap, at_least1, plus, times1, pmap, bind.
  unfold digit at 1, test_char. rewrite Hc. unfold success at 1.
  rewrite (@many_digit_run ds rest Hds Hrest). unfold success.
  rewrite codes_String. cbn [app concat]. rewrite concat_singletons. reflexivity.
Qed.

Lemma integerP_py_str n rest :
  starts_with_char isdigit rest = false ->
  integerP (py_str n ++ rest)%string = Success n rest.
Proof.
  intros Hrest. destruct (py_str_digits n) as [Hne Hdec].
  pose proof (py_str_value n) as Hval.
  destruct (py_str n) as [|c ds] eqn:E; [congruence|]. clear Hne.
  assert (Hdig : all_chars isdigit (String c ds) = true).
  { eapply all_chars_weaken; [apply isdecimal_isdigit | exact Hdec]. }
  unfold integerP, pmap_raising, bind. rewrite (@digits_run c ds rest Hdig Hrest), Hval.
  reflexivity.
Qed.

Lemma span_stop f a t : f a = false -> span f (String a t) = ([], String a t).
Proof. intros H. simpl. rewrite H. reflexivity. Qed.

Lemma span_go f a t :
  f a = true -> span f (String a t) = (N_of_ascii a :: fst (span f t), snd (span f t)).
Proof. intros H. simpl. rewrite H. destruct (span f t). reflexivity. Qed.

Lemma whitespace_rest s : whitespace s = Success (fst (span isspace s)) (snd (span isspace s)).
Proof. unfold whitespace, regex_star. destruct (span isspace s). reflexivity. Qed.

Lemma many_digit_none s : starts_with_char isdigit s = false -> many digit s = Success [] s.
Proof.
  intros H. apply many_nil. unfold digit, test_char. destruct s as [|c s]; [reflexivity|].
  simpl in H. rewrite H. reflexivity.
Qed.

Lemma quotedStringP_no_quote s :
  starts_with_char (fun c => isspace c || Ascii.eqb c "034") s = false ->
  quotedStringP s = Failure.
Proof.
  intros H. unfold quotedStringP, lexeme, skip, then_, bind. rewrite whitespace_rest.
  destruct s as [|c s]; [reflexivity|]. cbn [starts_with_char] in H.
  apply orb_false_iff in H. destruct H as [Hs Hq].
  rewrite (@span_stop _ _ _ Hs). cbn [fst snd]. unfold pstring, dquote.
  cbn [strip_prefix]. rewrite Ascii.eqb_sym, Hq. reflexivity.
Qed.

Lemma decimal_no_quote c :
  isdecimal c = true -> isspace c || Ascii.eqb c "034" = false.
Proof. destruct c as [[] [] [] [] [] [] [] []]; intros H; try discriminate H; reflexivity. Qed.

Lemma valueP_py_str n rest :
  starts_with_char isdigit rest = false ->
  starts_with_char (Ascii.eqb ".") rest = false ->
  valueP (py_str n ++ rest)%string = Success (VInt n) rest.
Proof.
  intros Hrest Hdot. pose proof (integerP_py_str n rest Hrest) as Hint.
  destruct (py_str_digits n) as [Hne Hdec].
  destruct (py_str n) as [|c ds] eqn:E; [congruence|]. clear Hne.
  assert (Hdig : all_chars isdigit (String c ds) = true).
  { eapply all_chars_weaken; [apply isdecimal_isdigit | exact Hdec]. }
  rewrite valueP_unfold. unfold valueP_of, alt.
  assert (Hq : pmap VStr quotedStringP (String c ds ++ rest)%string = Failure).
  { cbn [all_chars] in Hdec. apply andb_true_iff in Hdec. destruct Hdec as [Hc _].
    unfold pmap, bind. rewrite quotedStringP_no_quote; [reflexivity|].
    apply decimal_no_quote, Hc. }
  assert (Hf : floatP (String c ds ++ rest)%string = Failure).
  { unfold floatP, pmap_raising, concat_, pmap, plus, bind.
    rewrite (@many_digit_run (String c ds) rest Hdig Hrest).
    unfold result, then_, bind, pstring.
    destruct rest as [|d rest]; [reflexivity|]. simpl in Hdot. simpl.
    rewrite Hdot. reflexivity. }
  rewrite Hq, Hf. unfold pmap, bind. rewrite Hint. reflexivity.
Qed.

(** X6. [integerP] reads a run of digits to its end and hands it to [int];
    on what Python prints for an integer [n] it yields [n] again, and so
    does [valueP], which tries a float first, unless a dot follows. *)
Theorem integer_round_trip n rest :
  starts_with_char isdigit rest = false ->
  integerP (py_str n ++ rest)%string = Success n rest
  /\ (starts_with_char (Ascii.eqb ".") rest = false ->
      valueP (py_str n ++ rest)%string = Success (VInt n) rest).
Proof.
  intros Hrest. split.
  - apply integerP_py_str, Hrest.
  - apply valueP_py_str, Hrest.
Qed.

Lemma integer_round_trip_witness :
  integerP "2024]" = Success 2024%N "]" /\ valueP "2024]" = Success (VInt 2024) "]".
Proof.
  destruct (@integer_round_trip 2024 "]" eq_refl) as [Hint Hvalue].
  split; [exact Hint | exact (Hvalue eq_refl)].
Defined.

(* ------------------------------------------------------------------ *)
(** ** Quoted strings, written and read *)

Lemma append_assoc (a b c : string) : ((a ++ b) ++ c = a ++ (b ++ c))%string.
Proof. induction a as [|x a IH]; simpl; congruence. Qed.

Lemma ascii_of_code (c : N) :
  (c < 256)%N -> N_of_ascii (ascii_of_N c) = c /\ code (ascii_of_N c) = N.to_nat c.
Proof.
  intros H. pose proof (N_ascii_embedding c H) as E. split; auto.
  unfold code, nat_of_ascii. rewrite E. reflexivity.
Qed.

Lemma hex_digit_value (d : N) :
  (d < 16)%N -> ishex (hex_digit d) = true /\ hexval (hex_digit d) = d.
Proof.
  intros H. destruct d as [|p]; [split; reflexivity|].
  do 5 (destruct p as [p|p|]; try lia; try (split; reflexivity)).
Qed.

Lemma hex_digits_value (c : N) :
  (c < 65536)%N ->
  (((c / 4096 * 16 + (c / 256) mod 16) * 16 + (c / 16) mod 16) * 16 + c mod 16 = c)%N.
Proof.
  intros H.
  pose proof (N.div_mod c 16 ltac:(discriminate)) as H1.
  pose proof (N.div_mod (c / 16) 16 ltac:(discriminate)) as H2.
  pose proof (N.div_mod (c / 16 / 16) 16 ltac:(discriminate)) as H3.
  rewrite !N.Div0.div_div in H3. rewrite !N.Div0.div_div in H2.
  change (16 * 16)%N with 256%N in *. change (256 * 16)%N with 4096%N in *.
  assert (E3 : ((c / 256) mod 16 = (c / 16 / 16) mod 16)%N)
    by (rewrite N.Div0.div_div; reflexivity).
  rewrite N.Div0.div_div in E3. change (16 * 16)%N with 256%N in E3.
  pose proof (N.mod_lt c 16 ltac:(discriminate)).
  pose proof (N.mod_lt (c / 16) 16 ltac:(discriminate)).
  pose proof (N.mod_lt (c / 256) 16 ltac:(discriminate)).
  generalize dependent (c mod 16)%N. generalize dependent ((c / 16) mod 16)%N.
  generalize dependent ((c / 256) mod 16)%N. generalize dependent (c / 4096)%N.
  generalize dependent (c / 256)%N. generalize dependent (c / 16)%N.
  intros. lia.
Qed.

Lemma eager_string_item n : eager n (string_part <|> string_esc).
Proof. apply eager_alt; [apply eager_regex_one_star | apply eager_string_esc]. Qed.

Lemma string_item_end t : (string_part <|> string_esc) (dquote ++ t)%string = Failure.
Proof. reflexivity. Qed.

Lemma string_item_quote t :
  (string_part <|> string_esc) (backslash ++ dquote ++ t)%string = Success [34%N] t.
Proof. reflexivity. Qed.

Lemma string_item_backslash t :
  (string_part <|> string_esc) (backslash ++ backslash ++ t)%string = Success [92%N] t.
Proof. reflexivity. Qed.

Lemma string_item_plain a t :
  plain_char a = true ->
  (string_part <|> string_esc) (String a t)
  = Success (N_of_ascii a :: fst (span plain_char t)) (snd (span plain_char t)).
Proof.
  intros Ha. unfold alt.
  change string_part with (regex_one_star plain_char plain_char).
  unfold regex_one_star. rewrite Ha. destruct (span plain_char t). reflexivity.
Qed.

Lemma string_item_unicode c t :
  (c < 65536)%N ->
  (string_part <|> string_esc)
    (backslash ++
     String "u" (String (hex_digit (c / 4096))
                   (String (hex_digit ((c / 256) mod 16))
                      (String (hex_digit ((c / 16) mod 16))
                         (String (hex_digit (c mod 16)) t)))))%string
  = Success [c] t.
Proof.
  intros Hc.
  assert (H1 : (c / 4096 < 16)%N) by (apply N.Div0.div_lt_upper_bound; exact Hc).
  assert (H2 : ((c / 256) mod 16 < 16)%N) by (apply N.mod_lt; discriminate).
  assert (H3 : ((c / 16) mod 16 < 16)%N) by (apply N.mod_lt; discriminate).
  assert (H4 : (c mod 16 < 16)%N) by (apply N.mod_lt; discriminate).
  destruct (hex_digit_value H1) as [X1 V1], (hex_digit_value H2) as [X2 V2],
    (hex_digit_value H3) as [X3 V3], (hex_digit_value H4) as [X4 V4].
  change (unicode_escape
            (String "u" (String (hex_digit (c / 4096))
                           (String (hex_digit ((c / 256) mod 16))
                              (String (hex_digit ((c / 16) mod 16))
                                 (String (hex_digit (c mod 16)) t)))))
          = Success [c] t).
  unfold unicode_escape. rewrite X1, X2, X3, X4, V1, V2, V3, V4.
  rewrite (hex_digits_value Hc). reflexivity.
Qed.

Lemma plain_char_of_code c :
  (c < 256)%N -> c <> 34%N -> c <> 92%N -> plain_char (ascii_of_N c) = true.
Proof.
  intros Hc H1 H2. destruct (ascii_of_code Hc) as [_ E]. unfold plain_char. rewrite E.
  destruct (Nat.eqb_spec (N.to_nat c) 34); [lia|].
  destruct (Nat.eqb_spec (N.to_nat c) 92); [lia|]. reflexivity.
Qed.

(** The items of a string, read back from what [escape] wrote: from the
    start of the text, and from where a run of plain characters ends. *)
Lemma escape_read rest s :
  Forall (fun c => (c < 65536)%N) s ->
  (exists items,
     many (string_part <|> string_esc) (escape s ++ dquote ++ rest)%string
     = Success items (dquote ++ rest)%string
     /\ concat items = s)
  /\ (exists items,
        many (string_part <|> string_esc)
             (snd (span plain_char (escape s ++ dquote ++ rest)%string))
        = Success items (dquote ++ rest)%string
        /\ fst (span plain_char (escape s ++ dquote ++ rest)%string) ++ concat items = s).
Proof.
  induction 1 as [|c s Hc Hs IH].
  - cbn [escape append].
    assert (A : many (string_part <|> string_esc) (dquote ++ rest)%string
                = Success [] (dquote ++ rest)%string)
      by apply many_nil, string_item_end.
    split; [exists []; auto|].
    change (span plain_char (dquote ++ rest)%string) with (@nil N, (dquote ++ rest)%string).
    exists []. auto.
  - cbn [escape]. rewrite append_assoc.
    destruct IH as [(items & Hitems & Eitems) (items' & Hitems' & Eitems')].
    set (T := (escape s ++ dquote ++ rest)%string) in *.
    unfold escape_code.
    destruct (N.eqb_spec c 34) as [-> | N34];
      [|destruct (N.eqb_spec c 92) as [-> | N92];
        [|destruct (N.ltb_spec c 256) as [Hlt | Hge]]].
    + change ((backslash ++ dquote) ++ T)%string with (backslash ++ dquote ++ T)%string.
      assert (A : many (string_part <|> string_esc) (backslash ++ dquote ++ T)%string
                  = Success ([34%N] :: items) (dquote ++ rest)%string).
      { eapply many_cons; [apply eager_string_item | apply string_item_quote | exact Hitems]. }
      split; [exists ([34%N] :: items); split; [exact A | simpl; congruence]|].
      change (span plain_char (backslash ++ dquote ++ T)%string)
        with (@nil N, (backslash ++ dquote ++ T)%string). cbn [fst snd].
      exists ([34%N] :: items). split; [exact A | simpl; congruence].
    + change ((backslash ++ backslash) ++ T)%string with (backslash ++ backslash ++ T)%string.
      assert (A : many (string_part <|> string_esc) (backslash ++ backslash ++ T)%string
                  = Success ([92%N] :: items) (dquote ++ rest)%string).
      { eapply many_cons;
          [apply eager_string_item | apply string_item_backslash | exact Hitems]. }
      split; [exists ([92%N] :: items); split; [exact A | simpl; congruence]|].
      change (span plain_char (backslash ++ backslash ++ T)%string)
        with (@nil N, (backslash ++ backslash ++ T)%string). cbn [fst snd].
      exists ([92%N] :: items). split; [exact A | simpl; congruence].
    + change (String (ascii_of_N c) EmptyString ++ T)%string with (String (ascii_of_N c) T).
      pose proof (plain_char_of_code Hlt N34 N92) as Hp.
      destruct (ascii_of_code Hlt) as [Ec _].
      split.
      * exists ((c :: fst (span plain_char T)) :: items'). split.
        -- eapply many_cons; [apply eager_string_item | | exact Hitems'].
           rewrite (@string_item_plain _ T Hp), Ec. reflexivity.
        -- simpl. rewrite Eitems'. reflexivity.
      * rewrite (@span_go plain_char _ T Hp), Ec. cbn [fst snd]. exists items'. split; auto.
        simpl. rewrite Eitems'. reflexivity.
    + match goal with
      | |- context [((backslash ++ String "u" ?w) ++ T)%string] =>
          change ((backslash ++ String "u" w) ++ T)%string
            with (backslash ++
                  String "u" (String (hex_digit (c / 4096))
                                (String (hex_digit ((c / 256) mod 16))
                                   (String (hex_digit ((c / 16) mod 16))
                                      (String (hex_digit (c mod 16)) T)))))%string
      end.
      assert (A : many (string_part <|> string_esc)
                    (backslash ++
                     String "u" (String (hex_digit (c / 4096))
                                   (String (hex_digit ((c / 256) mod 16))
                                      (String (hex_digit ((c / 16) mod 16))
                                         (String (hex_digit (c mod 16)) T)))))%string
                  = Success ([c] :: items) (dquote ++ rest)%string).
      { eapply many_cons;
          [apply eager_string_item | apply (@string_item_unicode c T Hc) | exact Hitems]. }
      split; [exists ([c] :: items); split; [exact A | simpl; congruence]|].
      match goal with
      | |- context [span plain_char ?w] =>
          change (span plain_char w) with (@nil N, w)
      end.
      cbn [fst snd]. exists ([c] :: items). split; [exact A | simpl; congruence].
Qed.

(** A quoted string is read back as it was written. *)
Lemma quotedStringP_quoted_text s rest :
  Forall (fun c => (c < 65536)%N) s ->
  quotedStringP (quoted_text s ++ rest)%string = Success s (snd (span isspace rest)).
Proof.
  intros Hs. destruct (@escape_read rest s Hs) as [(items & Hitems & Eitems) _].
  assert (S1 : stringP (escape s ++ dquote ++ rest)%string
               = Success s (dquote ++ rest)%string).
  { unfold stringP, concat_, pmap, bind. rewrite Hitems. unfold success.
    rewrite Eitems. reflexivity. }
  assert (S2 : (pstring dquote >> stringP << pstring dquote)
                 (dquote ++ escape s ++ dquote ++ rest)%string
               = Success s rest).
  { unfold skip, then_, bind.
    change (pstring dquote (dquote ++ escape s ++ dquote ++ rest)%string)
      with (Success (codes dquote) (escape s ++ dquote ++ rest)%string).
    cbn iota. rewrite S1.
    change (pstring dquote (dquote ++ rest)%string) with (Success (codes dquote) rest).
    reflexivity. }
  unfold quoted_text. rewrite !append_assoc.
  unfold quotedStringP, lexeme, skip, then_, bind. rewrite whitespace_rest.
  change (span isspace (dquote ++ escape s ++ dquote ++ rest)%string)
    with (@nil N, (dquote ++ escape s ++ dquote ++ rest)%string).
  cbn [fst snd]. unfold skip, then_, bind in S2. rewrite S2.
  rewrite whitespace_rest. reflexivity.
Qed.

(** X7. A quoted string is read back as it was written: between the
    quotes, with the quote and the backslash behind a backslash and a code
    point that the text cannot hold as a [\u] escape, [quotedStringP]
    yields every text of code points below 65536, whatever follows the
    closing quote, and goes on behind the whitespace after it. *)
Theorem quoted_string_round_trip s rest :
  Forall (fun c => (c < 65536)%N) s ->
  quotedStringP (quoted_text s ++ rest)%string = Success s (snd (span isspace rest)).
Proof. apply quotedStringP_quoted_text. Qed.

Lemma quoted_string_round_trip_witness :
  quotedStringP (quoted_text [97; 34; 92; 10; 8364]%N ++ "  and b")%string
  = Success [97; 34; 92; 10; 8364]%N "and b".
Proof.
  refine (@quoted_string_round_trip [97; 34; 92; 10; 8364]%N "  and b" _).
  repeat constructor.
Defined.

(* ------------------------------------------------------------------ *)
(** ** The ranges of a navigation *)

Lemma bind_success {A B} (p : Parser A) (f : A -> Parser B) s v r :
  p s = Success v r -> bind p f s = f v r.
Proof. intros H. unfold bind. rewrite H. reflexivity. Qed.

Lemma optional_some {A} (p : Parser A) s v r :
  p s = Success v r -> optional p s = Success (Some v) r.
Proof. intros H. unfold optional. rewrite H. reflexivity. Qed.

Lemma optional_none {A} (p : Parser A) s : p s = Failure -> optional p s = Success None s.
Proof. intros H. unfold optional. rewrite H. reflexivity. Qed.

Lemma decimal_not_space d : isdecimal d = true -> isspace d = false.
Proof. destruct d as [[] [] [] [] [] [] [] []]; intros H; try discriminate H; reflexivity. Qed.

Lemma py_str_head n : exists d ds, py_str n = String d ds /\ isdecimal d = true.
Proof.
  destruct (py_str_digits n) as [Hne Hdec].
  destruct (py_str n) as [|d ds]; [congruence|]. exists d, ds. split; auto.
  simpl in Hdec. apply andb_true_iff in Hdec. tauto.
Qed.

Lemma span_py_str n s :
  span isspace (py_str n ++ s)%string = ([], (py_str n ++ s)%string).
Proof.
  destruct (py_str_head n) as (d & ds & -> & Hd).
  apply span_stop, decimal_not_space, Hd.
Qed.

Section Ranges.

Variable Navigation_Max : N.

Lemma range_parser_steps start sep_read until_read s1 s2 s3 s4 s5 :
  lbrackP s1 = Success (codes "[") s2 ->
  integerP s2 = Success start s3 ->
  optional (colonP <|> commaP <|> dotdotP) s3 = Success sep_read s4 ->
  optional integerP s4 = Success until_read s5 ->
  range_parser Navigation_Max s1
  = match rbrackP s5 with
    | Success _ r =>
        Success (start, match sep_read with
                        | None => start
                        | Some _ => match until_read with
                                    | Some e => e
                                    | None => Navigation_Max
                                    end
                        end) r
    | Failure => Failure
    | Raise e => Raise e
    | Hang => Hang
    end.
Proof.
  intros H1 H2 H3 H4. unfold range_parser.
  rewrite (@bind_success _ _ _ _ _ _ _ H1), (@bind_success _ _ _ _ _ _ _ H2),
    (@bind_success _ _ _ _ _ _ _ H3), (@bind_success _ _ _ _ _ _ _ H4).
  unfold bind. destruct (rbrackP s5); reflexivity.
Qed.

(** X8. The ranges that [range_parser] reads: [[n]] is the range from [n]
    to [n]; with one of the separators [:], [,] and [..] behind the first
    number, [[n:]] goes up to [Navigation.Max] and [[n:m]] up to [m],
    whether or not [m] is below [n]. *)
Theorem range_forms n m rest :
  range_parser Navigation_Max ("[" ++ py_str n ++ "]" ++ rest)%string
  = Success (n, n) (snd (span isspace rest))
  /\ Forall (fun sep =>
       range_parser Navigation_Max ("[" ++ py_str n ++ sep ++ "]" ++ rest)%string
       = Success (n, Navigation_Max) (snd (span isspace rest))
       /\ range_parser Navigation_Max
            ("[" ++ py_str n ++ sep ++ py_str m ++ "]" ++ rest)%string
          = Success (n, m) (snd (span isspace rest)))
      [":"; ","; ".."].
Proof.
  assert (Hopen : forall s,
    lbrackP ("[" ++ py_str n ++ s)%string = Success (codes "[") (py_str n ++ s)%string).
  { intros s. unfold lbrackP, lexeme, skip, then_, bind. rewrite whitespace_rest.
    change (span isspace ("[" ++ py_str n ++ s)%string)
      with (@nil N, ("[" ++ py_str n ++ s)%string).
    cbn [fst snd].
    change (pstring "[" ("[" ++ py_str n ++ s)%string)
      with (Success (codes "[") (py_str n ++ s)%string).
    cbn iota. rewrite whitespace_rest, span_py_str. reflexivity. }
  assert (Hclose : rbrackP ("]" ++ rest)%string
                   = Success (codes "]") (snd (span isspace rest))).
  { unfold rbrackP, lexeme, skip, then_, bind. rewrite whitespace_rest.
    change (span isspace ("]" ++ rest)%string) with (@nil N, ("]" ++ rest)%string).
    cbn [fst snd].
    change (pstring "]" ("]" ++ rest)%string) with (Success (codes "]") rest).
    cbn iota. rewrite whitespace_rest. reflexivity. }
  assert (Hnone : optional integerP ("]" ++ rest)%string
                  = Success None ("]" ++ rest)%string) by reflexivity.
  assert (Hsome : optional integerP (py_str m ++ "]" ++ rest)%string
                  = Success (Some m) ("]" ++ rest)%string).
  { apply optional_some, integerP_py_str. reflexivity. }
  split; [|repeat constructor].
  - rewrite (@range_parser_steps n None None _ _ _ _ _ (Hopen _)
               (@integerP_py_str n ("]" ++ rest)%string eq_refl) eq_refl Hnone).
    rewrite Hclose. reflexivity.
  - rewrite (@range_parser_steps n (Some (codes ":")) None _ _ _ ("]" ++ rest)%string _
               (Hopen _) (@integerP_py_str n (":" ++ "]" ++ rest)%string eq_refl)
               eq_refl Hnone).
    rewrite Hclose. reflexivity.
  - assert (Hsep : optional (colonP <|> commaP <|> dotdotP)
                     (":" ++ py_str m ++ "]" ++ rest)%string
                   = Success (Some (codes ":")) (py_str m ++ "]" ++ rest)%string).
    { apply optional_some. unfold alt, colonP, lexeme, skip, then_, bind.
      rewrite whitespace_rest.
      change (span isspace (":" ++ py_str m ++ "]" ++ rest)%string)
        with (@nil N, (":" ++ py_str m ++ "]" ++ rest)%string).
      cbn [fst snd].
      change (pstring ":" (":" ++ py_str m ++ "]" ++ rest)%string)
        with (Success (codes ":") (py_str m ++ "]" ++ rest)%string).
      cbn iota. rewrite whitespace_rest, span_py_str. reflexivity. }
    rewrite (@range_parser_steps n (Some (codes ":")) (Some m) _ _ _ _ _ (Hopen _)
               (@integerP_py_str n (":" ++ py_str m ++ "]" ++ rest)%string eq_refl)
               Hsep Hsome).
    rewrite Hclose. reflexivity.
  - rewrite (@range_parser_steps n (Some (codes ",")) None _ _ _ ("]" ++ rest)%string _
               (Hopen _) (@integerP_py_str n ("," ++ "]" ++ rest)%string eq_refl)
               eq_refl Hnone).
    rewrite Hclose. reflexivity.
  - assert (Hsep : optional (colonP <|> commaP <|> dotdotP)
                     ("," ++ py_str m ++ "]" ++ rest)%string
                   = Success (Some (codes ",")) (py_str m ++ "]" ++ rest)%string).
    { apply optional_some. unfold alt.
      change (colonP ("," ++ py_str m ++ "]" ++ rest)%string) with (@Failure str).
      cbn iota. unfold commaP, lexeme, skip, then_, bind.
      rewrite whitespace_rest.
      change (span isspace ("," ++ py_str m ++ "]" ++ rest)%string)
        with (@nil N, ("," ++ py_str m ++ "]" ++ rest)%string).
      cbn [fst snd].
      change (pstring "," ("," ++ py_str m ++ "]" ++ rest)%string)
        with (Success (codes ",") (py_str m ++ "]" ++ rest)%string).
      cbn iota. rewrite whitespace_rest, span_py_str. reflexivity. }
    rewrite (@range_parser_steps n (Some (codes ",")) (Some m) _ _ _ _ _ (Hopen _)
               (@integerP_py_str n ("," ++ py_str m ++ "]" ++ rest)%string eq_refl)
               Hsep Hsome).
    rewrite Hclose. reflexivity.
  - rewrite (@range_parser_steps n (Some (codes "..")) None _ _ _ ("]" ++ rest)%string _
               (Hopen _) (@integerP_py_str n (".." ++ "]" ++ rest)%string eq_refl)
               eq_refl Hnone).
    rewrite Hclose. reflexivity.
  - assert (Hsep : optional (colonP <|> commaP <|> dotdotP)
                     (".." ++ py_str m ++ "]" ++ rest)%string
                   = Success (Some (codes "..")) (py_str m ++ "]" ++ rest)%string).
    { apply optional_some. unfold alt.
      change (colonP (".." ++ py_str m ++ "]" ++ rest)%string) with (@Failure str).
      change (commaP (".." ++ py_str m ++ "]" ++ rest)%string) with (@Failure str).
      cbn iota. unfold dotdotP, lexeme, skip, then_, bind.
      rewrite whitespace_rest.
      change (span isspace (".." ++ py_str m ++ "]" ++ rest)%string)
        with (@nil N, (".." ++ py_str m ++ "]" ++ rest)%string).
      cbn [fst snd].
      change (pstring ".." (".." ++ py_str m ++ "]" ++ rest)%string)
        with (Success (codes "..") (py_str m ++ "]" ++ rest)%string).
      cbn iota. rewrite whitespace_rest, span_py_str. reflexivity. }
    rewrite (@range_parser_steps n (Some (codes "..")) (Some m) _ _ _ _ _ (Hopen _)
               (@integerP_py_str n (".." ++ py_str m ++ "]" ++ rest)%string eq_refl)
               Hsep Hsome).
    rewrite Hclose. reflexivity.
Qed.

End Ranges.

(* ------------------------------------------------------------------ *)
(** ** The preamble and the operators *)

Lemma last_of_cons {A} (l : list A) : forall x a b, last (x :: l) a = last (x :: l) b.
Proof.
  induction l as [|y l IH]; intros x a b; [reflexivity|].
  change (last (y :: l) a = last (y :: l) b). apply IH.
Qed.

Lemma dict_get_last (d : list (str * str)) key : forall default,
  Forall (fun kv => fst kv = key) d -> dict_get d key default = last (map snd d) default.
Proof.
  induction d as [|[k v] d IH]; intros default H; [reflexivity|].
  apply Forall_cons_iff in H. destruct H as [Hk Hd]. simpl in Hk. subst k.
  cbn [dict_get]. rewrite str_eqb_refl, (IH v Hd).
  destruct d as [|kv d]; [reflexivity|]. cbn [map snd].
  change (last (snd kv :: map snd d) v = last (snd kv :: map snd d) default).
  apply last_of_cons.
Qed.

(** X9. Every preamble is a list of [edge_type=...] entries, and the edge
    type of the query is the one of the last entry: the dictionary made of
    the entries keeps the last value of a key. Without an entry it is the
    default edge type. *)
Theorem preamble_last_entry_wins (EdgeType_default : str) text d s1 :
  preambleP text = Success d s1 ->
  Forall (fun kv => fst kv = codes "edge_type") d
  /\ resolved_edge_type EdgeType_default (Some d) = last (map snd d) EdgeType_default.
Proof.
  intros H. pose proof (yields_preambleP (fun _ => False) text) as Hd. rewrite H in Hd.
  split; [exact Hd|]. apply dict_get_last, Hd.
Qed.

Lemma preamble_last_entry_wins_witness :
  resolved_edge_type Sample.EdgeType_default
    (Some [(codes "edge_type", codes "foo"); (codes "edge_type", codes "delete")])
  = codes "delete".
Proof.
  assert (H : preambleP "edge_type=foo, edge_type=delete: a < 1"
              = Success [(codes "edge_type", codes "foo"); (codes "edge_type", codes "delete")]
                        "a < 1") by (vm_compute; reflexivity).
  exact (proj2 (@preamble_last_entry_wins Sample.EdgeType_default _ _ _ H)).
Defined.

Lemma strip_prefix_app lit s : strip_prefix lit (lit ++ s)%string = Some s.
Proof. induction lit as [|c lit IH]; simpl; auto. rewrite Ascii.eqb_refl. exact IH. Qed.

(** A token at the start of the text. *)
Lemma lexeme_pstring_read lit s :
  starts_with_char isspace (lit ++ s)%string = false ->
  lexeme (pstring lit) (lit ++ s)%string = Success (codes lit) (snd (span isspace s)).
Proof.
  intros H. unfold lexeme, skip, then_, bind. rewrite whitespace_rest.
  assert (E : span isspace (lit ++ s)%string = ([], (lit ++ s)%string)).
  { destruct (lit ++ s)%string as [|c t]; [reflexivity|]. apply span_stop, H. }
  rewrite E. cbn [fst snd]. unfold pstring. rewrite strip_prefix_app, whitespace_rest.
  reflexivity.
Qed.

Lemma less_is_not_less_or_equal (c : ascii) rest :
  starts_with_char (Ascii.eqb "=") rest = false ->
  lexeme (pstring (String c "=")) (String c rest) = Failure.
Proof.
  intros H. unfold lexeme, skip, then_, bind. rewrite whitespace_rest.
  destruct (isspace c) eqn:Ec.
  - rewrite (@span_go isspace c rest Ec). cbn [fst snd]. unfold pstring.
    destruct (snd (span isspace rest)) as [|d t] eqn:Er; [reflexivity|].
    cbn [strip_prefix]. destruct (Ascii.eqb_spec c d) as [<- | Hcd]; [|reflexivity].
    exfalso. clear H. revert Er. induction rest as [|x rest IH]; simpl; [discriminate|].
    destruct (isspace x) eqn:Ex.
    + destruct (span isspace rest). simpl in *. exact IH.
    + simpl. intros E. inversion E; subst. congruence.
  - rewrite (@span_stop isspace c rest Ec). cbn [fst snd]. unfold pstring.
    cbn [strip_prefix]. rewrite Ascii.eqb_refl.
    destruct rest as [|d t]; [reflexivity|]. cbn [starts_with_char] in H.
    cbn [strip_prefix]. rewrite H. reflexivity.
Qed.

(** Each operator is read as itself. *)
Lemma operationP_read op rest :
  In op operations ->
  starts_with_char (Ascii.eqb "=") rest = false ->
  operationP (op ++ rest)%string = Success (codes op) (snd (span isspace rest)).
Proof.
  intros Hin Hrest. unfold operations in Hin.
  assert (Hlt : lexeme (pstring "<=") ("<" ++ rest)%string = Failure)
    by apply (@less_is_not_less_or_equal "<" rest Hrest).
  assert (Hgt : lexeme (pstring ">=") (">" ++ rest)%string = Failure)
    by apply (@less_is_not_less_or_equal ">" rest Hrest).
  repeat (destruct Hin as [<- | Hin]; [|]); try contradiction;
    unfold operationP, alts, map, fold_left, alt;
    repeat match goal with
           | |- context [lexeme (pstring ?a) ?s] =>
               first [ change (lexeme (pstring a) s) with (@Failure str)
                     | rewrite (@lexeme_pstring_read a rest eq_refl)
                     | rewrite Hlt
                     | rewrite Hgt ]
           end;
    reflexivity.
Qed.

(** X10. [operationP] reads each of the ten operators as itself, with the
    whitespace behind it, unless an equals sign follows: the operators of
    two characters are tried before [<] and [>], so that [<=] is never read
    as [<]. *)
Theorem operation_read op rest :
  In op operations ->
  starts_with_char (Ascii.eqb "=") rest = false ->
  operationP (op ++ rest)%string = Success (codes op) (snd (span isspace rest)).
Proof. apply operationP_read. Qed.

Lemma operation_read_witness :
  operationP "< 1" = Success (codes "<") "1"
  /\ operationP "<= 1" = Success (codes "<=") "1".
Proof.
  split.
  - refine (@operation_read "<" " 1" _ _); [simpl; tauto | reflexivity].
  - refine (@operation_read "<=" " 1" _ _); [simpl; tauto | reflexivity].
Defined.

(* ------------------------------------------------------------------ *)
(** ** Terms and queries, written and read *)

Lemma skipped_refl s : skipped s s.
Proof. left. reflexivity. Qed.

Lemma span_idempotent f s : span f (snd (span f s)) = ([], snd (span f s)).
Proof.
  induction s as [|c s IH]; [reflexivity|]. simpl.
  destruct (f c) eqn:E.
  - destruct (span f s). simpl in *. exact IH.
  - simpl. rewrite E. reflexivity.
Qed.

Lemma skipped_span r rest :
  skipped r rest -> snd (span isspace r) = snd (span isspace rest).
Proof. intros [-> | ->]; [reflexivity|]. rewrite span_idempotent. reflexivity. Qed.

(** A token reads the same from both. *)
Lemma lexeme_skipped {A} (p : Parser A) r rest :
  skipped r rest -> lexeme p r = lexeme p rest.
Proof.
  intros H. apply skipped_span in H. unfold lexeme, skip, then_, bind.
  rewrite !whitespace_rest, H. reflexivity.
Qed.

Lemma skipped_stop r rest :
  skipped r rest -> starts_with_char isspace rest = false -> r = rest.
Proof.
  intros [-> | ->] H; [reflexivity|].
  destruct rest as [|c rest]; [reflexivity|]. simpl in H. rewrite (@span_stop _ _ _ H).
  reflexivity.
Qed.

Lemma span_none f s : starts_with_char f s = false -> span f s = ([], s).
Proof. destruct s as [|c s]; [reflexivity|]. apply span_stop. Qed.

Lemma text_of_codes (f : ascii -> bool) s :
  forallb (in_class f) s = true ->
  codes (text_of s) = s /\ all_chars f (text_of s) = true.
Proof.
  induction s as [|c s IH]; [split; reflexivity|]. cbn [forallb text_of fold_right].
  intros H. apply andb_true_iff in H. destruct H as [Hc Hs].
  destruct (IH Hs) as [E1 E2]. fold (text_of s).
  unfold in_class in Hc. apply andb_true_iff in Hc. destruct Hc as [Hlt Hf].
  apply N.ltb_lt in Hlt. rewrite codes_String, E1, (N_ascii_embedding _ Hlt).
  split; [reflexivity|]. cbn [all_chars]. rewrite Hf, E2. reflexivity.
Qed.

Lemma span_run f s : forall rest,
  all_chars f s = true -> starts_with_char f rest = false ->
  span f (s ++ rest)%string = (codes s, rest).
Proof.
  induction s as [|c s IH]; intros rest Hs Hrest.
  - apply span_none, Hrest.
  - cbn [all_chars] in Hs. apply andb_true_iff in Hs. destruct Hs as [Hc Hs].
    cbn [append]. rewrite (@span_go _ _ _ Hc), (IH rest Hs Hrest). reflexivity.
Qed.

Lemma alpha_not_space c : isalpha_ascii c = true -> isspace c = false.
Proof. destruct c as [[] [] [] [] [] [] [] []]; intros H; try discriminate H; reflexivity. Qed.

(** [lexeme(regex("[f][g]*"))] on a match of the regex. *)
Lemma lexeme_one_star_read (f g : ascii -> bool) s rest :
  (forall c, f c = true -> isspace c = false) ->
  one_star f g s = true -> starts_with_char g rest = false ->
  lexeme (regex_one_star f g) (text_of s ++ rest)%string
  = Success s (snd (span isspace rest)).
Proof.
  intros Hf Hs Hrest. destruct s as [|c s]; [discriminate|].
  cbn [one_star] in Hs. apply andb_true_iff in Hs. destruct Hs as [Hc Hs].
  destruct (@text_of_codes g s Hs) as [E1 E2].
  unfold in_class in Hc. apply andb_true_iff in Hc. destruct Hc as [Hlt Hc].
  apply N.ltb_lt in Hlt.
  cbn [text_of fold_right]. fold (text_of s). cbn [append].
  unfold lexeme, skip, then_, bind. rewrite whitespace_rest.
  rewrite (@span_stop _ _ _ (Hf _ Hc)). cbn [fst snd].
  unfold regex_one_star. rewrite Hc, (@span_run g _ _ E2 Hrest), E1.
  rewrite (N_ascii_embedding _ Hlt), whitespace_rest. reflexivity.
Qed.

Lemma text_of_head (f g : ascii -> bool) s :
  one_star f g s = true ->
  exists c t, text_of s = String c t /\ f c = true /\ all_chars g t = true.
Proof.
  destruct s as [|c s]; [discriminate|]. cbn [one_star]. intros H.
  apply andb_true_iff in H. destruct H as [Hc Hs].
  unfold in_class in Hc. apply andb_true_iff in Hc. destruct Hc as [_ Hc].
  exists (ascii_of_N c), (text_of s). split; [reflexivity|]. split; [exact Hc|].
  apply (@text_of_codes g s Hs).
Qed.

(** *** Values *)

Section ValueInduction.

Variable P : Value -> Prop.
Hypothesis HStr : forall s, P (VStr s).
Hypothesis HFloat : forall literal, P (VFloat literal).
Hypothesis HInt : forall n, P (VInt n).
Hypothesis HList : forall elements, Forall P elements -> P (VList elements).
Hypothesis HBool : forall b, P (VBool b).
Hypothesis HNone : P VNone.

Lemma value_induction : forall v, P v.
Proof.
  fix IH 1. intros [s | literal | n | elements | b |].
  - apply HStr.
  - apply HFloat.
  - apply HInt.
  - apply HList. induction elements as [|x r IHr]; constructor; [apply IH | exact IHr].
  - apply HBool.
  - apply HNone.
Qed.

End ValueInduction.

Lemma decimals_spec s : forall a b,
  decimals s = (a, b) -> s = a ++ b /\ forallb is_decimal_code a = true.
Proof.
  induction s as [|c s IH]; intros a b H; simpl in H.
  - inversion H. split; reflexivity.
  - destruct (is_decimal_code c) eqn:Ec.
    + destruct (decimals s) as [a' b'] eqn:E. inversion H; subst.
      destruct (IH a' b eq_refl) as [-> Ha]. split; [reflexivity|].
      simpl. rewrite Ec, Ha. reflexivity.
    + inversion H; subst. split; reflexivity.
Qed.

Lemma decimal_in_class c : is_decimal_code c = true -> in_class isdecimal c = true.
Proof.
  unfold is_decimal_code. intros H. apply andb_true_iff in H. destruct H as [H1 H2].
  apply N.leb_le in H1. apply N.leb_le in H2.
  assert (E : c = (48 + (c - 48))%N) by lia. rewrite E.
  assert (Hd : (c - 48 < 10)%N) by lia. revert Hd. generalize (c - 48)%N as d.
  intros d Hd. destruct d as [|p]; [reflexivity|].
  do 4 (try (destruct p as [p|p|]; try lia; try reflexivity)).
Qed.

Lemma text_of_app a b : text_of (a ++ b) = (text_of a ++ text_of b)%string.
Proof. induction a as [|c a IH]; simpl; [reflexivity|]. fold (text_of (a ++ b)). rewrite IH. reflexivity. Qed.

Lemma decimal_text a :
  forallb is_decimal_code a = true ->
  codes (text_of a) = a /\ all_chars isdecimal (text_of a) = true.
Proof.
  intros H. apply text_of_codes. eapply forallb_weaken; [|exact H].
  apply decimal_in_class.
Qed.

Lemma codes_app a b : codes (a ++ b)%string = codes a ++ codes b.
Proof. induction a as [|c a IH]; [reflexivity|]. cbn [append]. rewrite !codes_String, IH. reflexivity. Qed.

Lemma many_digit_codes ds rest :
  all_chars isdigit ds = true -> starts_with_char isdigit rest = false ->
  exists items, many digit (ds ++ rest)%string = Success items rest
                /\ concat items = codes ds.
Proof.
  intros Hds Hrest. eexists. split; [apply many_digit_run; assumption|].
  rewrite concat_singletons. reflexivity.
Qed.

(** [floatP] on digits, a dot and digits. *)
Lemma floatP_read a b rest :
  forallb is_decimal_code a = true -> forallb is_decimal_code b = true ->
  match a, b with [], [] => false | _, _ => true end = true ->
  starts_with_char isdigit rest = false ->
  floatP (text_of (a ++ 46%N :: b)%list ++ rest)%string
  = Success (VFloat (a ++ 46%N :: b)) rest.
Proof.
  intros Ha Hb Hab Hrest.
  destruct (decimal_text a Ha) as [Ea Da], (decimal_text b Hb) as [Eb Db].
  assert (Dga : all_chars isdigit (text_of a) = true)
    by (eapply all_chars_weaken; [apply isdecimal_isdigit | exact Da]).
  assert (Dgb : all_chars isdigit (text_of b) = true)
    by (eapply all_chars_weaken; [apply isdecimal_isdigit | exact Db]).
  rewrite text_of_app. change (text_of (46%N :: b)) with ("." ++ text_of b)%string.
  rewrite !append_assoc.
  destruct (@many_digit_codes (text_of a) ("." ++ text_of b ++ rest)%string Dga eq_refl)
    as (ia & Hia & Eia).
  destruct (@many_digit_codes (text_of b) rest Dgb Hrest) as (ib & Hib & Eib).
  unfold floatP, pmap_raising, concat_, pmap, plus. unfold bind at 1 2 3 4.
  rewrite Hia. unfold result, then_. unfold bind at 1 2.
  change (pstring "." ("." ++ text_of b ++ rest)%string)
    with (Success (codes ".") (text_of b ++ rest)%string).
  cbn iota. unfold success at 1 2. cbn iota. unfold bind at 1. rewrite Hib.
  unfold success. rewrite !concat_app, Eia, Eib, Ea, Eb.
  change (concat [codes "."]) with [46%N].
  unfold py_float.
  assert (T1 : forallb (fun c => is_decimal_code c || N.eqb c 46) (a ++ [46%N] ++ b) = true).
  { rewrite !forallb_app. cbn [forallb]. rewrite andb_true_r.
    rewrite (@forallb_weaken _ is_decimal_code _ a), (@forallb_weaken _ is_decimal_code _ b);
      auto; intros x ->; reflexivity. }
  assert (T2 : existsb is_decimal_code (a ++ [46%N] ++ b) = true).
  { destruct a as [|x a]; [destruct b as [|y b]; [discriminate|]|].
    - cbn [forallb] in Hb. apply andb_true_iff in Hb. destruct Hb as [Hy _].
      cbn [app existsb]. rewrite Hy. reflexivity.
    - cbn [forallb] in Ha. apply andb_true_iff in Ha. destruct Ha as [Hx _].
      cbn [app existsb]. rewrite Hx. reflexivity. }
  rewrite <- app_assoc. rewrite T1, T2. reflexivity.
Qed.

Lemma float_text_shape literal :
  is_float_text literal = true ->
  exists a b, literal = a ++ 46%N :: b
              /\ forallb is_decimal_code a = true /\ forallb is_decimal_code b = true
              /\ match a, b with [], [] => false | _, _ => true end = true.
Proof.
  unfold is_float_text. destruct (decimals literal) as [a b] eqn:E.
  destruct (decimals_spec _ E) as [-> Ha]. destruct b as [|c b]; [discriminate|].
  intros H. apply andb_true_iff in H. destruct H as [H Hab].
  apply andb_true_iff in H. destruct H as [Hc Hb]. apply N.eqb_eq in Hc. subst c.
  exists a, b. auto.
Qed.

Lemma alt_success {A} (p q : Parser A) s v r : p s = Success v r -> alt p q s = Success v r.
Proof. intros H. unfold alt. rewrite H. reflexivity. Qed.

Lemma alt_failure {A} (p q : Parser A) s : p s = Failure -> alt p q s = q s.
Proof. intros H. unfold alt. rewrite H. reflexivity. Qed.

Lemma forallb_Forall {A} (f : A -> bool) (l : list A) :
  forallb f l = true -> Forall (fun x => f x = true) l.
Proof. intros H. apply Forall_forall. apply forallb_forall. exact H. Qed.

Lemma bmp_below s : bmp s = true -> Forall (fun c => (c < 65536)%N) s.
Proof.
  intros H. apply forallb_Forall in H. eapply Forall_impl; [|exact H].
  intros c Hc. apply N.ltb_lt, Hc.
Qed.

Lemma follows_spec rest :
  follows rest = true ->
  starts_with_char isdigit rest = false /\ starts_with_char (Ascii.eqb ".") rest = false.
Proof.
  unfold follows. destruct rest as [|c rest]; [split; reflexivity|]. cbn [starts_with_char].
  intros H. apply negb_true_iff in H. apply orb_false_iff in H. exact H.
Qed.

(** The text of a value starts with a quote, a digit, a dot, a bracket or
    a letter. *)
Lemma written_value_start v s :
  writable_value v = true ->
  starts_with_char (fun c => isspace c || Ascii.eqb c ",") (written_value v ++ s)%string
  = false.
Proof.
  destruct v as [t | literal | n | elements | b |]; intros H.
  - reflexivity.
  - cbn [writable_value written_value] in *.
    destruct (float_text_shape _ H) as (a & b & -> & Ha & _).
    destruct a as [|x a]; [reflexivity|].
    cbn [forallb] in Ha. apply andb_true_iff in Ha. destruct Ha as [Hx _].
    apply decimal_in_class in Hx. unfold in_class in Hx.
    apply andb_true_iff in Hx. destruct Hx as [_ Hx].
    cbn [app text_of fold_right append starts_with_char].
    destruct (ascii_of_N x) as [[] [] [] [] [] [] [] []]; try discriminate Hx; reflexivity.
  - cbn [written_value]. destruct (py_str_head n) as (d & ds & -> & Hd).
    cbn [append starts_with_char].
    destruct d as [[] [] [] [] [] [] [] []]; try discriminate Hd; reflexivity.
  - destruct elements; reflexivity.
  - destruct b; reflexivity.
  - reflexivity.
Qed.

Lemma written_value_no_space v s :
  writable_value v = true -> starts_with_char isspace (written_value v ++ s)%string = false.
Proof.
  intros H. pose proof (written_value_start v s H) as E.
  destruct (written_value v ++ s)%string as [|c t]; [reflexivity|].
  cbn [starts_with_char] in *. apply orb_false_iff in E. tauto.
Qed.

Lemma floatP_none s :
  starts_with_char isdigit s = false -> starts_with_char (Ascii.eqb ".") s = false ->
  floatP s = Failure.
Proof.
  intros Hd Hdot. unfold floatP, pmap_raising, concat_, pmap, plus, bind.
  rewrite (many_digit_none _ Hd). unfold result, then_, bind, pstring.
  destruct s as [|c s]; [reflexivity|]. cbn [starts_with_char] in Hdot.
  cbn [strip_prefix]. rewrite Hdot. reflexivity.
Qed.

Lemma integerP_none s : starts_with_char isdigit s = false -> integerP s = Failure.
Proof.
  intros Hd. unfold integerP, pmap_raising, concat_, pmap, at_least1, plus, times1, pmap,
    bind, digit, test_char.
  destruct s as [|c s]; [reflexivity|]. cbn [starts_with_char] in Hd. rewrite Hd.
  reflexivity.
Qed.

(** What [valueP] does where the text starts with a bracket: it reads an
    array. *)
Lemma valueP_bracket s :
  valueP ("[" ++ s)%string
  = match array_parser ("[" ++ s)%string with
    | Success elements r => Success (VList elements) r
    | Failure => Failure
    | Raise e => Raise e
    | Hang => Hang
    end.
Proof.
  rewrite valueP_unfold. unfold valueP_of.
  assert (A : pmap VStr quotedStringP ("[" ++ s)%string = Failure) by reflexivity.
  assert (B : floatP ("[" ++ s)%string = Failure) by (apply floatP_none; reflexivity).
  assert (C : pmap VInt integerP ("[" ++ s)%string = Failure)
    by (unfold pmap, bind; rewrite integerP_none; reflexivity).
  unfold alt. rewrite A, B, C. unfold pmap, bind.
  destruct (array_parser ("[" ++ s)%string); reflexivity.
Qed.

Lemma valueP_close s : valueP ("]" ++ s)%string = Failure.
Proof.
  rewrite valueP_unfold. unfold valueP_of.
  assert (A : pmap VStr quotedStringP ("]" ++ s)%string = Failure) by reflexivity.
  assert (B : floatP ("]" ++ s)%string = Failure) by (apply floatP_none; reflexivity).
  assert (C : pmap VInt integerP ("]" ++ s)%string = Failure)
    by (unfold pmap, bind; rewrite integerP_none; reflexivity).
  unfold alt. rewrite A, B, C. reflexivity.
Qed.

Lemma valueP_word (word : string) (v : Value) s :
  In (word, v) [("true", VBool true); ("false", VBool false); ("null", VNone)] ->
  valueP (word ++ s)%string = Success v (snd (span isspace s)).
Proof.
  intros Hin. rewrite valueP_unfold. unfold valueP_of.
  repeat (destruct Hin as [E | Hin]; [inversion E; subst; clear E|]); try contradiction.
  - assert (A : pmap VStr quotedStringP ("true" ++ s)%string = Failure) by reflexivity.
    assert (B : floatP ("true" ++ s)%string = Failure) by (apply floatP_none; reflexivity).
    assert (C : pmap VInt integerP ("true" ++ s)%string = Failure)
      by (unfold pmap, bind; rewrite integerP_none; reflexivity).
    assert (D : pmap VList array_parser ("true" ++ s)%string = Failure) by reflexivity.
    unfold alt. rewrite A, B, C, D. unfold trueP, result, then_, bind.
    rewrite (@lexeme_pstring_read "true" s eq_refl). reflexivity.
  - assert (A : pmap VStr quotedStringP ("false" ++ s)%string = Failure) by reflexivity.
    assert (B : floatP ("false" ++ s)%string = Failure) by (apply floatP_none; reflexivity).
    assert (C : pmap VInt integerP ("false" ++ s)%string = Failure)
      by (unfold pmap, bind; rewrite integerP_none; reflexivity).
    assert (D : pmap VList array_parser ("false" ++ s)%string = Failure) by reflexivity.
    assert (T : trueP ("false" ++ s)%string = Failure) by reflexivity.
    unfold alt. rewrite A, B, C, D, T. unfold falseP, result, then_, bind.
    rewrite (@lexeme_pstring_read "false" s eq_refl). reflexivity.
  - assert (A : pmap VStr quotedStringP ("null" ++ s)%string = Failure) by reflexivity.
    assert (B : floatP ("null" ++ s)%string = Failure) by (apply floatP_none; reflexivity).
    assert (C : pmap VInt integerP ("null" ++ s)%string = Failure)
      by (unfold pmap, bind; rewrite integerP_none; reflexivity).
    assert (D : pmap VList array_parser ("null" ++ s)%string = Failure) by reflexivity.
    assert (T : trueP ("null" ++ s)%string = Failure) by reflexivity.
    assert (F : falseP ("null" ++ s)%string = Failure) by reflexivity.
    unfold alt. rewrite A, B, C, D, T, F. unfold nullP, result, then_, bind.
    rewrite (@lexeme_pstring_read "null" s eq_refl). reflexivity.
Qed.

Lemma fold_right_append {A} (f : A -> string) (l : list A) (base rest : string) :
  (fold_right (fun e acc => "," ++ f e ++ acc) base l ++ rest)%string
  = fold_right (fun e acc => ("," ++ f e ++ acc)%string) (base ++ rest)%string l.
Proof.
  induction l as [|x l IH]; [reflexivity|]. cbn [fold_right].
  rewrite !append_assoc, IH. reflexivity.
Qed.

(** The text behind an element: a comma or what closes the list. *)
Lemma after_element {A} (f : A -> string) (l : list A) (base : string) :
  starts_with_char (fun c => isspace c || isdigit c || Ascii.eqb "." c) base = false ->
  starts_with_char (fun c => isspace c || isdigit c || Ascii.eqb "." c)
    (fold_right (fun e acc => ("," ++ f e ++ acc)%string) base l) = false.
Proof. intros H. destruct l; [exact H | reflexivity]. Qed.

Lemma no_space_no_number s :
  starts_with_char (fun c => isspace c || isdigit c || Ascii.eqb "." c) s = false ->
  starts_with_char isspace s = false /\ follows s = true.
Proof.
  unfold follows. destruct s as [|c s]; [split; reflexivity|]. cbn [starts_with_char].
  intros H. apply orb_false_iff in H. destruct H as [H Hdot].
  apply orb_false_iff in H. destruct H as [Hs Hd]. rewrite Hs, Hd, Hdot. split; reflexivity.
Qed.

Lemma eager_comma_value n : eager n (commaP >> valueP).
Proof. apply eager_then_l; auto with progress. Qed.

(** The elements behind the first one, each behind its comma. *)
Lemma many_comma_values (elements : list Value) (base : string) :
  Forall (fun v => writable_value v = true /\
                   forall rest, follows rest = true ->
                   exists r, valueP (written_value v ++ rest)%string = Success v r
                             /\ skipped r rest) elements ->
  commaP base = Failure ->
  starts_with_char (fun c => isspace c || isdigit c || Ascii.eqb "." c) base = false ->
  many (commaP >> valueP)
       (fold_right (fun e acc => ("," ++ written_value e ++ acc)%string) base elements)
  = Success elements base.
Proof.
  intros H Hcomma Hbase. induction H as [|v l [Hw Hv] _ IH].
  - apply many_nil. unfold then_, bind. cbn [fold_right]. rewrite Hcomma. reflexivity.
  - cbn [fold_right].
    set (T := fold_right (fun e acc => ("," ++ written_value e ++ acc)%string) base l) in *.
    destruct (no_space_no_number _ (after_element written_value l base Hbase))
      as [Hspace Hfollows]. fold T in Hspace, Hfollows.
    destruct (Hv T Hfollows) as (r & Hr & Hskip).
    apply (skipped_stop Hskip) in Hspace. subst r.
    eapply many_cons; [apply eager_comma_value | | exact IH].
    unfold then_, bind, commaP.
    rewrite (@lexeme_pstring_read "," (written_value v ++ T)%string eq_refl).
    rewrite (span_none _ _ (written_value_no_space v T Hw)). cbn [snd]. exact Hr.
Qed.

Lemma sep_by_some {A B} (p : Parser A) (sep : Parser B) s x s1 r s2 :
  p s = Success x s1 -> many (sep >> p) s1 = Success r s2 ->
  sep_by p sep s = Success (x :: r) s2.
Proof.
  intros Hx Hr. unfold sep_by, alt, plus, times1, pmap, bind. rewrite Hx. unfold success.
  rewrite Hr. reflexivity.
Qed.

Lemma sep_by_none {A B} (p : Parser A) (sep : Parser B) s :
  p s = Failure -> sep_by p sep s = Success [] s.
Proof. intros H. unfold sep_by, alt, plus, times1, pmap, bind. rewrite H. reflexivity. Qed.

Lemma array_parser_steps s s1 elements s2 s3 :
  lbrackP s = Success (codes "[") s1 ->
  sep_by valueP commaP s1 = Success elements s2 ->
  rbrackP s2 = Success (codes "]") s3 ->
  array_parser s = Success elements s3.
Proof.
  intros H1 H2 H3. unfold array_parser, array_parser_of, bind. rewrite H1, H2, H3.
  reflexivity.
Qed.

Lemma float_text_start a b rest :
  forallb is_decimal_code a = true ->
  starts_with_char (fun c => isspace c || Ascii.eqb c "034")
    (text_of (a ++ 46%N :: b)%list ++ rest)%string = false.
Proof.
  intros Ha. destruct a as [|x a]; [reflexivity|].
  cbn [forallb] in Ha. apply andb_true_iff in Ha. destruct Ha as [Hx _].
  apply decimal_in_class in Hx. unfold in_class in Hx.
  apply andb_true_iff in Hx. destruct Hx as [_ Hx].
  cbn [app text_of fold_right append starts_with_char].
  apply decimal_no_quote, Hx.
Qed.

(** A value is read back from its text, up to what follows it or to the
    end of the whitespace behind it. *)
Lemma valueP_written : forall v,
  writable_value v = true ->
  forall rest, follows rest = true ->
  exists r, valueP (written_value v ++ rest)%string = Success v r /\ skipped r rest.
Proof.
  intros v. induction v as [s | literal | n | elements IH | b |] using value_induction.
  - intros Hw rest _. cbn [writable_value written_value] in *.
    exists (snd (span isspace rest)). split; [|right; reflexivity].
    rewrite valueP_unfold. unfold valueP_of.
    repeat apply alt_success. unfold pmap, bind.
    rewrite (quotedStringP_quoted_text rest (bmp_below _ Hw)). reflexivity.
  - intros Hw rest Hrest. cbn [writable_value written_value] in *.
    destruct (follows_spec _ Hrest) as [Hd _].
    destruct (float_text_shape _ Hw) as (a & b & -> & Ha & Hb & Hab).
    exists rest. split; [|left; reflexivity].
    rewrite valueP_unfold. unfold valueP_of.
    do 5 apply alt_success. rewrite alt_failure; [apply floatP_read; assumption|].
    unfold pmap, bind. rewrite quotedStringP_no_quote; [reflexivity|].
    apply float_text_start, Ha.
  - intros _ rest Hrest. destruct (follows_spec _ Hrest) as [Hd Hdot].
    exists rest. split; [|left; reflexivity]. apply valueP_py_str; assumption.
  - intros Hw rest _. cbn [writable_value] in Hw.
    exists (snd (span isspace rest)). split; [|right; reflexivity].
    assert (Hclose : rbrackP ("]" ++ rest)%string
                     = Success (codes "]") (snd (span isspace rest)))
      by apply (@lexeme_pstring_read "]" rest eq_refl).
    destruct elements as [|x r].
    + change (written_value (VList []) ++ rest)%string with ("[" ++ "]" ++ rest)%string.
      rewrite valueP_bracket.
      assert (H1 : lbrackP ("[" ++ "]" ++ rest)%string
                   = Success (codes "[") ("]" ++ rest)%string)
        by apply (@lexeme_pstring_read "[" ("]" ++ rest)%string eq_refl).
      assert (H2 : sep_by valueP commaP ("]" ++ rest)%string
                   = Success [] ("]" ++ rest)%string)
        by apply sep_by_none, valueP_close.
      rewrite (@array_parser_steps _ _ _ _ _ H1 H2 Hclose). reflexivity.
    + cbn [forallb] in Hw. apply andb_true_iff in Hw. destruct Hw as [Hx Hr].
      apply Forall_cons_iff in IH. destruct IH as [IHx IHr].
      cbn [written_value]. rewrite !append_assoc, fold_right_append.
      set (T := fold_right (fun e acc => ("," ++ written_value e ++ acc)%string)
                           ("]" ++ rest)%string r).
      change (("[" ++ written_value x) ++ T)%string with ("[" ++ written_value x ++ T)%string.
      assert (Hbase : starts_with_char
                        (fun c => isspace c || isdigit c || Ascii.eqb "." c)
                        ("]" ++ rest)%string = false) by reflexivity.
      destruct (no_space_no_number _ (after_element written_value r _ Hbase))
        as [Hspace Hfollows]. fold T in Hspace, Hfollows.
      destruct (IHx Hx T Hfollows) as (r1 & Hr1 & Hskip).
      apply (skipped_stop Hskip) in Hspace. subst r1.
      rewrite valueP_bracket.
      assert (H1 : lbrackP ("[" ++ written_value x ++ T)%string
                   = Success (codes "[") (written_value x ++ T)%string).
      { unfold lbrackP.
        rewrite (@lexeme_pstring_read "[" (written_value x ++ T)%string eq_refl).
        rewrite (span_none _ _ (written_value_no_space x T Hx)). reflexivity. }
      assert (H2 : sep_by valueP commaP (written_value x ++ T)%string
                   = Success (x :: r) ("]" ++ rest)%string).
      { apply sep_by_some with (s1 := T); [exact Hr1|].
        apply many_comma_values; [|reflexivity|exact Hbase].
        apply Forall_forall. intros v Hin. split.
        - apply (proj1 (forallb_forall _ _) Hr v Hin).
        - apply (proj1 (Forall_forall _ _) IHr v Hin).
          apply (proj1 (forallb_forall _ _) Hr v Hin). }
      rewrite (@array_parser_steps _ _ _ _ _ H1 H2 Hclose). reflexivity.
  - intros _ rest _. exists (snd (span isspace rest)). split; [|right; reflexivity].
    destruct b; apply valueP_word; simpl; tauto.
  - intros _ rest _. exists (snd (span isspace rest)). split; [|right; reflexivity].
    apply valueP_word; simpl; tauto.
Qed.

(** *** Leaf terms *)

Lemma variableP_read name rest :
  is_variable name = true -> starts_with_char variable_char rest = false ->
  variableP (text_of name ++ rest)%string = Success name (snd (span isspace rest)).
Proof.
  intros Hn Hrest. unfold variableP.
  apply lexeme_one_star_read; [apply alpha_not_space | exact Hn | exact Hrest].
Qed.

Lemma literalP_read name rest :
  is_literal name = true -> starts_with_char isalnum_ascii rest = false ->
  literalP (text_of name ++ rest)%string = Success name (snd (span isspace rest)).
Proof.
  intros Hn Hrest. unfold literalP.
  apply lexeme_one_star_read; [apply alpha_not_space | exact Hn | exact Hrest].
Qed.

Lemma text_of_string a : text_of (codes a) = a.
Proof.
  induction a as [|c a IH]; [reflexivity|]. rewrite codes_String.
  cbn [text_of fold_right]. fold (text_of (codes a)). rewrite IH, ascii_N_embedding.
  reflexivity.
Qed.

Lemma one_of_in x (l : list string) :
  one_of x l = true -> exists a, In a l /\ x = codes a /\ text_of x = a.
Proof.
  unfold one_of. intros H. apply existsb_exists in H. destruct H as (a & Hin & E).
  apply str_eqb_eq in E. subst x. exists a. split; [exact Hin|]. split; [reflexivity|].
  apply text_of_string.
Qed.

Lemma lparenP_fails s :
  starts_with_char (Ascii.eqb "(") (snd (span isspace s)) = false -> lparenP s = Failure.
Proof.
  intros H. unfold lparenP, lexeme, skip, then_, bind. rewrite whitespace_rest.
  cbn [snd]. unfold pstring. destruct (snd (span isspace s)) as [|c t]; [reflexivity|].
  cbn [starts_with_char] in H. cbn [strip_prefix]. rewrite H. reflexivity.
Qed.

(** A keyword in front of a text is the start of the word there, or the
    text stops short of it. *)
Lemma strip_prefix_word kw : forall word c rest z,
  all_chars (fun k => negb (Ascii.eqb k c)) kw = true ->
  strip_prefix kw (word ++ String c rest)%string = Some z ->
  exists more, word = (kw ++ more)%string /\ z = (more ++ String c rest)%string.
Proof.
  induction kw as [|k kw IH]; intros word c rest z Hkw H.
  - cbn [strip_prefix] in H. inversion H; subst. exists word. split; reflexivity.
  - cbn [all_chars] in Hkw. apply andb_true_iff in Hkw. destruct Hkw as [Hk Hkw].
    apply negb_true_iff in Hk.
    destruct word as [|w word]; cbn [append strip_prefix] in H.
    + rewrite Hk in H. discriminate.
    + destruct (Ascii.eqb_spec k w) as [<- | Hne]; [|discriminate].
      destruct (IH word c rest z Hkw H) as (more & -> & ->).
      exists more. split; reflexivity.
Qed.

Lemma variable_char_plain c :
  variable_char c = true -> isspace c = false /\ Ascii.eqb "(" c = false.
Proof.
  destruct c as [[] [] [] [] [] [] [] []]; intros H; try discriminate H; split; reflexivity.
Qed.

Lemma operation_start a rest :
  In a operations ->
  starts_with_char (fun c => isspace c || Ascii.eqb "(" c) (a ++ rest)%string = false.
Proof.
  intros H. unfold operations in H.
  repeat (destruct H as [<- | H]; [reflexivity|]). contradiction.
Qed.

(** No call of [isinstance] or [id] is read where a predicate is written,
    whatever its name. *)
Lemma no_call_in_predicate kw name a rest :
  all_chars (fun k => negb (Ascii.eqb k " ")) kw = true ->
  is_variable name = true -> In a operations ->
  lexeme (pstring kw >> lparenP >> quotedStringP << rparenP)
         (text_of name ++ " " ++ a ++ rest)%string = Failure.
Proof.
  intros Hkw Hname Ha.
  destruct (text_of_head _ _ _ Hname) as (c & t & E & Hc & Ht).
  unfold lexeme, skip, then_. unfold bind at 1 2 3 4 5.
  rewrite whitespace_rest, E. cbn [append].
  rewrite (@span_stop _ _ _ (alpha_not_space _ Hc)). cbn [fst snd].
  unfold pstring at 1.
  destruct (strip_prefix kw (String c (t ++ String " " (a ++ rest)))%string)
    as [z|] eqn:Ez; [|reflexivity].
  change (String c (t ++ String " " (a ++ rest)))%string
    with (String c t ++ String " " (a ++ rest))%string in Ez.
  destruct (strip_prefix_word kw _ _ _ Hkw Ez) as (more & Emore & ->).
  assert (Hmore : all_chars variable_char more = true).
  { assert (Hall : all_chars variable_char (String c t) = true).
    { cbn [all_chars]. rewrite Ht, andb_true_r. unfold variable_char, isalnum_ascii.
      rewrite Hc. reflexivity. }
    rewrite Emore in Hall. clear - Hall.
    induction kw as [|k kw IH]; [exact Hall|]. cbn [append all_chars] in Hall.
    apply andb_true_iff in Hall. apply IH, Hall. }
  rewrite lparenP_fails; [reflexivity|].
  destruct more as [|m more].
  - cbn [append]. rewrite (@span_go _ " " _ eq_refl). cbn [snd].
    pose proof (@operation_start a rest Ha) as Hop.
    destruct (a ++ rest)%string as [|x y]; [reflexivity|]. cbn [starts_with_char] in Hop.
    apply orb_false_iff in Hop. destruct Hop as [Hs Hp].
    rewrite (@span_stop _ _ _ Hs). exact Hp.
  - cbn [all_chars] in Hmore. apply andb_true_iff in Hmore. destruct Hmore as [Hm _].
    destruct (variable_char_plain _ Hm) as [Hs Hp].
    cbn [append]. rewrite (@span_stop _ _ _ Hs). exact Hp.
Qed.

Lemma skip_one_space s :
  starts_with_char isspace s = false -> snd (span isspace (" " ++ s)%string) = s.
Proof.
  intros H. cbn [append]. rewrite (@span_go _ " " _ eq_refl). cbn [snd].
  rewrite (span_none _ _ H). reflexivity.
Qed.

Lemma operation_no_space a rest :
  In a operations -> starts_with_char isspace (a ++ rest)%string = false.
Proof.
  intros H. pose proof (@operation_start a rest H) as E.
  destruct (a ++ rest)%string as [|c t]; [reflexivity|]. cbn [starts_with_char] in *.
  apply orb_false_iff in E. tauto.
Qed.

Lemma predicate_term_written name op value rest :
  writable_term (Predicate name op value []) = true -> follows rest = true ->
  exists r,
    leafTermP (written_term (Predicate name op value []) ++ rest)%string
    = Success (Predicate name op value []) r
    /\ skipped r rest.
Proof.
  intros Hw Hrest. cbn [writable_term] in Hw.
  apply andb_true_iff in Hw. destruct Hw as [Hw _].
  apply andb_true_iff in Hw. destruct Hw as [Hw Hvalue].
  apply andb_true_iff in Hw. destruct Hw as [Hname Hop].
  destruct (@one_of_in _ _ Hop) as (a & Ha & -> & Ea).
  destruct (@valueP_written value Hvalue rest Hrest) as (r & Hr & Hskip).
  exists r. split; [|exact Hskip].
  cbn [written_term]. rewrite Ea, !append_assoc.
  unfold leafTermP. apply alt_success. rewrite alt_failure.
  - unfold predicate_term.
    rewrite (@bind_success _ _ _ _ _ _ _
               (@variableP_read name (" " ++ a ++ " " ++ written_value value ++ rest)%string
                  Hname eq_refl)).
    rewrite (@skip_one_space _ (@operation_no_space a _ Ha)).
    rewrite (@bind_success _ _ _ _ _ _ _
               (@operationP_read a (" " ++ written_value value ++ rest)%string Ha eq_refl)).
    rewrite (@skip_one_space _ (@written_value_no_space value rest Hvalue)).
    rewrite (@bind_success _ _ _ _ _ _ _ Hr). reflexivity.
  - rewrite alt_failure.
    + unfold id_term, pmap, bind.
      rewrite (@no_call_in_predicate "id" name a _ eq_refl Hname Ha). reflexivity.
    + unfold isinstance_term, pmap, bind.
      rewrite (@no_call_in_predicate "isinstance" name a _ eq_refl Hname Ha). reflexivity.
Qed.

Lemma after_argument (args : list Value) rest :
  starts_with_char (fun c => isspace c || isdigit c || Ascii.eqb "." c)
    (fold_right (fun e acc => ("," ++ written_value e ++ acc)%string) (")" ++ rest)%string
                args) = false
  /\ starts_with_char variable_char
       (fold_right (fun e acc => ("," ++ written_value e ++ acc)%string)
                   (")" ++ rest)%string args) = false.
Proof. destruct args; split; reflexivity. Qed.

Lemma function_steps fn name args s s1 s2 s3 s4 s5 :
  functionP s = Success fn s1 ->
  lparenP s1 = Success (codes "(") s2 ->
  variableP s2 = Success name s3 ->
  many (commaP >> valueP) s3 = Success args s4 ->
  rparenP s4 = Success (codes ")") s5 ->
  function_term s = Success (FunctionTerm fn name args) s5.
Proof.
  intros H1 H2 H3 H4 H5. unfold function_term, bind. rewrite H1, H2, H3, H4, H5.
  reflexivity.
Qed.

Lemma function_term_written fn name args rest :
  writable_term (FunctionTerm fn name args) = true ->
  leafTermP (written_term (FunctionTerm fn name args) ++ rest)%string
  = Success (FunctionTerm fn name args) (snd (span isspace rest)).
Proof.
  intros Hw. cbn [writable_term] in Hw.
  apply andb_true_iff in Hw. destruct Hw as [Hw Hargs].
  apply andb_true_iff in Hw. destruct Hw as [Hfn Hname].
  destruct (@one_of_in _ _ Hfn) as (a & Ha & -> & Ea).
  cbn [written_term]. rewrite Ea, !append_assoc, fold_right_append.
  set (T := fold_right (fun e acc => ("," ++ written_value e ++ acc)%string)
                       (")" ++ rest)%string args).
  destruct (after_argument args rest) as [Hbase Hvar]. fold T in Hbase, Hvar.
  destruct (@no_space_no_number T Hbase) as [Hspace _].
  destruct (@text_of_head _ _ _ Hname) as (c & t & E & Hc & _).
  assert (H2 : lparenP ("(" ++ text_of name ++ T)%string
               = Success (codes "(") (text_of name ++ T)%string).
  { unfold lparenP. rewrite (@lexeme_pstring_read "(" (text_of name ++ T)%string eq_refl).
    rewrite span_none; [reflexivity|]. rewrite E. apply alpha_not_space, Hc. }
  assert (H3 : variableP (text_of name ++ T)%string = Success name T).
  { rewrite (@variableP_read name T Hname Hvar), (span_none _ _ Hspace). reflexivity. }
  assert (H4 : many (commaP >> valueP) T = Success args (")" ++ rest)%string).
  { apply many_comma_values; [|reflexivity|reflexivity].
    apply Forall_forall. intros v Hin.
    assert (Hv : writable_value v = true) by apply (proj1 (forallb_forall _ _) Hargs v Hin).
    split; [exact Hv|]. apply valueP_written, Hv. }
  assert (H5 : rparenP (")" ++ rest)%string = Success (codes ")") (snd (span isspace rest)))
    by apply (@lexeme_pstring_read ")" rest eq_refl).
  unfold functions in Ha. unfold leafTermP.
  destruct Ha as [<- | [<- | []]].
  - assert (H1 : functionP ("in_subnet" ++ "(" ++ text_of name ++ T)%string
                 = Success (codes "in_subnet") ("(" ++ text_of name ++ T)%string)
      by reflexivity.
    rewrite alt_failure; [apply (@function_steps _ _ _ _ _ _ _ _ _ H1 H2 H3 H4 H5)|].
    reflexivity.
  - assert (H1 : functionP ("has_desired_change" ++ "(" ++ text_of name ++ T)%string
                 = Success (codes "has_desired_change") ("(" ++ text_of name ++ T)%string)
      by reflexivity.
    rewrite alt_failure; [apply (@function_steps _ _ _ _ _ _ _ _ _ H1 H2 H3 H4 H5)|].
    reflexivity.
Qed.

Lemma call_steps kw s s1 s2 k s3 s4 :
  pstring kw s = Success (codes kw) s1 ->
  lparenP s1 = Success (codes "(") s2 ->
  quotedStringP s2 = Success k s3 ->
  rparenP s3 = Success (codes ")") s4 ->
  starts_with_char isspace s = false ->
  lexeme (pstring kw >> lparenP >> quotedStringP << rparenP) s
  = Success k (snd (span isspace s4)).
Proof.
  intros H1 H2 H3 H4 Hs. unfold lexeme, skip, then_, bind.
  rewrite whitespace_rest, (span_none _ _ Hs). cbn [fst snd].
  rewrite H1, H2, H3, H4. unfold success. rewrite whitespace_rest. reflexivity.
Qed.

Lemma call_written kw k rest :
  starts_with_char isspace kw = false -> kw <> EmptyString -> bmp k = true ->
  lexeme (pstring kw >> lparenP >> quotedStringP << rparenP)
         (kw ++ "(" ++ quoted_text k ++ ")" ++ rest)%string
  = Success k (snd (span isspace rest)).
Proof.
  intros Hkw Hne Hk.
  assert (H1 : pstring kw (kw ++ "(" ++ quoted_text k ++ ")" ++ rest)%string
               = Success (codes kw) ("(" ++ quoted_text k ++ ")" ++ rest)%string).
  { unfold pstring. rewrite strip_prefix_app. reflexivity. }
  assert (H2 : lparenP ("(" ++ quoted_text k ++ ")" ++ rest)%string
               = Success (codes "(") (quoted_text k ++ ")" ++ rest)%string)
    by reflexivity.
  assert (H3 : quotedStringP (quoted_text k ++ ")" ++ rest)%string
               = Success k (")" ++ rest)%string)
    by apply (quotedStringP_quoted_text (")" ++ rest)%string (bmp_below _ Hk)).
  assert (H4 : rparenP (")" ++ rest)%string = Success (codes ")") (snd (span isspace rest)))
    by apply (@lexeme_pstring_read ")" rest eq_refl).
  rewrite (@call_steps kw _ _ _ _ _ _ H1 H2 H3 H4).
  - rewrite span_idempotent. reflexivity.
  - destruct kw; [congruence | exact Hkw].
Qed.

Lemma kind_test_written kind rest :
  bmp kind = true ->
  leafTermP (written_term (IsTerm [kind]) ++ rest)%string
  = Success (IsTerm [kind]) (snd (span isspace rest)).
Proof.
  intros Hk. cbn [written_term concat]. rewrite app_nil_r, !append_assoc.
  change ("isinstance(" ++ quoted_text kind ++ ")" ++ rest)%string
    with ("isinstance" ++ "(" ++ quoted_text kind ++ ")" ++ rest)%string.
  unfold leafTermP. do 3 apply alt_success. unfold isinstance_term, pmap, bind.
  rewrite (@call_written "isinstance" kind rest eq_refl ltac:(discriminate) Hk).
  reflexivity.
Qed.

Lemma id_test_written id rest :
  bmp id = true ->
  leafTermP (written_term (IdTerm id) ++ rest)%string
  = Success (IdTerm id) (snd (span isspace rest)).
Proof.
  intros Hk. cbn [written_term]. rewrite !append_assoc.
  change ("id(" ++ quoted_text id ++ ")" ++ rest)%string
    with ("id" ++ "(" ++ quoted_text id ++ ")" ++ rest)%string.
  unfold leafTermP. do 2 apply alt_success. rewrite alt_failure; [|reflexivity].
  unfold id_term, pmap, bind.
  rewrite (@call_written "id" id rest eq_refl ltac:(discriminate) Hk).
  reflexivity.
Qed.

(** *** Terms *)

(** The text of a term does not start with whitespace, and the text of a
    leaf does not start with a parenthesis. *)
Lemma written_term_start t s :
  writable_term t = true ->
  starts_with_char isspace (written_term t ++ s)%string = false
  /\ (is_combined t = false ->
      starts_with_char (Ascii.eqb "(") (written_term t ++ s)%string = false).
Proof.
  destruct t as [| name op value args | fn name args | kinds | id | l op r | pre ms post];
    intros Hw; try discriminate Hw; cbn [writable_term] in Hw.
  - apply andb_true_iff in Hw. destruct Hw as [Hw _].
    apply andb_true_iff in Hw. destruct Hw as [Hw _].
    apply andb_true_iff in Hw. destruct Hw as [Hname _].
    destruct (@text_of_head _ _ _ Hname) as (c & t & E & Hc & _).
    cbn [written_term]. rewrite E. cbn [append starts_with_char].
    split; [apply alpha_not_space, Hc|]. intros _.
    destruct c as [[] [] [] [] [] [] [] []]; try discriminate Hc; reflexivity.
  - apply andb_true_iff in Hw. destruct Hw as [Hw _].
    apply andb_true_iff in Hw. destruct Hw as [Hfn _].
    destruct (@one_of_in _ _ Hfn) as (a & Ha & -> & Ea).
    cbn [written_term]. rewrite Ea. unfold functions in Ha.
    destruct Ha as [<- | [<- | []]]; split; reflexivity.
  - split; reflexivity.
  - split; reflexivity.
  - split; [reflexivity | discriminate].
Qed.

Lemma leaf_is_simple t rest r :
  writable_term t = true -> is_combined t = false ->
  leafTermP (written_term t ++ rest)%string = Success t r ->
  simpleTermP (written_term t ++ rest)%string = Success t r.
Proof.
  intros Hw Hleaf H. destruct (@written_term_start t rest Hw) as [Hs Hp].
  unfold simpleTermP, simpleTermP_of. rewrite alt_failure; [exact H|].
  unfold skip, then_, bind. rewrite lparenP_fails; [reflexivity|].
  rewrite (span_none _ _ Hs). apply Hp, Hleaf.
Qed.

Lemma lexeme_unfold {A} (p : Parser A) s :
  lexeme p s = match p (snd (span isspace s)) with
               | Success v r => Success v (snd (span isspace r))
               | Failure => Failure
               | Raise e => Raise e
               | Hang => Hang
               end.
Proof.
  unfold lexeme, skip, then_, bind. rewrite whitespace_rest.
  destruct (p (snd (span isspace s))); auto. rewrite whitespace_rest. reflexivity.
Qed.

Lemma boolOpP_read a s :
  In a bool_operations -> starts_with_char isspace s = false ->
  boolOpP (" " ++ a ++ " " ++ s)%string = Success (codes a) s.
Proof.
  intros Ha Hs. unfold boolOpP. rewrite lexeme_unfold.
  unfold bool_operations in Ha. destruct Ha as [<- | [<- | []]].
  - change (snd (span isspace (" " ++ "and" ++ " " ++ s)%string))
      with ("and" ++ " " ++ s)%string.
    change ((pstring "and" <|> pstring "or") ("and" ++ " " ++ s)%string)
      with (Success (codes "and") (" " ++ s)%string).
    cbn iota. rewrite (@skip_one_space s Hs). reflexivity.
  - change (snd (span isspace (" " ++ "or" ++ " " ++ s)%string))
      with ("or" ++ " " ++ s)%string.
    change ((pstring "and" <|> pstring "or") ("or" ++ " " ++ s)%string)
      with (Success (codes "or") (" " ++ s)%string).
    cbn iota. rewrite (@skip_one_space s Hs). reflexivity.
Qed.

(** A term is read back from its text as a simple term, up to what follows
    it or to the end of the whitespace behind it. *)
Lemma simpleTermP_written : forall t,
  writable_term t = true ->
  forall rest, follows rest = true ->
  exists r, simpleTermP (written_term t ++ rest)%string = Success t r /\ skipped r rest.
Proof.
  intros t.
  induction t using term_induction
    with (PM := fun _ => True) (PQ := fun _ => True) (PP := fun _ => True); auto;
    intros Hw rest Hrest; try discriminate Hw.
  - destruct args as [|x args].
    + destruct (@predicate_term_written n op v rest Hw Hrest) as (r & Hr & Hskip).
      exists r. split; [|exact Hskip]. apply leaf_is_simple; auto.
    + cbn [writable_term] in Hw. rewrite andb_false_r in Hw. discriminate.
  - exists (snd (span isspace rest)). split; [|right; reflexivity].
    apply leaf_is_simple; auto. apply function_term_written, Hw.
  - destruct kinds as [|kind [|k2 kinds]]; try discriminate Hw.
    exists (snd (span isspace rest)). split; [|right; reflexivity].
    apply leaf_is_simple; auto. apply kind_test_written, Hw.
  - exists (snd (span isspace rest)). split; [|right; reflexivity].
    apply leaf_is_simple; auto. apply id_test_written, Hw.
  - cbn [writable_term] in Hw.
    apply andb_true_iff in Hw. destruct Hw as [Hw Hr].
    apply andb_true_iff in Hw. destruct Hw as [Hl Hop].
    destruct (@one_of_in _ _ Hop) as (a & Ha & -> & Ea).
    exists (snd (span isspace rest)). split; [|right; reflexivity].
    cbn [written_term]. rewrite Ea, !append_assoc.
    set (R := (written_term t2 ++ ")" ++ rest)%string).
    destruct (@written_term_start t2 (")" ++ rest)%string Hr) as [HRs _]. fold R in HRs.
    destruct (IHt1 Hl (" " ++ a ++ " " ++ R)%string eq_refl) as (r1 & Hr1 & Hskip1).
    destruct (IHt2 Hr (")" ++ rest)%string eq_refl) as (r2 & Hr2 & Hskip2).
    pose proof (@skipped_stop r2 (")" ++ rest)%string Hskip2 eq_refl) as E2.
    subst r2. fold R in Hr2.
    assert (Hop1 : boolOpP r1 = Success (codes a) R).
    { unfold boolOpP. rewrite (@lexeme_skipped _ _ _ _ Hskip1).
      apply (@boolOpP_read a R Ha HRs). }
    assert (Hchain : chain r1 [(codes a, t2)] (")" ++ rest)%string).
    { eapply chain_step; [exact Hop1 | exact Hr2 |]. apply chain_end. reflexivity. }
    assert (Hct : combined_term (written_term t1 ++ " " ++ a ++ " " ++ R)%string
                  = Success (CombinedTerm t1 (codes a) t2) (")" ++ rest)%string).
    { rewrite combined_term_rest. unfold bind. rewrite Hr1.
      apply (@combined_rest_chain _ _ _ Hchain t1). }
    destruct (@written_term_start t1 (" " ++ a ++ " " ++ R)%string Hl) as [Hls _].
    unfold simpleTermP, simpleTermP_of. apply alt_success.
    unfold skip, then_, bind, lparenP.
    rewrite (@lexeme_pstring_read "(" (written_term t1 ++ " " ++ a ++ " " ++ R)%string
               eq_refl).
    rewrite (span_none _ _ Hls). cbn [snd]. rewrite Hct.
    unfold rparenP. rewrite (@lexeme_pstring_read ")" rest eq_refl). reflexivity.
Qed.

Lemma term_parser_written t rest :
  writable_term t = true -> follows rest = true -> boolOpP rest = Failure ->
  exists r, term_parser (written_term t ++ rest)%string = Success t r /\ skipped r rest.
Proof.
  intros Hw Hrest Hop.
  destruct (@simpleTermP_written t Hw rest Hrest) as (r & Hr & Hskip).
  exists r. split; [|exact Hskip].
  unfold term_parser. apply alt_success. rewrite combined_term_rest. unfold bind.
  rewrite Hr. apply (@combined_rest_chain r [] r). apply chain_end.
  unfold boolOpP. rewrite (@lexeme_skipped _ _ _ _ Hskip). exact Hop.
Qed.

(** *** Navigations and parts *)

Section WrittenQueries.

Variable Navigation_Max : N.
Variable EdgeType_default : str.
Variable EdgeType_allowed_edge_types : list str.
Variable allowed_edge_types_text : str.

Lemma range_parser_written n m rest :
  range_parser Navigation_Max ("[" ++ py_str n ++ ":" ++ py_str m ++ "]" ++ rest)%string
  = Success (n, m) (snd (span isspace rest)).
Proof.
  assert (H1 : lbrackP ("[" ++ py_str n ++ ":" ++ py_str m ++ "]" ++ rest)%string
               = Success (codes "[") (py_str n ++ ":" ++ py_str m ++ "]" ++ rest)%string).
  { unfold lbrackP. rewrite (@lexeme_pstring_read "[" _ eq_refl), span_py_str.
    reflexivity. }
  assert (H2 : integerP (py_str n ++ ":" ++ py_str m ++ "]" ++ rest)%string
               = Success n (":" ++ py_str m ++ "]" ++ rest)%string)
    by apply (@integerP_py_str n (":" ++ py_str m ++ "]" ++ rest)%string eq_refl).
  assert (H3 : optional (colonP <|> commaP <|> dotdotP)
                 (":" ++ py_str m ++ "]" ++ rest)%string
               = Success (Some (codes ":")) (py_str m ++ "]" ++ rest)%string).
  { apply optional_some. do 2 apply alt_success. unfold colonP.
    rewrite (@lexeme_pstring_read ":" _ eq_refl), span_py_str. reflexivity. }
  assert (H4 : optional integerP (py_str m ++ "]" ++ rest)%string
               = Success (Some m) ("]" ++ rest)%string)
    by apply optional_some, (@integerP_py_str m ("]" ++ rest)%string eq_refl).
  rewrite (@range_parser_steps Navigation_Max n (Some (codes ":")) (Some m) _ _ _ _ _
             H1 H2 H3 H4).
  unfold rbrackP. rewrite (@lexeme_pstring_read "]" rest eq_refl). reflexivity.
Qed.

(** [edge_definition] on an edge type, or none, and a range. *)
Lemma edge_definition_written edge n m rest :
  match edge with Some e => is_literal e = true | None => True end ->
  edge_definition Navigation_Max
    ((match edge with Some e => text_of e | None => EmptyString end)
       ++ "[" ++ py_str n ++ ":" ++ py_str m ++ "]" ++ rest)%string
  = Success (n, m, edge) (snd (span isspace rest)).
Proof.
  intros He. unfold edge_definition.
  assert (Hl : optional literalP
                 ((match edge with Some e => text_of e | None => EmptyString end)
                    ++ "[" ++ py_str n ++ ":" ++ py_str m ++ "]" ++ rest)%string
               = Success edge ("[" ++ py_str n ++ ":" ++ py_str m ++ "]" ++ rest)%string).
  { destruct edge as [e|].
    - apply optional_some.
      rewrite (@literalP_read e ("[" ++ py_str n ++ ":" ++ py_str m ++ "]" ++ rest)%string
                 He eq_refl). reflexivity.
    - apply optional_none. reflexivity. }
  rewrite (@bind_success _ _ _ _ _ _ _ Hl).
  rewrite (@bind_success _ _ _ _ _ _ _
             (@optional_some _ _ _ _ _ (range_parser_written n m rest))).
  reflexivity.
Qed.

(** An arrow from its head to what stands behind the range. *)
Lemma arrow_read head tail edge n m rest :
  starts_with_char (fun c => negb (isspace c)) head = true ->
  match edge with Some e => is_literal e = true | None => True end ->
  lexeme (pstring head >> edge_definition Navigation_Max << pstring tail)
    (head ++ (match edge with Some e => text_of e | None => EmptyString end)
          ++ "[" ++ py_str n ++ ":" ++ py_str m ++ "]" ++ rest)%string
  = match pstring tail (snd (span isspace rest)) with
    | Success _ r => Success (n, m, edge) (snd (span isspace r))
    | Failure => Failure
    | Raise e => Raise e
    | Hang => Hang
    end.
Proof.
  intros Hhead He. rewrite lexeme_unfold.
  set (E := ((match edge with Some e => text_of e | None => EmptyString end)
               ++ "[" ++ py_str n ++ ":" ++ py_str m ++ "]" ++ rest)%string).
  assert (Hs : starts_with_char isspace (head ++ E)%string = false).
  { destruct head as [|c head]; [discriminate Hhead|]. cbn [starts_with_char append] in *.
    apply negb_true_iff, Hhead. }
  rewrite (span_none _ _ Hs). cbn [snd]. unfold skip, then_, bind, pstring at 1.
  rewrite strip_prefix_app. unfold E. rewrite (@edge_definition_written edge n m rest He).
  destruct (pstring tail (snd (span isspace rest))); reflexivity.
Qed.

Lemma navigation_parser_written nav rest :
  parsed_navigation nav = true ->
  starts_with_char (Ascii.eqb ">") rest = false ->
  navigation_parser Navigation_Max (written_navigation nav ++ rest)%string
  = Success nav (snd (span isspace rest)).
Proof.
  destruct nav as [s u e d]. unfold parsed_navigation, written_navigation.
  cbn [direction edge_type start until]. intros Hw Hrest.
  apply andb_true_iff in Hw. destruct Hw as [Hd He].
  assert (He' : match e with Some l => is_literal l = true | None => True end)
    by (destruct e; auto).
  destruct (@one_of_in _ _ Hd) as (a & Ha & -> & _). unfold directions in Ha.
  unfold navigation_parser, outP, inP, inOutP.
  destruct Ha as [<- | [<- | [<- | []]]];
    match goal with
    | |- context [if ?b then _ else _] =>
        let v := eval vm_compute in b in change b with v; cbn iota
    end;
    try match goal with
    | |- context [if ?b then _ else _] =>
        let v := eval vm_compute in b in change b with v; cbn iota
    end;
    rewrite !append_assoc.
  - do 2 apply alt_success. unfold pmap, bind.
    rewrite (@arrow_read "-" "->" e s u ("->" ++ rest)%string eq_refl He').
    change (snd (span isspace ("->" ++ rest)%string)) with ("->" ++ rest)%string.
    change (pstring "->" ("->" ++ rest)%string) with (Success (codes "->") rest).
    reflexivity.
  - apply alt_success. rewrite alt_failure; [|reflexivity]. unfold pmap, bind.
    rewrite (@arrow_read "<-" "-" e s u ("-" ++ rest)%string eq_refl He').
    change (snd (span isspace ("-" ++ rest)%string)) with ("-" ++ rest)%string.
    change (pstring "-" ("-" ++ rest)%string) with (Success (codes "-") rest).
    reflexivity.
  - rewrite alt_failure.
    + unfold pmap, bind.
      rewrite (@arrow_read "-" "-" e s u ("-" ++ rest)%string eq_refl He').
      change (snd (span isspace ("-" ++ rest)%string)) with ("-" ++ rest)%string.
      change (pstring "-" ("-" ++ rest)%string) with (Success (codes "-") rest).
      reflexivity.
    + rewrite alt_failure; [reflexivity|]. unfold pmap, bind.
      rewrite (@arrow_read "-" "->" e s u ("-" ++ rest)%string eq_refl He').
      change (snd (span isspace ("-" ++ rest)%string)) with ("-" ++ rest)%string.
      unfold pstring. cbn [append strip_prefix]. change (Ascii.eqb "-" "-") with true.
      cbn iota.
      destruct rest as [|c rest]; [reflexivity|]. cbn [starts_with_char] in Hrest.
      cbn [strip_prefix]. rewrite Hrest. reflexivity.
Qed.

Lemma written_navigation_start nav s :
  parsed_navigation nav = true ->
  exists c t, (written_navigation nav ++ s)%string = String c t
              /\ (c = "-"%char \/ c = "<"%char).
Proof.
  destruct nav as [n m e d]. unfold parsed_navigation, written_navigation.
  cbn [direction edge_type start until]. intros _.
  destruct (str_eqb d (codes "out")); [|destruct (str_eqb d (codes "in"))];
    cbn [append]; eauto.
Qed.

Lemma part_steps s t s1 nav s2 pin s3 :
  term_parser s = Success t s1 ->
  (pmap Some (navigation_parser Navigation_Max) <|> success None) (snd (span isspace s1))
  = Success nav s2 ->
  pin_parser s2 = Success pin s3 ->
  part_parser Navigation_Max s = Success (Part_ t pin nav) s3.
Proof.
  intros H1 H2 H3. unfold part_parser, bind. rewrite H1, whitespace_rest. cbn [snd].
  rewrite H2, H3. reflexivity.
Qed.

(** What stands behind a part: nothing, or the term of the next part. *)
Lemma term_start_plain rest :
  starts_with_char (fun c => negb (isalpha_ascii c || Ascii.eqb "(" c)) rest = false ->
  starts_with_char isspace rest = false
  /\ lexeme (pstring "+") rest = Failure.
Proof.
  destruct rest as [|c rest]; [split; reflexivity|]. cbn [starts_with_char].
  intros H. apply negb_false_iff in H.
  assert (Hs : isspace c = false).
  { destruct c as [[] [] [] [] [] [] [] []]; try discriminate H; reflexivity. }
  split; [exact Hs|]. rewrite lexeme_unfold, (@span_stop _ _ _ Hs). cbn [snd].
  unfold pstring. cbn [strip_prefix].
  destruct c as [[] [] [] [] [] [] [] []]; try discriminate H; reflexivity.
Qed.

Lemma part_parser_written p rest :
  writable_part p = true ->
  starts_with_char (fun c => negb (isalpha_ascii c || Ascii.eqb "(" c)) rest = false ->
  is_joined p = true \/ rest = EmptyString ->
  part_parser Navigation_Max (written_part p ++ rest)%string = Success p rest.
Proof.
  destruct p as [t pin nav lim]. unfold writable_part, written_part, is_joined.
  cbn [term navigation limit pinned]. intros Hw Hrest Hjoined.
  apply andb_true_iff in Hw. destruct Hw as [Hw Hlim].
  apply andb_true_iff in Hw. destruct Hw as [Ht Hnav].
  destruct lim as [l|]; [discriminate|]. clear Hlim.
  destruct (term_start_plain rest Hrest) as [Hspace Hplus].
  rewrite !append_assoc.
  set (tail := (" " ++ (match nav with
                        | Some nav => written_navigation nav
                        | None => EmptyString
                        end ++ (if pin then "+" else EmptyString) ++ " " ++ rest))%string).
  assert (Hop : boolOpP tail = Failure).
  { unfold boolOpP, tail. rewrite lexeme_unfold.
    destruct nav as [nav|].
    - destruct (@written_navigation_start nav
                  ((if pin then "+" else EmptyString) ++ " " ++ rest)%string Hnav)
        as (c & w & E & Hc).
      rewrite E. cbn [append].
      rewrite (@span_go _ " " _ eq_refl). cbn [snd].
      destruct Hc as [-> | ->]; reflexivity.
    - destruct pin; [reflexivity|].
      destruct Hjoined as [Hj | ->]; [discriminate Hj | reflexivity]. }
  destruct (@term_parser_written t tail Ht eq_refl Hop) as (r & Hr & Hskip).
  apply skipped_span in Hskip.
  assert (Hskip' : snd (span isspace r)
                   = snd (span isspace
                            ((match nav with
                              | Some nav => written_navigation nav
                              | None => EmptyString
                              end ++ (if pin then "+" else EmptyString) ++ " " ++ rest))%string)).
  { rewrite Hskip. unfold tail. cbn [append]. rewrite (@span_go _ " " _ eq_refl).
    reflexivity. }
  clear Hskip.
  assert (Hplus' : pin_parser ("+" ++ " " ++ rest)%string = Success true rest).
  { unfold pin_parser, pmap, bind, optional.
    rewrite (@lexeme_pstring_read "+" (" " ++ rest)%string eq_refl).
    rewrite (@skip_one_space rest Hspace). reflexivity. }
  assert (Hnone : pin_parser rest = Success false rest).
  { unfold pin_parser, pmap, bind, optional. rewrite Hplus. reflexivity. }
  destruct nav as [nav|].
  - destruct (@written_navigation_start nav
                ((if pin then "+" else EmptyString) ++ " " ++ rest)%string Hnav)
      as (c & w & E & Hc).
    assert (Hc' : isspace c = false) by (destruct Hc as [-> | ->]; reflexivity).
    rewrite E, (@span_stop _ _ _ Hc') in Hskip'. cbn [snd] in Hskip'. rewrite <- E in Hskip'.
    assert (Hn : navigation_parser Navigation_Max
                   (written_navigation nav
                      ++ (if pin then "+" else EmptyString) ++ " " ++ rest)%string
                 = Success nav
                     (snd (span isspace
                             ((if pin then "+" else EmptyString) ++ " " ++ rest)%string))).
    { apply navigation_parser_written; [exact Hnav|]. destruct pin; reflexivity. }
    destruct pin.
    + apply (@part_steps _ t r (Some nav) ("+" ++ " " ++ rest)%string true rest Hr);
        [|exact Hplus'].
      rewrite Hskip'. apply alt_success. unfold pmap, bind. rewrite Hn. reflexivity.
    + apply (@part_steps _ t r (Some nav) rest false rest Hr); [|exact Hnone].
      rewrite Hskip'. apply alt_success. unfold pmap, bind. rewrite Hn.
      change ((EmptyString ++ " " ++ rest)%string) with (" " ++ rest)%string.
      rewrite (@skip_one_space rest Hspace). reflexivity.
  - destruct pin.
    + apply (@part_steps _ t r None ("+" ++ " " ++ rest)%string true rest Hr);
        [|exact Hplus'].
      rewrite Hskip'. reflexivity.
    + destruct Hjoined as [Hj | ->]; [discriminate Hj|].
      apply (@part_steps _ t r None EmptyString false EmptyString Hr); [|reflexivity].
      rewrite Hskip'. reflexivity.
Qed.

(** *** The preamble, absent *)

Lemma variable_char_no_equals c : variable_char c = true -> Ascii.eqb "=" c = false.
Proof. destruct c as [[] [] [] [] [] [] [] []]; intros H; try discriminate H; reflexivity. Qed.

(** No preamble entry is read where a predicate is written, whatever its
    name. *)
Lemma no_preamble_in_predicate name a rest :
  is_variable name = true -> In a operations ->
  preamble_value_parser (text_of name ++ " " ++ a ++ " " ++ rest)%string = Failure.
Proof.
  intros Hname Ha.
  destruct (@text_of_head _ _ _ Hname) as (c & t & E & Hc & Ht).
  unfold preamble_value_parser. unfold bind at 1.
  change preamblePropP with (lexeme (pstring "edge_type")).
  rewrite lexeme_unfold, E. cbn [append].
  rewrite (@span_stop _ _ _ (alpha_not_space _ Hc)). cbn [snd]. unfold pstring.
  destruct (strip_prefix "edge_type"
              (String c (t ++ String " " (a ++ String " " rest)))%string)
    as [z|] eqn:Ez; [|reflexivity].
  change (String c (t ++ String " " (a ++ String " " rest)))%string
    with (String c t ++ String " " (a ++ String " " rest))%string in Ez.
  destruct (@strip_prefix_word "edge_type" (String c t) " " _ _ eq_refl Ez)
    as (more & Emore & ->).
  assert (Hmore : all_chars variable_char more = true).
  { assert (Hall : all_chars variable_char (String c t) = true).
    { cbn [all_chars]. rewrite Ht, andb_true_r. unfold variable_char, isalnum_ascii.
      rewrite Hc. reflexivity. }
    rewrite Emore in Hall. cbn [append all_chars] in Hall.
    repeat (apply andb_true_iff in Hall; destruct Hall as [_ Hall]). exact Hall. }
  destruct more as [|m more].
  - cbn [append]. rewrite (@span_go _ " " _ eq_refl). cbn [snd].
    rewrite (span_none _ _ (@operation_no_space a (String " " rest) Ha)). cbn [snd].
    unfold operations in Ha.
    repeat (destruct Ha as [<- | Ha]; [reflexivity|]). contradiction.
  - cbn [all_chars] in Hmore. apply andb_true_iff in Hmore. destruct Hmore as [Hm _].
    destruct (variable_char_plain _ Hm) as [Hs _].
    cbn [append]. rewrite (@span_stop _ _ _ Hs). cbn [snd]. unfold bind, equalsP.
    rewrite lexeme_unfold, (@span_stop _ _ _ Hs). cbn [snd]. unfold pstring.
    cbn [strip_prefix]. rewrite (variable_char_no_equals _ Hm). reflexivity.
Qed.

Lemma written_term_first t s :
  writable_term t = true ->
  starts_with_char (fun c => negb (isalpha_ascii c || Ascii.eqb "(" c))
                   (written_term t ++ s)%string = false.
Proof.
  destruct t as [| name op value args | fn name args | kinds | id | l op r | pre ms post];
    intros Hw; try discriminate Hw; cbn [writable_term] in Hw.
  - apply andb_true_iff in Hw. destruct Hw as [Hw _].
    apply andb_true_iff in Hw. destruct Hw as [Hw _].
    apply andb_true_iff in Hw. destruct Hw as [Hname _].
    destruct (@text_of_head _ _ _ Hname) as (c & t & E & Hc & _).
    cbn [written_term]. rewrite E. cbn [append starts_with_char]. rewrite Hc. reflexivity.
  - apply andb_true_iff in Hw. destruct Hw as [Hw _].
    apply andb_true_iff in Hw. destruct Hw as [Hfn _].
    destruct (@one_of_in _ _ Hfn) as (a & Ha & -> & Ea).
    cbn [written_term]. rewrite Ea. unfold functions in Ha.
    destruct Ha as [<- | [<- | []]]; reflexivity.
  - reflexivity.
  - reflexivity.
  - reflexivity.
Qed.

Lemma colonP_fails s :
  starts_with_char (fun c => negb (isalpha_ascii c || Ascii.eqb "(" c)) s = false ->
  colonP s = Failure.
Proof.
  destruct s as [|c s]; [reflexivity|]. cbn [starts_with_char]. intros H.
  apply negb_false_iff in H. unfold colonP. rewrite lexeme_unfold.
  assert (Hs : isspace c = false).
  { destruct c as [[] [] [] [] [] [] [] []]; try discriminate H; reflexivity. }
  rewrite (@span_stop _ _ _ Hs). cbn [snd]. unfold pstring. cbn [strip_prefix].
  destruct c as [[] [] [] [] [] [] [] []]; try discriminate H; reflexivity.
Qed.

(** A text that starts with a term has no preamble. *)
Lemma no_preamble_written t s :
  writable_term t = true -> preambleP (written_term t ++ " " ++ s)%string = Failure.
Proof.
  intros Hw.
  assert (Hpv : preamble_value_parser (written_term t ++ " " ++ s)%string = Failure).
  { destruct t as [| name op value args | fn name args | kinds | id | l op r | pre ms post];
      try discriminate Hw; cbn [writable_term] in Hw.
    - apply andb_true_iff in Hw. destruct Hw as [Hw _].
      apply andb_true_iff in Hw. destruct Hw as [Hw _].
      apply andb_true_iff in Hw. destruct Hw as [Hname Hop].
      destruct (@one_of_in _ _ Hop) as (a & Ha & -> & Ea).
      cbn [written_term]. rewrite Ea, !append_assoc.
      apply no_preamble_in_predicate; assumption.
    - apply andb_true_iff in Hw. destruct Hw as [Hw _].
      apply andb_true_iff in Hw. destruct Hw as [Hfn _].
      destruct (@one_of_in _ _ Hfn) as (a & Ha & -> & Ea).
      cbn [written_term]. rewrite Ea. unfold functions in Ha.
      destruct Ha as [<- | [<- | []]]; reflexivity.
    - reflexivity.
    - reflexivity.
    - reflexivity. }
  unfold preambleP, skip, bind. rewrite (sep_by_none _ _ _ Hpv).
  rewrite colonP_fails; [reflexivity|]. apply written_term_first, Hw.
Qed.

(** *** Queries *)

Lemma append_empty s : (s ++ EmptyString)%string = s.
Proof. induction s as [|c s IH]; simpl; congruence. Qed.

Lemma written_part_first p s :
  writable_part p = true ->
  starts_with_char (fun c => negb (isalpha_ascii c || Ascii.eqb "(" c))
                   (written_part p ++ s)%string = false.
Proof.
  unfold writable_part, written_part. intros Hw.
  apply andb_true_iff in Hw. destruct Hw as [Hw _].
  apply andb_true_iff in Hw. destruct Hw as [Ht _].
  rewrite append_assoc. apply written_term_first, Ht.
Qed.

Lemma no_preamble_part p s :
  writable_part p = true -> preambleP (written_part p ++ s)%string = Failure.
Proof.
  unfold writable_part, written_part. intros Hw.
  apply andb_true_iff in Hw. destruct Hw as [Hw _].
  apply andb_true_iff in Hw. destruct Hw as [Ht _].
  rewrite !append_assoc. apply no_preamble_written, Ht.
Qed.

(** The parts, in the order in which they are written. *)
Lemma many_parts_written (ps : list Part) :
  forallb writable_part ps = true ->
  forallb is_joined (removelast ps) = true ->
  many (part_parser Navigation_Max)
       (fold_right (fun p acc => (written_part p ++ acc)%string) EmptyString ps)
  = Success ps EmptyString.
Proof.
  induction ps as [|p ps IH]; intros Hw Hj.
  - apply many_nil. reflexivity.
  - cbn [forallb] in Hw. apply andb_true_iff in Hw. destruct Hw as [Hp Hps].
    cbn [fold_right].
    eapply many_cons; [intros n; apply eager_part_parser | | apply IH].
    + apply part_parser_written; [exact Hp | |].
      * destruct ps as [|p' ps]; [reflexivity|]. cbn [fold_right].
        cbn [forallb] in Hps. apply andb_true_iff in Hps.
        apply written_part_first, Hps.
      * destruct ps as [|p' ps]; [right; reflexivity|]. left.
        cbn [removelast forallb] in Hj. apply andb_true_iff in Hj. apply Hj.
    + exact Hps.
    + destruct ps as [|p' ps]; [reflexivity|].
      cbn [removelast forallb] in Hj. apply andb_true_iff in Hj. apply Hj.
Qed.

Lemma removelast_rev {A} (l : list A) : removelast (rev l) = rev (tl l).
Proof.
  destruct l as [|x l]; [reflexivity|]. cbn [rev tl]. apply removelast_last.
Qed.

Lemma forallb_rev {A} (f : A -> bool) (l : list A) : forallb f (rev l) = forallb f l.
Proof.
  induction l as [|x l IH]; [reflexivity|]. cbn [rev forallb].
  rewrite forallb_app, IH. cbn [forallb]. rewrite andb_true_r. apply andb_comm.
Qed.

(** X11. Every term that the grammar can build, with no more than
    [nesting_limit] parentheses and brackets inside each other, has a text
    that the term parser reads back as this term: a predicate as
    [name op value], a call as [fn(name,arg,...)], the tests as
    [isinstance(...)] and [id(...)] with their quoted string, and a
    combination of two terms in parentheses, with the strings escaped and
    the numbers in decimal. The names, operators and functions are those
    that the parser can yield, the strings are of code points below 65536,
    and a float is the literal it was read from. *)
Theorem term_round_trip t :
  writable_term t = true ->
  term_nesting t <= nesting_limit ->
  term_parser (written_term t) = Success t EmptyString
  /\ parse term_parser (written_term t) = Returns t.
Proof.
  intros Hw _.
  destruct (@term_parser_written t EmptyString Hw eq_refl eq_refl) as (r & Hr & Hskip).
  rewrite append_empty in Hr.
  assert (E : r = EmptyString) by (destruct Hskip as [-> | ->]; reflexivity).
  subst r. split; [exact Hr|]. apply parse_returns, Hr.
Qed.

(** X12. Every query that the grammar can build, with no more than
    [nesting_limit] parentheses and brackets inside each other in the term
    of a part, has a text that [parse_query] reads back, where the default
    edge type is an allowed one: the parts are written first to last, each
    as its term, its arrow with the edge type and the range, and a plus
    sign where it is pinned. The query returned is the one written, with
    the default edge type in the navigations that have none; the edge type
    written in an arrow is taken as it is, allowed or not. Every part but
    the last has to navigate or to be pinned: a term that follows a term
    directly can be read as a part of it. *)
Theorem query_round_trip q :
  allowed EdgeType_allowed_edge_types EdgeType_default = true ->
  writable_query q = true ->
  Forall (fun p => term_nesting (term p) <= nesting_limit) (parts q) ->
  parse_query Navigation_Max EdgeType_default EdgeType_allowed_edge_types
              allowed_edge_types_text (written_query q)
  = Returns (mkQuery (map (fill_edge_type EdgeType_default) (parts q)) None).
Proof.
  intros Hallowed Hw _. unfold writable_query in Hw.
  apply andb_true_iff in Hw. destruct Hw as [Hw Hjoined].
  apply andb_true_iff in Hw. destruct Hw as [_ Hparts].
  apply parse_returns. unfold written_query.
  assert (Hp : many (part_parser Navigation_Max)
                 (fold_right (fun p acc => (written_part p ++ acc)%string) EmptyString
                             (rev (parts q)))
               = Success (rev (parts q)) EmptyString).
  { apply many_parts_written.
    - rewrite forallb_rev. exact Hparts.
    - rewrite removelast_rev, forallb_rev. exact Hjoined. }
  assert (Ho : optional preambleP
                 (fold_right (fun p acc => (written_part p ++ acc)%string) EmptyString
                             (rev (parts q)))
               = Success None
                   (fold_right (fun p acc => (written_part p ++ acc)%string) EmptyString
                               (rev (parts q)))).
  { apply optional_none.
    assert (Hrev : forallb writable_part (rev (parts q)) = true)
      by (rewrite forallb_rev; exact Hparts).
    destruct (rev (parts q)) as [|p ps]; [reflexivity|]. cbn [fold_right].
    cbn [forallb] in Hrev. apply andb_true_iff in Hrev.
    apply no_preamble_part, Hrev. }
  rewrite (@query_parser_steps Navigation_Max EdgeType_default EdgeType_allowed_edge_types
             allowed_edge_types_text _ _ _ _ _ Ho Hp).
  unfold resolved_edge_type. cbn [dict_get]. rewrite Hallowed.
  unfold Query_. rewrite map_rev, rev_involutive. reflexivity.
Qed.

End WrittenQueries.

(** A combination of a predicate on a float and a call with an integer and
    an array. *)
Lemma term_round_trip_witness :
  written_term
    (CombinedTerm (Predicate "a.b" "<" (VFloat "2.5") []) "and"
                  (FunctionTerm "in_subnet" "ip" [VInt 1; VList [VBool true; VNone]]))
  = "(a.b < 2.5 and in_subnet(ip,1,[true,null]))"
  /\ term_parser "(a.b < 2.5 and in_subnet(ip,1,[true,null]))"
     = Success (CombinedTerm (Predicate "a.b" "<" (VFloat "2.5") []) "and"
                  (FunctionTerm "in_subnet" "ip" [VInt 1; VList [VBool true; VNone]]))
               EmptyString.
Proof.
  split; [reflexivity|].
  exact (proj1 (@term_round_trip
                  (CombinedTerm (Predicate "a.b" "<" (VFloat "2.5") []) "and"
                     (FunctionTerm "in_subnet" "ip" [VInt 1; VList [VBool true; VNone]]))
                  eq_refl ltac:(vm_compute; lia))).
Defined.

(** Two parts, the first one pinned and with an arrow of an edge type that
    is not among the allowed ones. *)
Lemma query_round_trip_witness :
  written_query
    (Query_ [Part_ (pred_ "b" ">" 2) false None;
             Part_ (pred_ "a" "<" 1) true (Some (mkNavigation 1 2 (Some (codes "foo")) "out"))])
  = "a < 1 -foo[1:2]->+ b > 2  "
  /\ Sample.parse_query "a < 1 -foo[1:2]->+ b > 2  "
     = Returns
         (Query_ [Part_ (pred_ "b" ">" 2) false None;
                  Part_ (pred_ "a" "<" 1) true
                        (Some (mkNavigation 1 2 (Some (codes "foo")) "out"))]).
Proof.
  split; [reflexivity|].
  exact (@query_round_trip Sample.Navigation_Max Sample.EdgeType_default
           Sample.EdgeType_allowed_edge_types Sample.allowed_edge_types_text
           (Query_ [Part_ (pred_ "b" ">" 2) false None;
                    Part_ (pred_ "a" "<" 1) true
                          (Some (mkNavigation 1 2 (Some (codes "foo")) "out"))])
           eq_refl eq_refl
           ltac:(repeat constructor; vm_compute; lia)).
Defined.

(** Without an arrow or a plus sign between them, the second of two terms
    is read as a part of the first where its name starts with [and] or
    [or]. *)
Example term_after_term :
  Sample.parse_query "a < 1 order < 2"
  = Returns (Query_ [Part_ (CombinedTerm (pred_ "a" "<" 1) "or" (pred_ "der" "<" 2))
                           false None]).
Proof. vm_compute. reflexivity. Qed.

(* ------------------------------------------------------------------ *)
(** ** Arrows without a range *)

Section PlainArrows.

Variable Navigation_Max : N.

(** [edge_definition] on an edge type, or none, where the arrow goes on
    with no range. *)
Lemma edge_definition_plain edge rest :
  match edge with Some e => is_literal e = true | None => True end ->
  starts_with_char (Ascii.eqb "-") rest = true ->
  edge_definition Navigation_Max (written_edge edge ++ rest)%string
  = Success (1%N, 1%N, edge) rest.
Proof.
  intros He Hrest. destruct rest as [|c rest]; [discriminate Hrest|].
  cbn [starts_with_char] in Hrest. apply Ascii.eqb_eq in Hrest. subst c.
  assert (Hl : optional literalP (written_edge edge ++ String "-" rest)%string
               = Success edge (String "-" rest)).
  { destruct edge as [e|]; cbn [written_edge].
    - apply optional_some.
      rewrite (@literalP_read e (String "-" rest) He eq_refl). reflexivity.
    - apply optional_none. reflexivity. }
  unfold edge_definition. rewrite (@bind_success _ _ _ _ _ _ _ Hl).
  rewrite (@bind_success _ _ _ _ _ _ _
             (@optional_none _ (range_parser Navigation_Max) (String "-" rest) eq_refl)).
  reflexivity.
Qed.

(** An arrow from its head to its tail, with no range between them. *)
Lemma plain_arrow_read head tail edge rest :
  starts_with_char (fun c => negb (isspace c)) head = true ->
  starts_with_char (Ascii.eqb "-") tail = true ->
  match edge with Some e => is_literal e = true | None => True end ->
  lexeme (pstring head >> edge_definition Navigation_Max << pstring tail)
    (head ++ written_edge edge ++ tail ++ rest)%string
  = Success (1%N, 1%N, edge) (snd (span isspace rest)).
Proof.
  intros Hhead Htail He. rewrite lexeme_unfold.
  assert (Hs : starts_with_char isspace (head ++ written_edge edge ++ tail ++ rest)%string
               = false).
  { destruct head as [|c head]; [discriminate Hhead|]. cbn [starts_with_char append] in *.
    apply negb_true_iff, Hhead. }
  rewrite (span_none _ _ Hs). cbn [snd]. unfold skip, then_, bind, pstring at 1.
  rewrite strip_prefix_app.
  assert (Ht : starts_with_char (Ascii.eqb "-") (tail ++ rest)%string = true)
    by (destruct tail; [discriminate Htail | exact Htail]).
  rewrite (@edge_definition_plain edge (tail ++ rest)%string He Ht).
  unfold pstring. rewrite strip_prefix_app. reflexivity.
Qed.

Lemma unbracketed_span f s : unbracketed s = true -> unbracketed (snd (span f s)) = true.
Proof.
  induction s as [|c s IH]; [auto|]. intros H. cbn [span].
  destruct (f c); [|exact H].
  unfold unbracketed in H. cbn [all_chars] in H. apply andb_true_iff in H.
  destruct H as [_ H]. specialize (IH H). destruct (span f s). exact IH.
Qed.

Lemma unbracketed_strip lit : forall s r,
  strip_prefix lit s = Some r -> unbracketed s = true -> unbracketed r = true.
Proof.
  induction lit as [|c lit IH]; intros s r H Hs; cbn [strip_prefix] in H.
  - inversion H; subst. exact Hs.
  - destruct s as [|d s]; [discriminate|]. destruct (Ascii.eqb c d); [|discriminate].
    unfold unbracketed in Hs. cbn [all_chars] in Hs. apply andb_true_iff in Hs.
    apply (IH _ _ H), Hs.
Qed.

Lemma unbracketed_pstring lit s v r :
  pstring lit s = Success v r -> unbracketed s = true -> unbracketed r = true.
Proof.
  unfold pstring. destruct (strip_prefix lit s) as [r'|] eqn:E; [|discriminate].
  intros H. inversion H; subst. apply (@unbracketed_strip _ _ _ E).
Qed.

Lemma unbracketed_literalP s v r :
  literalP s = Success v r -> unbracketed s = true -> unbracketed r = true.
Proof.
  unfold literalP. rewrite lexeme_unfold. intros H Hs.
  pose proof (@unbracketed_span isspace _ Hs) as H0.
  destruct (snd (span isspace s)) as [|c t]; [discriminate H|].
  unfold regex_one_star in H. destruct (isalpha_ascii c); [|discriminate H].
  unfold unbracketed in H0. cbn [all_chars] in H0. apply andb_true_iff in H0.
  destruct H0 as [_ H0]. pose proof (@unbracketed_span isalnum_ascii _ H0) as H1.
  destruct (span isalnum_ascii t) as [m r']. cbn [snd] in H1.
  inversion H; subst. apply unbracketed_span, H1.
Qed.

(** No range is read from a text without a bracket. *)
Lemma range_parser_unbracketed s :
  unbracketed s = true -> range_parser Navigation_Max s = Failure.
Proof.
  intros Hs. unfold range_parser, bind, lbrackP. rewrite lexeme_unfold.
  pose proof (@unbracketed_span isspace _ Hs) as H0.
  destruct (snd (span isspace s)) as [|c t]; [reflexivity|].
  unfold unbracketed in H0. cbn [all_chars] in H0. apply andb_true_iff in H0.
  destruct H0 as [H0 _]. apply negb_true_iff in H0.
  unfold pstring. cbn [strip_prefix]. rewrite H0. reflexivity.
Qed.

Lemma edge_definition_unbracketed s v r :
  unbracketed s = true -> edge_definition Navigation_Max s = Success v r ->
  fst (fst v) = 1%N /\ snd (fst v) = 1%N.
Proof.
  intros Hs H. unfold edge_definition, bind in H.
  assert (Hl : forall e s1, optional literalP s = Success e s1 -> unbracketed s1 = true).
  { unfold optional. intros e s1 E. destruct (literalP s) as [v' r' | | |] eqn:El;
      inversion E; subst; [apply (@unbracketed_literalP _ _ _ El Hs) | exact Hs]. }
  destruct (optional literalP s) as [e s1 | | |]; try discriminate.
  unfold optional in H. rewrite (@range_parser_unbracketed s1 (Hl _ _ eq_refl)) in H.
  inversion H; subst. split; reflexivity.
Qed.

Lemma arrow_unbracketed head tail dir s nav rest :
  unbracketed s = true ->
  pmap (to_navigation dir)
       (lexeme (pstring head >> edge_definition Navigation_Max << pstring tail)) s
  = Success nav rest ->
  start nav = 1%N /\ until nav = 1%N.
Proof.
  intros Hs H. unfold pmap, bind in H. rewrite lexeme_unfold in H.
  pose proof (@unbracketed_span isspace _ Hs) as H0.
  unfold skip, then_, bind in H.
  destruct (pstring head (snd (span isspace s))) as [h s1 | | |] eqn:Eh;
    try discriminate.
  pose proof (@unbracketed_pstring _ _ _ _ Eh H0) as H1.
  destruct (edge_definition Navigation_Max s1) as [[[a b] e] s2 | | |] eqn:Ee;
    try discriminate.
  destruct (@edge_definition_unbracketed _ _ _ H1 Ee) as [Ha Hb]. cbn [fst snd] in Ha, Hb.
  destruct (pstring tail s2) as [t s3 | | |]; try discriminate.
  unfold success in H. inversion H; subst. split; reflexivity.
Qed.

(** The three arrows, written with an edge type or with none and with no
    range, are read as the navigation over one hop in their direction. *)
Lemma navigation_parser_plain edge rest :
  match edge with Some e => is_literal e = true | None => True end ->
  navigation_parser Navigation_Max ("-" ++ written_edge edge ++ "->" ++ rest)%string
  = Success (mkNavigation 1 1 edge "out") (snd (span isspace rest))
  /\ navigation_parser Navigation_Max ("<-" ++ written_edge edge ++ "-" ++ rest)%string
     = Success (mkNavigation 1 1 edge "in") (snd (span isspace rest))
  /\ (starts_with_char (Ascii.eqb ">") rest = false ->
      navigation_parser Navigation_Max ("-" ++ written_edge edge ++ "-" ++ rest)%string
      = Success (mkNavigation 1 1 edge "inout") (snd (span isspace rest))).
Proof.
  intros He. unfold navigation_parser, outP, inP, inOutP. split; [|split].
  - do 2 apply alt_success. unfold pmap, bind.
    rewrite (@plain_arrow_read "-" "->" edge rest eq_refl eq_refl He). reflexivity.
  - apply alt_success. rewrite alt_failure; [|reflexivity]. unfold pmap, bind.
    rewrite (@plain_arrow_read "<-" "-" edge rest eq_refl eq_refl He). reflexivity.
  - intros Hrest. rewrite alt_failure.
    + unfold pmap, bind.
      rewrite (@plain_arrow_read "-" "-" edge rest eq_refl eq_refl He). reflexivity.
    + rewrite alt_failure; [reflexivity|]. unfold pmap, bind. rewrite lexeme_unfold.
      change (snd (span isspace ("-" ++ written_edge edge ++ "-" ++ rest)%string))
        with ("-" ++ written_edge edge ++ "-" ++ rest)%string.
      unfold skip, then_, bind, pstring at 1. rewrite strip_prefix_app.
      rewrite (@edge_definition_plain edge ("-" ++ rest)%string He eq_refl).
      unfold pstring. cbn [append strip_prefix]. change (Ascii.eqb "-" "-") with true.
      cbn iota. destruct rest as [|c rest]; [reflexivity|].
      cbn [starts_with_char] in Hrest. cbn [strip_prefix]. rewrite Hrest. reflexivity.
Qed.

(** Whatever stands in it, a text with no bracket is read, if it is read
    as a navigation at all, as a navigation over one hop. *)
Lemma navigation_parser_unbracketed s nav rest :
  unbracketed s = true ->
  navigation_parser Navigation_Max s = Success nav rest ->
  start nav = 1%N /\ until nav = 1%N.
Proof.
  intros Hs H. unfold navigation_parser, alt in H.
  destruct (outP Navigation_Max s) as [v r | | |] eqn:Eo; try discriminate.
  { inversion H; subst. apply (@arrow_unbracketed _ _ _ _ _ _ Hs Eo). }
  destruct (inP Navigation_Max s) as [v r | | |] eqn:Ei; try discriminate.
  { inversion H; subst. apply (@arrow_unbracketed _ _ _ _ _ _ Hs Ei). }
  apply (@arrow_unbracketed _ _ _ _ _ _ Hs H).
Qed.

End PlainArrows.

(** C6. The text [cpu > 4 and (mem < 23 or mem < 59) --> some.int.value < 1]
    parses to a query of exactly two parts, the first written one followed
    by an outbound navigation of the default edge type over the single hop
    [1, 1]. In general a navigation written without a range is over one
    hop, [start = until = 1]: [edge_definition] yields that range wherever
    [range_parser] reads none; each of the three arrows, outbound, inbound
    and both ways, written with an edge type or with none and with no range,
    is read by [navigation_parser] as the navigation over one hop in its
    direction; and whatever [navigation_parser] reads from a text with no
    opening bracket is a navigation over one hop. *)
Theorem two_parts_one_default_hop
    (Navigation_Max : N) (EdgeType_default : str)
    (EdgeType_allowed_edge_types : list str) (allowed_edge_types_text : str) :
  allowed EdgeType_allowed_edge_types EdgeType_default = true ->
  parse_query Navigation_Max EdgeType_default EdgeType_allowed_edge_types
              allowed_edge_types_text two_part_query
  = Returns (Query_
      [Part_ (pred_ "some.int.value" "<" 1) false None;
       Part_ (CombinedTerm (pred_ "cpu" ">" 4) "and"
                (CombinedTerm (pred_ "mem" "<" 23) "or" (pred_ "mem" "<" 59)))
             false
             (Some (mkNavigation 1 1 (Some EdgeType_default) "out"))])
  /\ (forall s maybe_edge_type s1,
        optional literalP s = Success maybe_edge_type s1 ->
        range_parser Navigation_Max s1 = Failure ->
        edge_definition Navigation_Max s = Success (1%N, 1%N, maybe_edge_type) s1)
  /\ (forall edge rest,
        match edge with Some e => is_literal e = true | None => True end ->
        navigation_parser Navigation_Max ("-" ++ written_edge edge ++ "->" ++ rest)%string
        = Success (mkNavigation 1 1 edge "out") (snd (span isspace rest))
        /\ navigation_parser Navigation_Max ("<-" ++ written_edge edge ++ "-" ++ rest)%string
           = Success (mkNavigation 1 1 edge "in") (snd (span isspace rest))
        /\ (starts_with_char (Ascii.eqb ">") rest = false ->
            navigation_parser Navigation_Max ("-" ++ written_edge edge ++ "-" ++ rest)%string
            = Success (mkNavigation 1 1 edge "inout") (snd (span isspace rest))))
  /\ (forall s nav rest,
        unbracketed s = true ->
        navigation_parser Navigation_Max s = Success nav rest ->
        start nav = 1%N /\ until nav = 1%N).
Proof.
  intros Hd.
  split; [|split; [apply edge_definition_default
                  |split; [apply navigation_parser_plain
                          |apply navigation_parser_unbracketed]]].
  apply parse_returns.
  assert (Ho : optional preambleP two_part_query = Success None two_part_query)
    by (vm_compute; reflexivity).
  assert (Hp : many (part_parser Navigation_Max) two_part_query
               = Success
                   [Part_ (CombinedTerm (pred_ "cpu" ">" 4) "and"
                             (CombinedTerm (pred_ "mem" "<" 23) "or" (pred_ "mem" "<" 59)))
                          false (Some (mkNavigation 1 1 None "out"));
                    Part_ (pred_ "some.int.value" "<" 1) false None]
                   EmptyString)
    by (vm_compute; reflexivity).
  rewrite (query_parser_steps _ _ _ _ _ Ho Hp).
  unfold resolved_edge_type. simpl dict_get. rewrite Hd. reflexivity.
Qed.

(** The query of the scenario, and an inbound arrow with the edge type
    [delete] and spaces in it. *)
Lemma two_parts_one_default_hop_witness :
  Sample.parse_query two_part_query
  = Returns (Query_
      [Part_ (pred_ "some.int.value" "<" 1) false None;
       Part_ (CombinedTerm (pred_ "cpu" ">" 4) "and"
                (CombinedTerm (pred_ "mem" "<" 23) "or" (pred_ "mem" "<" 59)))
             false
             (Some (mkNavigation 1 1 (Some Sample.EdgeType_default) "out"))])
  /\ navigation_parser Sample.Navigation_Max "<-delete- b > 2"
     = Success (mkNavigation 1 1 (Some (codes "delete")) "in") "b > 2"
  /\ exists nav rest,
       navigation_parser Sample.Navigation_Max "<- delete - b > 2" = Success nav rest
       /\ start nav = 1%N /\ until nav = 1%N.
Proof.
  pose proof (@two_parts_one_default_hop Sample.Navigation_Max Sample.EdgeType_default
                Sample.EdgeType_allowed_edge_types Sample.allowed_edge_types_text eq_refl)
    as (H1 & _ & H3 & H4).
  split; [exact H1|]. split.
  - exact (proj1 (proj2 (H3 (Some (codes "delete")) " b > 2" eq_refl))).
  - destruct (navigation_parser Sample.Navigation_Max "<- delete - b > 2")
      as [nav rest | | |] eqn:E; try (vm_compute in E; discriminate E).
    exists nav, rest. split; [reflexivity|].
    exact (H4 "<- delete - b > 2" nav rest eq_refl E).
Defined.

(* ------------------------------------------------------------------ *)
(** ** The rendered streams *)

Lemma body_app (a b : list string) : body (a ++ b) = (body a ++ body b)%string.
Proof.
  induction a as [|x a IH]; [reflexivity|].
  cbn [app body fold_right]. fold (body (a ++ b)). fold (body a).
  now rewrite IH, append_assoc.
Qed.

Lemma body_cons (x : string) (l : list string) : body (x :: l) = (x ++ body l)%string.
Proof. reflexivity. Qed.

Lemma body_one (x : string) : body [x] = x.
Proof. apply append_empty. Qed.

(** [sep.join(texts)], behind a first text. *)
Lemma concat_behind (sep x : string) (l : list string) :
  String.concat sep (x :: l)
  = (x ++ match l with [] => EmptyString | _ => sep ++ String.concat sep l end)%string.
Proof. destruct l; [symmetry; apply append_empty | reflexivity]. Qed.

Section RenderedStreams.

Variable Json : Type.
Variables json_dumps yaml_dump : Json -> string.
Variable is_dict_or_list : Json -> bool.
Variables yaml_dump_result py_str_of : Json -> string.

Lemma respond_json_items_rest (gen : list Json) :
  body (respond_json_items json_dumps false gen)
  = match gen with
    | [] => EmptyString
    | _ => ("," ++ newline ++ String.concat ("," ++ newline) (map json_dumps gen))%string
    end.
Proof.
  induction gen as [|item gen IH]; [reflexivity|].
  cbn [respond_json_items negb app map]. rewrite !body_cons, IH, concat_behind.
  destruct gen; reflexivity.
Qed.

Lemma respond_json_items_body (gen : list Json) :
  body (respond_json_items json_dumps true gen)
  = String.concat ("," ++ newline) (map json_dumps gen).
Proof.
  destruct gen as [|item gen]; [reflexivity|].
  cbn [respond_json_items negb app map]. rewrite body_cons, respond_json_items_rest, concat_behind.
  destruct gen; reflexivity.
Qed.

Lemma respond_yaml_items_rest (gen : list Json) :
  body (respond_yaml_items yaml_dump true gen)
  = match gen with
    | [] => EmptyString
    | _ => ("---" ++ newline ++ String.concat ("---" ++ newline) (map yaml_dump gen))%string
    end.
Proof.
  induction gen as [|item gen IH]; [reflexivity|].
  cbn [respond_yaml_items app map]. rewrite !body_cons, IH, concat_behind.
  destruct gen; reflexivity.
Qed.

Lemma respond_text_items_rest (text : Json -> string) (sep : string) (kind : bool)
      (gen : list Json) :
  forallb (fun item => Bool.eqb (is_dict_or_list item) kind) gen = true ->
  text = (if kind then yaml_dump_result else py_str_of) ->
  sep = (if kind then ("---" ++ newline)%string else newline) ->
  body (respond_text_items is_dict_or_list yaml_dump_result py_str_of true gen)
  = match gen with
    | [] => EmptyString
    | _ => (sep ++ String.concat sep (map text gen))%string
    end.
Proof.
  intros Hall -> ->. induction gen as [|item gen IH]; [reflexivity|].
  cbn [forallb] in Hall. apply andb_true_iff in Hall as [Hitem Hall].
  apply Bool.eqb_prop in Hitem.
  cbn [respond_text_items map]. rewrite body_app, (IH Hall), concat_behind, Hitem.
  destruct kind; cbn [app]; rewrite !body_cons; cbn [body fold_right];
    rewrite ?append_empty, ?append_assoc; destruct gen; reflexivity.
Qed.

Lemma respond_text_items_body (text : Json -> string) (sep : string) (kind : bool)
      (gen : list Json) :
  forallb (fun item => Bool.eqb (is_dict_or_list item) kind) gen = true ->
  text = (if kind then yaml_dump_result else py_str_of) ->
  sep = (if kind then ("---" ++ newline)%string else newline) ->
  body (respond_text_items is_dict_or_list yaml_dump_result py_str_of false gen)
  = String.concat sep (map text gen).
Proof.
  intros Hall Htext Hsep. destruct gen as [|item gen]; [reflexivity|].
  cbn [forallb] in Hall. apply andb_true_iff in Hall as [Hitem Hall].
  apply Bool.eqb_prop in Hitem.
  cbn [respond_text_items map].
  rewrite body_app, (@respond_text_items_rest text sep kind gen Hall Htext Hsep),
    concat_behind, Hitem.
  subst text. destruct kind; cbn [app]; rewrite body_one; destruct gen; reflexivity.
Qed.

(** X13. What [respond_json] sends is a JSON array of the items: an opening
    bracket and a line feed, the texts of the items joined by a comma and
    a line feed, and, only where the stream of items comes to its end, a
    line feed and the closing bracket; a stream that raises leaves the
    array open, and the exception is passed on. *)
Theorem respond_json_array (gen : Generator Json) :
  body (yielded (respond_json json_dumps gen))
  = ("[" ++ newline
         ++ String.concat ("," ++ newline) (map json_dumps (yielded gen))
         ++ match ending gen with
            | Exhausted => newline ++ "]"
            | _ => EmptyString
            end)%string
  /\ ending (respond_json json_dumps gen) = ending gen.
Proof.
  split; [|reflexivity].
  unfold respond_json. cbn [yielded ending].
  rewrite body_app, body_one, body_app, respond_json_items_body.
  rewrite !append_assoc. do 3 f_equal.
  destruct (ending gen); reflexivity.
Qed.

(** X14. What [respond_yaml] sends is the YAML texts of the items joined by
    the document separator: no separator in front of the first document
    and none behind the last, and nothing at all for a stream without
    items. *)
Theorem respond_yaml_documents (gen : Generator Json) :
  body (yielded (respond_yaml yaml_dump gen))
  = String.concat ("---" ++ newline) (map yaml_dump (yielded gen))
  /\ ending (respond_yaml yaml_dump gen) = ending gen.
Proof.
  split; [|reflexivity].
  unfold respond_yaml. cbn [yielded]. destruct (yielded gen) as [|item items]; [reflexivity|].
  cbn [respond_yaml_items app map].
  rewrite body_cons, respond_yaml_items_rest, concat_behind. destruct items; reflexivity.
Qed.

(** X16. On a stream of items of one sort, [respond_text] sends a joined
    text: YAML documents joined by the document separator where every
    item is a dict or a list, and the [str] of the items, one on a line,
    where none is; behind the last item there is no separator. *)
Theorem respond_text_joined (kind : bool) (gen : Generator Json) :
  forallb (fun item => Bool.eqb (is_dict_or_list item) kind) (yielded gen) = true ->
  ending gen <> QueryTookToLongError ->
  body (yielded (respond_text is_dict_or_list yaml_dump_result py_str_of gen))
  = if kind
    then String.concat ("---" ++ newline) (map yaml_dump_result (yielded gen))
    else String.concat newline (map py_str_of (yielded gen)).
Proof.
  intros Hall Hend. unfold respond_text.
  destruct (ending gen) eqn:E; [| now elim Hend |]; cbn [yielded];
    rewrite (@respond_text_items_body _ _ kind (yielded gen) Hall eq_refl eq_refl);
    destruct kind; reflexivity.
Qed.

End RenderedStreams.

(** Three numbers, none of them a dict or a list. *)
Lemma respond_text_joined_witness :
  body (yielded (respond_text (fun _ : N => false) py_str py_str
                              (mkGenerator [1%N; 22%N; 3%N] Exhausted)))
  = String.concat newline ["1"; "22"; "3"].
Proof.
  exact (@respond_text_joined N (fun _ => false) py_str py_str false
           (mkGenerator [1%N; 22%N; 3%N] Exhausted) eq_refl
           (fun H : Exhausted = QueryTookToLongError =>
              match H in _ = e return match e with Exhausted => True | _ => False end
              with eq_refl => I end)).
Defined.

(** X17. The content type that [result_string_gen] answers with is itself
    an [accept] header that is answered with the same content type, and
    with the same renderer, but for the Graphviz output: that is sent as
    [text/yaml], which as a header asks for YAML. A request without the
    header is answered like one that accepts [application/json]. *)
Theorem content_type_is_accepted (accept_header : option string) :
  result_string_gen (Some (fst (result_string_gen accept_header)))
  = (fst (result_string_gen accept_header),
     match snd (result_string_gen accept_header) with
     | Respond_dot => Respond_yaml
     | renderer => renderer
     end)
  /\ result_string_gen None = result_string_gen (Some "application/json").
Proof.
  split; [|reflexivity].
  destruct accept_header as [accept|]; [|reflexivity].
  unfold result_string_gen at 2 3 4.
  repeat match goal with
         | |- context [if ?c then (?ct, ?r) else _] =>
             destruct c; [reflexivity|]
         end.
  reflexivity.
Qed.
